(** * quaere: a shallow embedding of the query cache core

    The development follows the layout of [src/vanilla]:
    - [Retryer]        — [retryer.ts]      (retry / backoff / pause state machine)
    - [QueryInfo]      — [queryInfo.ts]    (per-resource fetch state machine)
    - [Utils]          — [utils.ts]        (key hashing)
    - [Hydration]      — hydration        (dehydrate / hydrate, with the registry)
    - [ObservableQuery]— [observableQuery.ts] (result derivation)
    - [MutationInfo]   — [mutationInfo.ts] (trigger and its callbacks)
    - [InfiniteQuery]  — [infiniteQueryBehavior.ts]
    - [RetryerTimers]  — [retryer.ts]      (the continuations of a settled retryer)
    - [Subscribable]   — [subscribable.ts]
    - [FocusManager]   — [focusManager.ts]
    - [OnlineManager]  — [onlineManager.ts]
    - [GcManager]      — [gcManager.ts]
    - [Sharing]        — [utils.ts]        (partial matching of keys)
    - [StructuralSharing] — [utils.ts]     (structural sharing)
    - [ObservableQueries] — [observableQueries.ts] (matching queries with observers)
    - [QueryCache]     — [queryCache.ts]   (the registry of entries)

    JavaScript is single threaded: every function below is one synchronous
    step of the event loop, and the asynchronous continuations ([then],
    [catch], timers) are events fed to a step function.  Numbers are
    modelled by [Z]; [undefined]/[null] by [None]; object identity ([===] on
    objects and functions) by decidable equality on abstract references. *)

From Stdlib Require Import ZArith String Ascii List Bool Lia Permutation Sorted.
From Stdlib Require OrderedTypeEx.
From stdpp Require Import base option list sorting gmap strings pretty.

#[local] Set Warnings "-register-all,-clear-no-such-hyp".

Local Open Scope Z_scope.

(* ===================================================================== *)
(** * Part I — the embedding                                              *)
(* ===================================================================== *)

(** ** retryer.ts *)
Module Retryer.

Inductive NetworkMode := online | always | offlineFirst.

(** The process-wide singletons the retryer consults:
    [isServer], [onlineManager.isOnline()], [focusManager.isFocused()]. *)
Record Env := mkEnv {
  isServer  : bool;
  isOnline  : bool;
  isFocused : bool;
}.

(** [canFetch]: [(networkMode ?? 'online') === 'online' ? isOnline() : true] *)
Definition canFetch (env : Env) (networkMode : option NetworkMode) : bool :=
  match networkMode with
  | None | Some online => isOnline env
  | Some _ => true
  end.

(** [defaultRetryDelay]: [Math.min(1000 * 2 ** failureCount, 30000)] *)
Definition defaultRetryDelay (failureCount : Z) : Z :=
  Z.min (1000 * 2 ^ failureCount) 30000.

(** [CancelOptions]; an absent flag is falsy. *)
Record CancelOptions := mkCancel { revert : bool; silent : bool }.

#[export] Instance CancelOptions_eq_dec : EqDecision CancelOptions.
Proof. solve_decision. Defined.

Section WithTypes.
Context {TData TError : Type}.

(** [RetryValue<TError> = boolean | number | ShouldRetryFunction] *)
Inductive RetryValue :=
| RetryBool (b : bool)
| RetryCount (n : Z)
| RetryFn (f : Z → TError → bool).

(** [RetryDelayValue<TError> = number | RetryDelayFunction] *)
Inductive RetryDelayValue :=
| DelayMs (ms : Z)
| DelayFn (f : Z → TError → Z).

Record RetryerConfig := mkConfig {
  retry       : option RetryValue;
  retryDelay  : option RetryDelayValue;
  networkMode : option NetworkMode;
}.

(** Where the retryer's control currently is.  In the source this is the
    pending continuation: the [then]/[catch] of the attempt, the [sleep]
    timer, or the [pause] promise (with the pending error when the pause
    follows a backoff delay). *)
Inductive Phase :=
| Running
| Sleeping (error : TError)
| Paused (pending : option TError)
| Stopped.

(** The closure variables of [createRetryer]; [continueFn] is defined
    exactly in phase [Paused]. *)
Record Retryer := mkRetryer {
  isRetryCancelled : bool;
  failureCount     : Z;
  isResolved       : bool;
  phase            : Phase;
}.

(** What a step asks of the outside world, in program order. *)
Inductive Effect :=
| CallFn                       (* config.fn() *)
| OnSuccess (data : TData)     (* config.onSuccess, then promiseResolve *)
| OnError (error : TError)     (* config.onError, then promiseReject *)
| OnPause
| OnContinue
| Sleep (delay : Z)
| Abort.

Inductive Event :=
| AttemptResolved (data : TData)
| AttemptRejected (error : TError)
| DelayElapsed
| Continue                      (* retryer.continue() *)
| Cancel (cancelled : TError)   (* retryer.cancel(opts): the CancelledError *)
| CancelRetry
| ContinueRetry.

Definition shouldPause (env : Env) (cfg : RetryerConfig) : bool :=
  negb (isFocused env) ||
  match networkMode cfg with
  | Some always => false
  | _ => negb (isOnline env)
  end.

(** [config.retry ?? (isServer ? 0 : 3)] *)
Definition effectiveRetry (env : Env) (cfg : RetryerConfig) : RetryValue :=
  match retry cfg with
  | Some r => r
  | None => RetryCount (if isServer env then 0 else 3)
  end.

Definition shouldRetry (env : Env) (cfg : RetryerConfig)
           (failureCount : Z) (error : TError) : bool :=
  match effectiveRetry env cfg with
  | RetryBool b => b
  | RetryCount n => failureCount <? n
  | RetryFn f => f failureCount error
  end.

(** [config.retryDelay ?? defaultRetryDelay], applied when a function. *)
Definition delayFor (cfg : RetryerConfig) (failureCount : Z) (error : TError) : Z :=
  match retryDelay cfg with
  | Some (DelayFn f) => f failureCount error
  | Some (DelayMs ms) => ms
  | None => defaultRetryDelay failureCount
  end.

Definition resolve (r : Retryer) (value : TData) : Retryer * list Effect :=
  if isResolved r then (r, [])
  else (mkRetryer (isRetryCancelled r) (failureCount r) true Stopped,
        [OnSuccess value]).

Definition reject (r : Retryer) (value : TError) : Retryer * list Effect :=
  if isResolved r then (r, [])
  else (mkRetryer (isRetryCancelled r) (failureCount r) true Stopped,
        [OnError value]).

Definition pause (r : Retryer) (pending : option TError) : Retryer * list Effect :=
  (mkRetryer (isRetryCancelled r) (failureCount r) (isResolved r) (Paused pending),
   [OnPause]).

(** [run]: start one attempt. *)
Definition run (r : Retryer) : Retryer * list Effect :=
  if isResolved r then (r, [])
  else (mkRetryer (isRetryCancelled r) (failureCount r) false Running, [CallFn]).

(** The last [then] of the backoff chain:
    [if (isRetryCancelled) reject(error) else run()]. *)
Definition afterBackoff (r : Retryer) (error : TError) : Retryer * list Effect :=
  if isRetryCancelled r then reject r error else run r.

(** The [catch] handler of an attempt. *)
Definition onRejected (env : Env) (cfg : RetryerConfig)
           (r : Retryer) (error : TError) : Retryer * list Effect :=
  if isResolved r then (r, [])
  else
    let delay := delayFor cfg (failureCount r) error in
    if isRetryCancelled r || negb (shouldRetry env cfg (failureCount r) error)
    then reject r error
    else (mkRetryer (isRetryCancelled r) (failureCount r + 1) false (Sleeping error),
          [Sleep delay]).

Definition step (env : Env) (cfg : RetryerConfig)
           (r : Retryer) (ev : Event) : Retryer * list Effect :=
  match ev, phase r with
  | AttemptResolved v, Running => resolve r v
  | AttemptRejected e, Running => onRejected env cfg r e
  | DelayElapsed, Sleeping e =>
      if shouldPause env cfg then pause r (Some e) else afterBackoff r e
  | Continue, Paused pending =>
      (* continueFn: canContinue = isResolved || !shouldPause() *)
      if isResolved r || negb (shouldPause env cfg) then
        let r' := mkRetryer (isRetryCancelled r) (failureCount r) (isResolved r) Running in
        let resumed := if isResolved r then [] else [OnContinue] in
        let '(r'', eff) :=
          match pending with
          | Some e => afterBackoff r' e
          | None => run r'
          end in
        (r'', resumed ++ eff)
      else (r, [])
  | Cancel c, _ =>
      if isResolved r then (r, [])
      else let '(r', eff) := reject r c in (r', eff ++ [Abort])
  | CancelRetry, _ =>
      (mkRetryer true (failureCount r) (isResolved r) (phase r), [])
  | ContinueRetry, _ =>
      (mkRetryer false (failureCount r) (isResolved r) (phase r), [])
  | _, _ => (r, [])
  end.

(** [createRetryer]: the synchronous start of the loop. *)
Definition createRetryer (env : Env) (cfg : RetryerConfig) : Retryer * list Effect :=
  let r0 := mkRetryer false 0 false Running in
  if canFetch env (networkMode cfg) then run r0 else pause r0 None.

End WithTypes.
Arguments RetryValue : clear implicits.
Arguments RetryDelayValue : clear implicits.
Arguments RetryerConfig : clear implicits.
Arguments Phase : clear implicits.
Arguments Retryer : clear implicits.
Arguments Effect : clear implicits.
Arguments Event : clear implicits.
End Retryer.

(** ** queryInfo.ts *)
Module QueryInfo.
Import Retryer.

Inductive QueryStatus := StatusPending | StatusError | StatusSuccess.
Inductive FetchStatus := Fetching | FetchPaused | Idle.

#[export] Instance QueryStatus_eq_dec : EqDecision QueryStatus.
Proof. solve_decision. Defined.
#[export] Instance FetchStatus_eq_dec : EqDecision FetchStatus.
Proof. solve_decision. Defined.

Section WithTypes.
(** [TData]: cached data; [TError]: what the fetch function rejects with;
    [Meta]: references to [FetchMeta] objects, compared with [!==]. *)
Context {TData TError Meta : Type} `{!EqDecision Meta}.

(** The values that reach the [error] field. *)
Inductive QueryError :=
| Thrown (e : TError)          (* thrown or rejected by caller-supplied code *)
| CancelledError (opts : CancelOptions)
| UndefinedDataError.      (* new Error(`${queryHash} data is undefined`) *)

#[export] Instance QueryError_eq_dec `{!EqDecision TError} : EqDecision QueryError.
Proof. solve_decision. Defined.

Definition isCancelledError (e : QueryError) : bool :=
  match e with CancelledError _ => true | _ => false end.

Definition isSilent (e : QueryError) : bool :=
  match e with CancelledError o => silent o | _ => false end.

Definition isRevert (e : QueryError) : bool :=
  match e with CancelledError o => revert o | _ => false end.

Record QueryInfoState := mkState {
  data           : option TData;
  dataUpdatedAt  : Z;
  error          : option QueryError;
  errorUpdatedAt : Z;
  fetchMeta      : option Meta;
  isInvalidated  : bool;
  status         : QueryStatus;
  fetchStatus    : FetchStatus;
}.

(** [Partial<QueryInfoState>]: a field is overwritten when present. *)
Record PartialState := mkPartial {
  p_data           : option (option TData);
  p_dataUpdatedAt  : option Z;
  p_error          : option (option QueryError);
  p_errorUpdatedAt : option Z;
  p_fetchMeta      : option (option Meta);
  p_isInvalidated  : option bool;
  p_status         : option QueryStatus;
  p_fetchStatus    : option FetchStatus;
}.

Definition fullPatch (s : QueryInfoState) : PartialState :=
  mkPartial (Some (data s)) (Some (dataUpdatedAt s)) (Some (error s))
            (Some (errorUpdatedAt s)) (Some (fetchMeta s))
            (Some (isInvalidated s)) (Some (status s)) (Some (fetchStatus s)).

Inductive Action :=
| ContinueAction
| ErrorAction (error : QueryError)
| FetchAction (meta : option Meta)
| InvalidateAction
| PauseAction
| SetStateAction (state : PartialState)
| SuccessAction (data : option TData) (dataUpdatedAt : option Z) (manual : bool).

(** [structuralSharing?: boolean | ((old, new) => new)] *)
Inductive StructuralSharing :=
| SharingOff
| SharingFn (f : option TData → option TData → option TData).

Record QueryInfoOptions := mkOptions {
  retry                : option (RetryValue QueryError);
  retryDelay           : option (RetryDelayValue QueryError);
  networkMode          : option NetworkMode;
  initialData          : option TData;   (* the value, or what the function returns *)
  initialDataUpdatedAt : option Z;       (* likewise *)
  structuralSharing    : option StructuralSharing;
  meta                 : option Meta;
}.

(** [replaceEqualDeep] only decides which of two deeply equal references
    is kept; on the content of the data it is the identity on its second
    argument, and is kept abstract here. *)
Variable replaceEqualDeep : option TData → option TData → option TData.

Definition replaceData (prevData newData : option TData)
           (options : QueryInfoOptions) : option TData :=
  match structuralSharing options with
  | Some (SharingFn f) => f prevData newData
  | Some SharingOff => newData
  | None => replaceEqualDeep prevData newData
  end.

Definition getDefaultState (now : Z) (options : QueryInfoOptions) : QueryInfoState :=
  let data := initialData options in
  let hasData := bool_decide (is_Some data) in
  let initialDataUpdatedAt :=
    if hasData then initialDataUpdatedAt options else Some 0 in
  {| data := data;
     dataUpdatedAt := if hasData then default now initialDataUpdatedAt else 0;
     error := None;
     errorUpdatedAt := 0;
     fetchMeta := None;
     isInvalidated := false;
     status := if hasData then StatusSuccess else StatusPending;
     fetchStatus := Idle |}.

(** The [reducer] closure of [dispatch]; [now] is [Date.now()],
    [revertState] the closure variable of the same name. *)
Definition reducer (env : Env) (now : Z) (options : QueryInfoOptions)
           (revertState : option QueryInfoState)
           (state : QueryInfoState) (action : Action) : QueryInfoState :=
  match action with
  | PauseAction =>
      mkState (data state) (dataUpdatedAt state) (error state) (errorUpdatedAt state)
              (fetchMeta state) (isInvalidated state) (status state) FetchPaused
  | ContinueAction =>
      mkState (data state) (dataUpdatedAt state) (error state) (errorUpdatedAt state)
              (fetchMeta state) (isInvalidated state) (status state) Fetching
  | FetchAction meta =>
      let neverCached := dataUpdatedAt state =? 0 in
      mkState (data state) (dataUpdatedAt state)
              (if neverCached then None else error state)
              (errorUpdatedAt state)
              meta
              (isInvalidated state)
              (if neverCached then StatusPending else status state)
              (if canFetch env (networkMode options) then Fetching else FetchPaused)
  | SuccessAction d updatedAt manual =>
      mkState d (default now updatedAt) None (errorUpdatedAt state)
              (fetchMeta state) false StatusSuccess
              (if manual then fetchStatus state else Idle)
  | ErrorAction e =>
      match (if isCancelledError e && isRevert e then revertState else None) with
      | Some snapshot => snapshot
      | None =>
          mkState (data state) (dataUpdatedAt state) (Some e) now
                  (fetchMeta state) (isInvalidated state) StatusError Idle
      end
  | InvalidateAction =>
      mkState (data state) (dataUpdatedAt state) (error state) (errorUpdatedAt state)
              (fetchMeta state) true (status state) (fetchStatus state)
  | SetStateAction p =>
      mkState (default (data state) (p_data p))
              (default (dataUpdatedAt state) (p_dataUpdatedAt p))
              (default (error state) (p_error p))
              (default (errorUpdatedAt state) (p_errorUpdatedAt p))
              (default (fetchMeta state) (p_fetchMeta p))
              (default (isInvalidated state) (p_isInvalidated p))
              (default (status state) (p_status p))
              (default (fetchStatus state) (p_fetchStatus p))
  end.

Record FetchOptions := mkFetchOptions {
  cancelRefetch : bool;            (* absent is falsy *)
  fo_meta       : option Meta;
}.

(** Identity of the promise handed out by a retryer. *)
Definition PromiseId := nat.

(** What lives outside one entry: the allocator of promises and the
    number of times the fetch function ([context.fetchFn]) was invoked. *)
Record World := mkWorld {
  nextPromise : PromiseId;
  fetchFnCalls : nat;
}.

(** The closure variables of [createQueryInfo].  The garbage-collection
    timer, the notification of listeners and the cache-level callbacks
    read the state but never write it, and are left out. *)
Record QueryInfo := mkQueryInfo {
  queryHash           : string;
  options             : QueryInfoOptions;
  state               : QueryInfoState;
  revertState         : option QueryInfoState;
  abortSignalConsumed : bool;
  retryer             : option (Retryer QueryError);
  promise             : option PromiseId;
  isFetchingOptimistic : bool;
}.

Definition withState (qi : QueryInfo) (s : QueryInfoState) : QueryInfo :=
  mkQueryInfo (queryHash qi) (options qi) s (revertState qi)
              (abortSignalConsumed qi) (retryer qi) (promise qi)
              (isFetchingOptimistic qi).

Definition withRetryer (qi : QueryInfo) (r : option (Retryer QueryError)) : QueryInfo :=
  mkQueryInfo (queryHash qi) (options qi) (state qi) (revertState qi)
              (abortSignalConsumed qi) r (promise qi)
              (isFetchingOptimistic qi).

Definition dispatch (env : Env) (now : Z) (qi : QueryInfo) (action : Action) : QueryInfo :=
  withState qi (reducer env now (options qi) (revertState qi) (state qi) action).

(** The inner [setData(updater, options)], with the updater applied. *)
Definition setData (env : Env) (now : Z) (qi : QueryInfo)
           (updater : option TData → option TData)
           (updatedAt : option Z) (manual : bool) : QueryInfo :=
  let newData := updater (data (state qi)) in
  let data := replaceData (data (state qi)) newData (options qi) in
  dispatch env now qi (SuccessAction data updatedAt manual).

(** The exported [queryInfo.setData]: always [manual: true]. *)
Definition setDataManual (env : Env) (now : Z) (qi : QueryInfo)
           (updater : option TData → option TData)
           (updatedAt : option Z) : QueryInfo :=
  setData env now qi updater updatedAt true.

Definition invalidate (env : Env) (now : Z) (qi : QueryInfo) : QueryInfo :=
  if isInvalidated (state qi) then qi else dispatch env now qi InvalidateAction.

Definition setState (env : Env) (now : Z) (qi : QueryInfo) (p : PartialState) : QueryInfo :=
  dispatch env now qi (SetStateAction p).

(** The [onError] closure handed to the retryer. *)
Definition onError (env : Env) (now : Z) (qi : QueryInfo) (e : QueryError) : QueryInfo :=
  let qi1 :=
    if isCancelledError e && isSilent e then qi
    else dispatch env now qi (ErrorAction e) in
  mkQueryInfo (queryHash qi1) (options qi1) (state qi1) (revertState qi1)
              (abortSignalConsumed qi1) (retryer qi1) (promise qi1) false.

(** The [onSuccess] closure handed to the retryer. *)
Definition onSuccess (env : Env) (now : Z) (qi : QueryInfo) (d : option TData) : QueryInfo :=
  match d with
  | None => onError env now qi UndefinedDataError
  | Some _ =>
      let qi1 := setData env now qi (λ _, d) None false in
      mkQueryInfo (queryHash qi1) (options qi1) (state qi1) (revertState qi1)
                  (abortSignalConsumed qi1) (retryer qi1) (promise qi1) false
  end.

(** Interpret the requests of the retryer against the entry. *)
Definition handleEffect (env : Env) (now : Z) (acc : QueryInfo * World)
           (eff : Effect (option TData) QueryError) : QueryInfo * World :=
  let '(qi, w) := acc in
  match eff with
  | CallFn =>
      (mkQueryInfo (queryHash qi) (options qi) (state qi) (revertState qi)
                   false (retryer qi) (promise qi) (isFetchingOptimistic qi),
       mkWorld (nextPromise w) (S (fetchFnCalls w)))
  | OnSuccess d => (onSuccess env now qi d, w)
  | OnError e => (onError env now qi e, w)
  | OnPause => (dispatch env now qi PauseAction, w)
  | OnContinue => (dispatch env now qi ContinueAction, w)
  | Sleep _ | Abort => (qi, w)
  end.

Definition handleEffects (env : Env) (now : Z) (qi : QueryInfo) (w : World)
           (effs : list (Effect (option TData) QueryError)) : QueryInfo * World :=
  foldl (handleEffect env now) (qi, w) effs.

Definition retryerConfig (o : QueryInfoOptions) : RetryerConfig QueryError :=
  mkConfig (retry o) (retryDelay o) (networkMode o).

(** Feed one event to the entry's current retryer. *)
Definition deliver (env : Env) (now : Z) (qi : QueryInfo) (w : World)
           (ev : Event (option TData) QueryError) : QueryInfo * World :=
  match retryer qi with
  | None => (qi, w)
  | Some r =>
      let '(r', effs) := step env (retryerConfig (options qi)) r ev in
      handleEffects env now (withRetryer qi (Some r')) w effs
  end.

Definition cancel (env : Env) (now : Z) (qi : QueryInfo) (w : World)
           (opts : CancelOptions) : QueryInfo * World :=
  deliver env now qi w (Cancel (CancelledError opts)).

(** [state.fetchMeta !== context.fetchOptions?.meta]: the state holds
    [null] when there is no meta and the options hold [undefined], so the
    two differ whenever no meta is passed. *)
Definition metaDiffers (stateMeta : option Meta) (m : option Meta) : bool :=
  match m with
  | None => true
  | Some x => negb (bool_decide (stateMeta = Some x))
  end.

Definition setOptions (qi : QueryInfo) (o : QueryInfoOptions) : QueryInfo :=
  mkQueryInfo (queryHash qi) o (state qi) (revertState qi)
              (abortSignalConsumed qi) (retryer qi) (promise qi)
              (isFetchingOptimistic qi).

(** The part of [fetch] after the deduplication test. *)
Definition startFetch (env : Env) (now : Z) (qi : QueryInfo) (w : World)
           (newOptions : option QueryInfoOptions)
           (fetchOptions : option FetchOptions) : PromiseId * QueryInfo * World :=
  let qi1 := match newOptions with Some o => setOptions qi o | None => qi end in
  let meta := fetchOptions ≫= fo_meta in
  (* Store state in case the current fetch needs to be reverted *)
  let qi2 := mkQueryInfo (queryHash qi1) (options qi1) (state qi1) (Some (state qi1))
                         (abortSignalConsumed qi1) (retryer qi1) (promise qi1)
                         (isFetchingOptimistic qi1) in
  let qi3 :=
    if bool_decide (fetchStatus (state qi2) = Idle)
       || metaDiffers (fetchMeta (state qi2)) meta
    then dispatch env now qi2 (FetchAction meta) else qi2 in
  let '(r, effs) := createRetryer env (retryerConfig (options qi3)) in
  let p := nextPromise w in
  let qi4 := mkQueryInfo (queryHash qi3) (options qi3) (state qi3) (revertState qi3)
                         (abortSignalConsumed qi3) (Some r) (Some p)
                         (isFetchingOptimistic qi3) in
  let '(qi5, w') := handleEffects env now qi4 (mkWorld (S p) (fetchFnCalls w)) effs in
  (p, qi5, w').

Definition fetch (env : Env) (now : Z) (qi : QueryInfo) (w : World)
           (newOptions : option QueryInfoOptions)
           (fetchOptions : option FetchOptions) : PromiseId * QueryInfo * World :=
  if bool_decide (fetchStatus (state qi) ≠ Idle) then
    if negb (dataUpdatedAt (state qi) =? 0)
       && from_option cancelRefetch false fetchOptions
    then
      (* Silently cancel current fetch if the user wants to cancel refetches *)
      let '(qi', w') := cancel env now qi w (mkCancel false true) in
      startFetch env now qi' w' newOptions fetchOptions
    else
      match promise qi with
      | Some p =>
          (* retryer?.continueRetry(); return promise *)
          (p, fst (deliver env now qi w ContinueRetry), w)
      | None => startFetch env now qi w newOptions fetchOptions
      end
  else startFetch env now qi w newOptions fetchOptions.

Definition destroy (env : Env) (now : Z) (qi : QueryInfo) (w : World) : QueryInfo * World :=
  cancel env now qi w (mkCancel false true).

Definition reset (env : Env) (now : Z) (qi : QueryInfo) (w : World) : QueryInfo * World :=
  let '(qi', w') := destroy env now qi w in
  (setState env now qi' (fullPatch (getDefaultState now (options qi'))), w').

Definition createQueryInfo (now : Z) (hash : string) (o : QueryInfoOptions)
           (initial : option QueryInfoState) : QueryInfo :=
  mkQueryInfo hash o (default (getDefaultState now o) initial)
              None false None None false.

Definition isStaleByTime (now : Z) (qi : QueryInfo) (staleTime : Z) : bool :=
  isInvalidated (state qi)
  || (dataUpdatedAt (state qi) =? 0)
  || (Z.max (dataUpdatedAt (state qi) + staleTime - now) 0 =? 0).

End WithTypes.
Arguments QueryError : clear implicits.
Arguments QueryInfoState : clear implicits.
Arguments PartialState : clear implicits.
Arguments Action : clear implicits.
Arguments StructuralSharing : clear implicits.
Arguments QueryInfoOptions : clear implicits.
Arguments QueryInfo : clear implicits.
Arguments FetchOptions : clear implicits.
End QueryInfo.

(** ** utils.ts — key hashing *)
Module Utils.

(** [Array.prototype.sort()] without a comparator orders strings by their
    code units; on the byte strings used here that is [String.leb]. *)
Definition keyLe (a b : string) : Prop := Is_true (String.leb a b).

#[export] Instance keyLe_dec a b : Decision (keyLe a b).
Proof. unfold keyLe. apply _. Defined.

(** An own property key that is a canonical array index: such keys are
    enumerated first, in ascending numeric order, whatever the order in
    which they were created. *)
Definition digit (c : ascii) : option N :=
  let n := N_of_ascii c in
  if ((48 <=? n) && (n <=? 57))%N then Some (n - 48)%N else None.

Fixpoint digits (s : string) (acc : N) : option N :=
  match s with
  | EmptyString => Some acc
  | String c rest =>
      match digit c with
      | Some d => digits rest (10 * acc + d)%N
      | None => None
      end
  end.

Definition arrayIndex (s : string) : option N :=
  match s with
  | EmptyString => None
  | String c rest =>
      if (N_of_ascii c =? 48)%N
      then match rest with EmptyString => Some 0%N | _ => None end
      else match digits s 0 with
           | Some n => if (n <? 2 ^ 32 - 1)%N then Some n else None
           | None => None
           end
  end.

(** What an object inherits from: [Object.prototype] (object literals,
    [JSON.parse]), nothing ([Object.create(null)]), or the [prototype] of
    a class of the program.  Such a prototype holds the class as
    [constructor], has no member named [prototype], [hasOwnProperty],
    [isPrototypeOf] or [toJSON], and inherits from [Object.prototype]. *)
Inductive Prototype := ObjectPrototype | NoPrototype | ClassPrototype.

#[export] Instance Prototype_eq_dec : EqDecision Prototype.
Proof. solve_decision. Defined.

Section Json.
(** The number type of the host and the two abstract operations of
    [JSON.stringify] that format leaves: [Number::toString] (with
    [isFinite], since NaN and the infinities print as [null]) and
    [QuoteJSONString]. *)
Context {number : Type}.
Variable isFinite : number → bool.
Variable numberToString : number → string.
Variable quoteJSONString : string → string.

(** The values a key can hold: primitives, arrays, and objects with their
    prototype and their own enumerable properties in enumeration order.
    Property values are values of this type; none of them is a
    function. *)
Inductive Value :=
| Undefined
| Null
| Bool (b : bool)
| Number (n : number)
| Str (s : string)
| Array (items : list Value)
| Object (proto : Prototype) (props : list (string * Value)).

Definition isUndefined (v : Value) : bool :=
  match v with Undefined => true | _ => false end.

(** [val[key]] for an own property ([undefined] when there is none). *)
Fixpoint objGet (props : list (string * Value)) (key : string) : Value :=
  match props with
  | [] => Undefined
  | (k, v) :: rest => if String.eqb k key then v else objGet rest key
  end.

Definition hasKey (props : list (string * Value)) (key : string) : bool :=
  existsb (λ p, String.eqb p.1 key) props.

(** [Object.prototype.toString.call(o) === '[object Object]'] *)
Definition hasObjectPrototype (o : Value) : bool :=
  match o with Object _ _ => true | _ => false end.

(** How a call of [isPlainObject] ends. *)
Inductive Verdict := Plain | NotPlain | TypeError.

(** [prot.hasOwnProperty('isPrototypeOf')] for an object [prot] of the
    data: an own [hasOwnProperty] is no function, and without a prototype
    there is none to call; otherwise it is the method of
    [Object.prototype], which looks for an own property. *)
Definition hasOwnIsPrototypeOf (proto : Prototype) (props : list (string * Value))
  : Verdict :=
  if hasKey props "hasOwnProperty" then TypeError
  else match proto with
       | NoPrototype => TypeError
       | ObjectPrototype | ClassPrototype =>
           if hasKey props "isPrototypeOf" then Plain else NotPlain
       end.

(** [isPlainObject(o)].  A constructor that is inherited is [Object]
    (whose [prototype] has its own [isPrototypeOf]) or a class (whose
    [prototype] has not); an own property [constructor] is looked at
    instead when there is one. *)
Definition isPlainObject (o : Value) : Verdict :=
  match o with
  | Object proto props =>
      if hasKey props "constructor" then
        match objGet props "constructor" with
        | Undefined => Plain                       (* isUndefined(ctor) *)
        | Null => TypeError                        (* null.prototype *)
        | Object _ ctorProps =>
            match objGet ctorProps "prototype" with
            | Object protProto protProps => hasOwnIsPrototypeOf protProto protProps
            | _ => NotPlain                        (* !hasObjectPrototype(prot) *)
            end
        | Bool _ | Number _ | Str _ | Array _ => NotPlain  (* no [prototype] property *)
        end
      else match proto with
           | ObjectPrototype => Plain
           | NoPrototype => Plain                  (* isUndefined(ctor) *)
           | ClassPrototype => NotPlain
           end
  | _ => NotPlain                                  (* !hasObjectPrototype(o) *)
  end.

Fixpoint replaceValue (props : list (string * Value)) (key : string) (v : Value)
  : list (string * Value) :=
  match props with
  | [] => []
  | (k, x) :: rest =>
      if String.eqb k key then (k, v) :: rest
      else (k, x) :: replaceValue rest key v
  end.

Fixpoint insertIndex (props : list (string * Value)) (i : N) (key : string) (v : Value)
  : list (string * Value) :=
  match props with
  | [] => [(key, v)]
  | (k, x) :: rest =>
      match arrayIndex k with
      | Some j => if (j <? i)%N then (k, x) :: insertIndex rest i key v
                  else (key, v) :: props
      | None => (key, v) :: props
      end
  end.

(** The own properties after [result[key] = v], for an object created by
    [{}].  Assigning to [__proto__] runs the setter of
    [Object.prototype], which creates no own property. *)
Definition objSet (props : list (string * Value)) (key : string) (v : Value)
  : list (string * Value) :=
  if String.eqb key "__proto__" then props
  else if hasKey props key then replaceValue props key v
  else match arrayIndex key with
       | Some i => insertIndex props i key v
       | None => props ++ [(key, v)]
       end.

(** The own properties of [Object.keys(val).sort().reduce((result, key) =>
    { result[key] = val[key]; return result }, {})] *)
Definition sortedCopy (props : list (string * Value)) : list (string * Value) :=
  foldl (λ result key, objSet result key (objGet props key)) []
        (merge_sort keyLe (map fst props)).

(** What the replacer returns: the value it was given, or a new object
    with the properties listed. *)
Inductive Replaced :=
| Itself
| SortedCopy (props : list (string * Value))
| ReplacerThrew.

(** The replacer [hashKey] passes to [JSON.stringify]. *)
Definition replacer (val : Value) : Replaced :=
  match isPlainObject val with
  | Plain =>
      match val with
      | Object _ props => SortedCopy (sortedCopy props)
      | _ => Itself
      end
  | NotPlain => Itself
  | TypeError => ReplacerThrew
  end.

(** Result of [SerializeJSONProperty]: [Omitted] stands for
    [undefined], [Threw] for the exception of the replacer. *)
Inductive Ser := OutOfFuel | Threw | Omitted | Text (s : string).

Definition joinComma (parts : list string) : string := String.concat "," parts.

Definition isOutOfFuel (r : Ser) : bool :=
  match r with OutOfFuel => true | _ => false end.

(** The texts of the elements, unless serializing one of them threw. *)
Fixpoint arrayParts (items : list Ser) : option (list string) :=
  match items with
  | [] => Some []
  | OutOfFuel :: _ | Threw :: _ => None
  | Omitted :: rest => cons "null"%string <$> arrayParts rest
  | Text s :: rest => cons s <$> arrayParts rest
  end.

Fixpoint objectParts (members : list (string * Ser)) : option (list string) :=
  match members with
  | [] => Some []
  | (_, OutOfFuel) :: _ | (_, Threw) :: _ => None
  | (_, Omitted) :: rest => objectParts rest
  | (k, Text s) :: rest =>
      cons (quoteJSONString k +:+ ":" +:+ s)%string <$> objectParts rest
  end.

Definition serializeJSONArray (items : list Ser) : Ser :=
  if existsb isOutOfFuel items then OutOfFuel
  else match arrayParts items with
       | Some parts => Text ("[" +:+ joinComma parts +:+ "]")
       | None => Threw
       end.

Definition serializeJSONObject (members : list (string * Ser)) : Ser :=
  if existsb (λ m, isOutOfFuel m.2) members then OutOfFuel
  else match objectParts members with
       | Some parts => Text ("{" +:+ joinComma parts +:+ "}")
       | None => Threw
       end.

(** [SerializeJSONProperty] with the replacer applied to the value
    before it is formatted; [fuel] bounds the nesting depth.  No value
    of the data has a [toJSON] method. *)
Fixpoint serializeJSONProperty (fuel : nat) (value : Value) : Ser :=
  match fuel with
  | O => OutOfFuel
  | S fuel =>
      match replacer value with
      | ReplacerThrew => Threw
      | SortedCopy props =>
          serializeJSONObject
            (map (λ p, (p.1, serializeJSONProperty fuel p.2)) props)
      | Itself =>
          match value with
          | Undefined => Omitted
          | Null => Text "null"
          | Bool true => Text "true"
          | Bool false => Text "false"
          | Number n => Text (if isFinite n then numberToString n else "null")
          | Str s => Text (quoteJSONString s)
          | Array items =>
              serializeJSONArray (map (serializeJSONProperty fuel) items)
          | Object _ props =>
              serializeJSONObject
                (map (λ p, (p.1, serializeJSONProperty fuel p.2)) props)
          end
      end
  end.

Fixpoint depth (v : Value) : nat :=
  match v with
  | Array items => S (foldr (λ x acc, Nat.max (depth x) acc) O items)
  | Object _ props => S (foldr (λ p acc, Nat.max (depth p.2) acc) O props)
  | _ => O
  end.

(** [getFullKey]: [isUndefined(variables) ? [key] : [key, variables]] *)
Definition getFullKey (key : string) (variables : Value) : Value :=
  if isUndefined variables then Array [Str key]
  else Array [Str key; variables].

(** [hashKey]: [JSON.stringify(fullKey, replacer)] *)
Definition hashKey (fullKey : Value) : Ser :=
  serializeJSONProperty (S (depth fullKey)) fullKey.



End Json.
Arguments Value : clear implicits.
End Utils.

(** ** mutationInfo.ts *)
Module MutationInfo.

Inductive MutationStatus := StatusIdle | StatusMutating | StatusSuccess | StatusError.

#[export] Instance MutationStatus_eq_dec : EqDecision MutationStatus.
Proof. solve_decision. Defined.

Section WithTypes.
Context {TData TVars TError : Type}.

Record MutationInfoState := mkState {
  data      : option TData;
  error     : option TError;
  status    : MutationStatus;
  variables : option TVars;
}.

Inductive Action :=
| MutatingAction (variables : TVars)
| SuccessAction (data : TData)
| ErrorAction (error : TError).

Definition getDefaultState : MutationInfoState :=
  mkState None None StatusIdle None.

(** The [reducer] closure of [dispatch]. *)
Definition reducer (state : MutationInfoState) (action : Action) : MutationInfoState :=
  match action with
  | MutatingAction v => mkState None None StatusMutating (Some v)
  | SuccessAction d => mkState (Some d) None StatusSuccess (variables state)
  | ErrorAction e => mkState None (Some e) StatusError (variables state)
  end.

(** How an awaited callback ends. *)
Inductive Completion := Returned | Threw (e : TError).

(** Callbacks receive the [mutationInfo]; what they can read of it is its
    state at the time of the call. *)
Definition OnSuccessFn := TData → TVars → MutationInfoState → Completion.
Definition OnErrorFn := TError → TVars → MutationInfoState → Completion.
Definition OnSettledFn :=
  option TData → option TError → TVars → MutationInfoState → Completion.

Record Callbacks := mkCallbacks {
  onSuccess : option OnSuccessFn;
  onError   : option OnErrorFn;
  onSettled : option OnSettledFn;
}.

(** [cache.config] and the instance [options]. *)
Record MutationInfoConfig := mkConfig {
  cacheConfig : Callbacks;
  options     : Callbacks;
}.

Inductive Callback :=
| CacheOnSuccess | InstanceOnSuccess
| CacheOnError | InstanceOnError
| CacheOnSettled | InstanceOnSettled.

(** What [trigger] does, in the order in which it does it. *)
Inductive Event :=
| Dispatched (a : Action)                          (* state changed, listeners told *)
| Executed (variables : TVars)                     (* await executeMutation() *)
| Called (c : Callback) (seen : MutationStatus)    (* an awaited callback *)
| Settles (result : TData + TError).               (* the promise of [trigger] *)

(** [await a?.(); await b?.(); ...]: the callbacks run one after the other
    and the first that throws ends the sequence. *)
Fixpoint awaitAll (state : MutationInfoState)
         (cbs : list (Callback * option (MutationInfoState → Completion)))
  : list Event * option TError :=
  match cbs with
  | [] => ([], None)
  | (_, None) :: rest => awaitAll state rest
  | (c, Some f) :: rest =>
      match f state with
      | Returned =>
          let '(evs, thrown) := awaitAll state rest in
          (Called c (status state) :: evs, thrown)
      | Threw e => ([Called c (status state)], Some e)
      end
  end.

Definition successCallbacks (cfg : MutationInfoConfig) (d : TData) (v : TVars)
  : list (Callback * option (MutationInfoState → Completion)) :=
  [ (CacheOnSuccess, (λ f, f d v) <$> onSuccess (cacheConfig cfg));
    (InstanceOnSuccess, (λ f, f d v) <$> onSuccess (options cfg));
    (CacheOnSettled, (λ f, f (Some d) None v) <$> onSettled (cacheConfig cfg));
    (InstanceOnSettled, (λ f, f (Some d) None v) <$> onSettled (options cfg)) ].

Definition errorCallbacks (cfg : MutationInfoConfig) (e : TError) (v : TVars)
  : list (Callback * option (MutationInfoState → Completion)) :=
  [ (CacheOnError, (λ f, f e v) <$> onError (cacheConfig cfg));
    (InstanceOnError, (λ f, f e v) <$> onError (options cfg));
    (CacheOnSettled, (λ f, f None (Some e) v) <$> onSettled (cacheConfig cfg));
    (InstanceOnSettled, (λ f, f None (Some e) v) <$> onSettled (options cfg)) ].

(** The [catch] block of [trigger]: the error callbacks, then — in the
    [finally] — the error transition; the promise rejects with the error, or
    with what a callback threw. *)
Definition onCatch (cfg : MutationInfoConfig) (state : MutationInfoState)
           (v : TVars) (error : TError) (before : list Event)
  : (TData + TError) * MutationInfoState * list Event :=
  let '(evs, thrown) := awaitAll state (errorCallbacks cfg error v) in
  let result := inr (default error thrown) in
  (result,
   reducer state (ErrorAction error),
   before ++ evs ++ [Dispatched (ErrorAction error); Settles result]).

(** [trigger(variables)], run to completion; [settled] is what the promise
    of the retryer created by [executeMutation] settles with. *)
Definition trigger (cfg : MutationInfoConfig) (state : MutationInfoState)
           (v : TVars) (settled : TData + TError)
  : (TData + TError) * MutationInfoState * list Event :=
  let restored := bool_decide (status state = StatusMutating) in
  let state1 := if restored then state else reducer state (MutatingAction v) in
  let started :=
    (if restored then [] else [Dispatched (MutatingAction v)]) ++ [Executed v] in
  match settled with
  | inl d =>
      let '(evs, thrown) := awaitAll state1 (successCallbacks cfg d v) in
      match thrown with
      | None =>
          (inl d, reducer state1 (SuccessAction d),
           started ++ evs ++ [Dispatched (SuccessAction d); Settles (inl d)])
      | Some e => onCatch cfg state1 v e (started ++ evs)
      end
  | inr e => onCatch cfg state1 v e started
  end.

End WithTypes.
Arguments MutationInfoState : clear implicits.
Arguments Action : clear implicits.
Arguments Completion : clear implicits.
Arguments Callbacks : clear implicits.
Arguments MutationInfoConfig : clear implicits.
Arguments Event : clear implicits.
End MutationInfo.

(** ** infiniteQueryBehavior.ts *)
Module InfiniteQuery.

Inductive Direction := forward | backward.

#[export] Instance Direction_eq_dec : EqDecision Direction.
Proof. solve_decision. Defined.

Section WithTypes.
Context {TPage TError : Type}.

(** [InfiniteData]; a page parameter is a number, [null] or [undefined]. *)
Record InfiniteData := mkData {
  pages      : list TPage;
  pageParams : list (option Z);
}.

(** [(lastPage, allPages, lastPageParam, allPageParams) => number | undefined | null];
    [pages[lastIndex]] is [undefined] on an empty list. *)
Definition PageParamFn :=
  option TPage → list TPage → option Z → list (option Z) → option Z.

Record InfiniteQueryOptions := mkOptions {
  getPreviousPageParam : option PageParamFn;
  getNextPageParam     : PageParamFn;
  initialPageParam     : Z;
  maxPages             : option Z;
}.

(** What the fetch function settles with, and whether the abort signal it
    was handed has fired by then (the [cancelled] flag of [onFetch]). *)
Record Reply := mkReply {
  settled : TPage + TError;
  aborted : bool;
}.

Definition Fetcher := option Z → Direction → Reply.

Inductive Failure :=
| Rejected (e : TError)   (* the fetch function rejected *)
| Cancelled.              (* [Promise.reject()] of a cancelled [fetchPage] *)

(** [addToEnd]/[addToStart] with [max = 0] when absent. *)
Definition addToEnd {T} (items : list T) (item : T) (max : option Z) : list T :=
  let newItems := items ++ [item] in
  let max := default 0 max in
  if negb (max =? 0) && (max <? Z.of_nat (length newItems))
  then drop 1 newItems else newItems.

Definition addToStart {T} (items : list T) (item : T) (max : option Z) : list T :=
  let newItems := item :: items in
  let max := default 0 max in
  if negb (max =? 0) && (max <? Z.of_nat (length newItems))
  then take (length newItems - 1) newItems else newItems.

(** [items[lastIndex]] with [lastIndex = pages.length - 1]. *)
Definition atLastIndex {T} (pages : list TPage) (items : list T) : option T :=
  match length pages with
  | O => None
  | S lastIndex => items !! lastIndex
  end.

(** The module-level [getNextPageParam(options, data)]. *)
Definition nextPageParam (o : InfiniteQueryOptions) (d : InfiniteData) : option Z :=
  getNextPageParam o (atLastIndex (pages d) (pages d)) (pages d)
                   (mjoin (atLastIndex (pages d) (pageParams d))) (pageParams d).

(** The module-level [getPreviousPageParam(options, data)]. *)
Definition previousPageParam (o : InfiniteQueryOptions) (d : InfiniteData) : option Z :=
  match getPreviousPageParam o with
  | Some f => f (head (pages d)) (pages d) (mjoin (head (pageParams d))) (pageParams d)
  | None => None
  end.

Definition hasNextPage (o : InfiniteQueryOptions) (d : option InfiniteData) : bool :=
  match d with
  | None => false
  | Some d => bool_decide (is_Some (nextPageParam o d))
  end.

Definition hasPreviousPage (o : InfiniteQueryOptions) (d : option InfiniteData) : bool :=
  match d, getPreviousPageParam o with
  | Some d, Some _ => bool_decide (is_Some (previousPageParam o d))
  | _, _ => false
  end.

(** The state threaded through the [async] fetch function: the [cancelled]
    flag and the page parameters the fetch function was invoked with. *)
Record Run := mkRun {
  cancelled : bool;
  requests  : list (option Z);
}.

(** [fetchPage(data, param, previous)] *)
Definition fetchPage (fetcher : Fetcher) (o : InfiniteQueryOptions) (run : Run)
           (d : InfiniteData) (param : option Z) (previous : bool)
  : (InfiniteData + Failure) * Run :=
  if cancelled run then (inr Cancelled, run)
  else if bool_decide (param = None) && negb (bool_decide (pages d = []))
  then (inl d, run)
  else
    let reply := fetcher param (if previous then backward else forward) in
    let run' := mkRun (aborted reply) (requests run ++ [param]) in
    match settled reply with
    | inr e => (inr (Rejected e), run')
    | inl page =>
        if previous
        then (inl (mkData (addToStart (pages d) page (maxPages o))
                          (addToStart (pageParams d) param (maxPages o))), run')
        else (inl (mkData (addToEnd (pages d) page (maxPages o))
                          (addToEnd (pageParams d) param (maxPages o))), run')
    end.

(** The [for (let i = 1; i < remainingPages; i++)] loop, [n] iterations. *)
Fixpoint fetchRemaining (fetcher : Fetcher) (o : InfiniteQueryOptions) (n : nat)
         (run : Run) (result : InfiniteData) : (InfiniteData + Failure) * Run :=
  match n with
  | O => (inl result, run)
  | S n =>
      let param := nextPageParam o result in
      match fetchPage fetcher o run result param false with
      | (inl result', run') => fetchRemaining fetcher o n run' result'
      | (inr f, run') => (inr f, run')
      end
  end.

(** The [fetchFn] installed by [onFetch]: [requested] is the [pages]
    argument of [createInfiniteQueryBehavior], [direction] is
    [fetchOptions.meta.fetchMore.direction], [old] is [state.data]. *)
Definition fetchFn (fetcher : Fetcher) (o : InfiniteQueryOptions)
           (requested : option nat) (direction : option Direction)
           (old : option InfiniteData) : (InfiniteData + Failure) * Run :=
  let oldPages := from_option pages [] old in
  let oldPageParams := from_option pageParams [] old in
  let run0 := mkRun false [] in
  match direction, oldPages with
  | Some dir, _ :: _ =>
      let previous := bool_decide (dir = backward) in
      let oldData := mkData oldPages oldPageParams in
      let param := if previous then previousPageParam o oldData
                   else nextPageParam o oldData in
      fetchPage fetcher o run0 oldData param previous
  | _, _ =>
      let first := default (initialPageParam o) (mjoin (head oldPageParams)) in
      match fetchPage fetcher o run0 (mkData [] []) (Some first) false with
      | (inl result, run) =>
          let remainingPages := default (length oldPages) requested in
          fetchRemaining fetcher o (remainingPages - 1) run result
      | (inr f, run) => (inr f, run)
      end
  end.

End WithTypes.
Arguments InfiniteData : clear implicits.
Arguments InfiniteQueryOptions : clear implicits.
Arguments Reply : clear implicits.
Arguments Fetcher : clear implicits.
Arguments Failure : clear implicits.
End InfiniteQuery.

(** ** queryCache.ts and hydration.ts *)
Module Hydration.
Import Retryer QueryInfo.

(** [generateKey.ts]: generated keys start with the prefix [$q$]. *)
Definition prefix : string := "$q$".

Definition isGeneratedKey (key : string) : bool := String.prefix prefix key.

Section WithTypes.
Context {TData TError Meta TVars : Type} `{!EqDecision Meta}.

(** What hydration reads of a query descriptor: [key] and [$inf$]. *)
Record BaseQuery := mkQuery { key : string; inf : bool }.

(** An entry of the registry: the state machine with the descriptor and the
    variables it was built for ([queryInfo.query], [queryInfo.variables]). *)
Record Entry := mkEntry {
  query     : BaseQuery;
  variables : option TVars;
  info      : QueryInfo TData TError Meta;
}.

Record DehydratedQuery := mkDehydrated {
  dq_query     : BaseQuery;
  dq_queryHash : string;
  dq_state     : QueryInfoState TData TError Meta;
  dq_variables : option TVars;
  dq_meta      : option Meta;
}.

Definition dehydrateQuery (e : Entry) : DehydratedQuery :=
  mkDehydrated (mkQuery (key (query e)) (inf (query e)))
               (queryHash (info e)) (state (info e)) (variables e)
               (meta (options (info e))).

Definition defaultShouldDehydrateQuery (e : Entry) : bool :=
  bool_decide (status (state (info e)) = StatusSuccess).

(** [queryCache.getAll()]: the values of the map. *)
Definition getAll (queries : gmap string Entry) : list Entry :=
  (map_to_list queries).*2.

Definition dehydrate (queries : gmap string Entry)
           (shouldDehydrateQuery : option (Entry → bool)) : list DehydratedQuery :=
  let filterQuery := default defaultShouldDehydrateQuery shouldDehydrateQuery in
  flat_map (λ e, if negb (isGeneratedKey (key (query e))) && filterQuery e
                 then [dehydrateQuery e] else [])
           (getAll queries).

(** [{ ...state, fetchStatus: 'idle' }] *)
Definition idleState (s : QueryInfoState TData TError Meta) : QueryInfoState TData TError Meta :=
  mkState (data s) (dataUpdatedAt s) (error s) (errorUpdatedAt s)
          (fetchMeta s) (isInvalidated s) (status s) Idle.

(** [{ ...defaultOptions, ...queryOptions }]: of the options modelled only
    [meta] is carried by a dehydrated query. *)
Definition mergedOptions (defaults : QueryInfoOptions TData TError Meta)
           (dq : DehydratedQuery) : QueryInfoOptions TData TError Meta :=
  mkOptions (retry defaults) (retryDelay defaults) (networkMode defaults)
            (initialData defaults) (initialDataUpdatedAt defaults)
            (structuralSharing defaults)
            (match dq_meta dq with Some m => Some m | None => meta defaults end).

(** [queryCache.build(client, options, state)] for an explicit hash. *)
Definition build (now : Z) (queries : gmap string Entry)
           (hash : string) (q : BaseQuery) (vars : option TVars)
           (o : QueryInfoOptions TData TError Meta)
           (st : option (QueryInfoState TData TError Meta)) : gmap string Entry :=
  match queries !! hash with
  | Some _ => queries
  | None => <[hash := mkEntry q vars (createQueryInfo now hash o st)]> queries
  end.

(** The body of [queries.forEach] in [hydrate]. *)
Definition hydrateQuery (env : Env) (now : Z)
           (defaults : QueryInfoOptions TData TError Meta)
           (queries : gmap string Entry) (dq : DehydratedQuery) : gmap string Entry :=
  let dehydratedQueryState := idleState (dq_state dq) in
  match queries !! dq_queryHash dq with
  | Some e =>
      (* Do not hydrate if an existing queryInfo exists with newer data *)
      if dataUpdatedAt (state (info e)) <? dataUpdatedAt dehydratedQueryState
      then <[dq_queryHash dq :=
               mkEntry (query e) (variables e)
                       (setState env now (info e) (fullPatch dehydratedQueryState))]>
             queries
      else queries
  | None =>
      build now queries (dq_queryHash dq) (dq_query dq) (dq_variables dq)
            (mergedOptions defaults dq) (Some dehydratedQueryState)
  end.

(** [hydrate]; [None] is a [dehydratedState] that is not a plain object. *)
Definition hydrate (env : Env) (now : Z)
           (defaults : QueryInfoOptions TData TError Meta)
           (queries : gmap string Entry)
           (dehydratedState : option (list DehydratedQuery)) : gmap string Entry :=
  match dehydratedState with
  | None => queries
  | Some qs => foldl (hydrateQuery env now defaults) queries qs
  end.

End WithTypes.
Arguments BaseQuery : clear implicits.
Arguments Entry : clear implicits.
Arguments DehydratedQuery : clear implicits.
End Hydration.

(** ** observableQuery.ts — result derivation *)
Module ObservableQuery.
Import Retryer QueryInfo.

(** [boolean | 'always'] *)
Inductive RefetchValue := RefetchBool (b : bool) | RefetchAlways.

Section WithTypes.
(** [TQueryData] and [TData] stand for references to cached and to selected
    data, [SelectRef] and [PlaceholderRef] for references to the functions
    passed as [select] and [placeholderData]; on all of them decidable
    equality is [===]. *)
Context {TQueryData TData TError Meta SelectRef PlaceholderRef : Type}
        `{!EqDecision TQueryData, !EqDecision TData, !EqDecision TError,
          !EqDecision Meta, !EqDecision SelectRef, !EqDecision PlaceholderRef}.

(** How a call of the selector ends. *)
Inductive SelectOutcome := Selected (d : option TData) | SelectThrew (e : TError).

(** The behaviour of the functions behind the references. *)
Variable runSelect : SelectRef → TQueryData → SelectOutcome.
Variable runPlaceholder : PlaceholderRef → option TQueryData → option TQueryData.
(** The default structural sharing, on selected data. *)
Variable replaceEqualDeep : option TData → option TData → option TData.
(** The cast [state.data as unknown as TData] of the branch without selector. *)
Variable asData : TQueryData → TData.
(** Whether a thrown value is truthy: [if (selectError)] takes a thrown
    [''], [0], [null] or [undefined] for no error at all. *)
Variable truthy : TError → bool.

Inductive PlaceholderData :=
| PlaceholderValue (v : TQueryData)
| PlaceholderFn (f : PlaceholderRef).

#[export] Instance PlaceholderData_eq_dec : EqDecision PlaceholderData.
Proof. solve_decision. Defined.

Inductive Sharing :=
| SharingOff
| SharingFn (f : option TData → option TData → option TData).

Inductive RefetchField :=
| FieldValue (v : RefetchValue)
| FieldFn (f : QueryInfo TQueryData TError Meta → RefetchValue).

Record ObservableQueryOptions := mkOptions {
  select            : option SelectRef;
  placeholderData   : option PlaceholderData;
  structuralSharing : option Sharing;
  staleTime         : option Z;
  enabled           : option bool;
  retryOnMount      : option bool;
  refetchOnMount    : option RefetchField;
  suspense          : bool;
  optimisticResults : bool;     (* [_optimisticResults] *)
}.

Record ObservableQueryResult := mkResult {
  data              : option TData;
  error             : option (QueryError TError);
  isLoading         : bool;
  isFetching        : bool;
  isPlaceholderData : bool;
  isStale           : bool;
}.

#[export] Instance ObservableQueryResult_eq_dec : EqDecision ObservableQueryResult.
Proof. solve_decision. Defined.

(** A call of the selector: on the cached data, or on placeholder data. *)
Inductive SelectCall :=
| OnData (s : SelectRef) (d : TQueryData)
| OnPlaceholder (s : SelectRef) (d : TQueryData).

(** The closure variables of [createObservableQuery] that the derivation of
    a result reads or writes; [selectLog] records the calls of the selector
    and is not read by the code. *)
Record ObservableQuery := mkObservable {
  currentQueryInfo    : QueryInfo TQueryData TError Meta;
  currentResult       : option ObservableQueryResult;
  currentResultState  : option (QueryInfoState TQueryData TError Meta);
  currentResultOptions : option ObservableQueryOptions;
  lastQueryInfoWithDefinedData : option (QueryInfo TQueryData TError Meta);
  selectError         : option (QueryError TError);
  selectResult        : option TData;
  listeners           : nat;
  selectLog           : list SelectCall;
}.

Definition hasListeners (obs : ObservableQuery) : bool :=
  negb (Nat.eqb (listeners obs) 0).

Definition replaceSelected (prev new : option TData) (o : ObservableQueryOptions)
  : option TData :=
  match structuralSharing o with
  | Some (SharingFn f) => f prev new
  | Some SharingOff => new
  | None => replaceEqualDeep prev new
  end.

Definition isStaleFor (now : Z) (qi : QueryInfo TQueryData TError Meta)
           (o : ObservableQueryOptions) : bool :=
  isStaleByTime now qi (default 0 (staleTime o)).

Definition notFalse (b : option bool) : bool :=
  match b with Some false => false | _ => true end.

Definition shouldLoadOnMount (qi : QueryInfo TQueryData TError Meta)
           (o : ObservableQueryOptions) : bool :=
  notFalse (enabled o)
  && (dataUpdatedAt (state qi) =? 0)
  && negb (bool_decide (status (state qi) = StatusError)
           && bool_decide (retryOnMount o = Some false)).

Definition shouldFetchOn (now : Z) (qi : QueryInfo TQueryData TError Meta)
           (o : ObservableQueryOptions) (field : option RefetchField) : bool :=
  if notFalse (enabled o) then
    let value := match field with
                 | Some (FieldFn f) => Some (f qi)
                 | Some (FieldValue v) => Some v
                 | None => None
                 end in
    match value with
    | Some RefetchAlways => true
    | Some (RefetchBool false) => false
    | _ => isStaleFor now qi o
    end
  else false.

Definition shouldFetchOnMount (now : Z) (qi : QueryInfo TQueryData TError Meta)
           (o : ObservableQueryOptions) : bool :=
  shouldLoadOnMount qi o
  || ((0 <? dataUpdatedAt (state qi)) && shouldFetchOn now qi o (refetchOnMount o)).

(** Entries are compared by identity; there is one entry per hash. *)
Definition sameQueryInfo (a b : QueryInfo TQueryData TError Meta) : bool :=
  String.eqb (queryHash a) (queryHash b).

Definition shouldFetchOptionally (now : Z)
           (qi prevQi : QueryInfo TQueryData TError Meta)
           (o prevO : ObservableQueryOptions) : bool :=
  notFalse (enabled o)
  && (negb (sameQueryInfo qi prevQi) || bool_decide (enabled prevO = Some false))
  && (negb (suspense o) || negb (bool_decide (status (state qi) = StatusError)))
  && isStaleFor now qi o.

(** The local variables of [createResult] before the result is packed. *)
Record Derived := mkDerived {
  d_data              : option TData;
  d_error             : option (QueryError TError);
  d_status            : QueryStatus;
  d_fetchStatus       : FetchStatus;
  d_isPlaceholderData : bool;
}.

Definition withSelection (obs : ObservableQuery) (result : option TData)
           (err : option (QueryError TError)) (log : list SelectCall) : ObservableQuery :=
  mkObservable (currentQueryInfo obs) (currentResult obs) (currentResultState obs)
               (currentResultOptions obs) (lastQueryInfoWithDefinedData obs)
               err result (listeners obs) log.

(** The first half of [createResult]: optimistic transport state. *)
Definition optimisticStatus (env : Env) (now : Z) (obs : ObservableQuery)
           (qi : QueryInfo TQueryData TError Meta) (o : ObservableQueryOptions)
  : FetchStatus * QueryStatus :=
  let st := state qi in
  if optimisticResults o then
    let mounted := hasListeners obs in
    let fetchOnMount := negb mounted && shouldFetchOnMount now qi o in
    let fetchOptionally :=
      mounted && shouldFetchOptionally now qi (currentQueryInfo obs) o o in
    if fetchOnMount || fetchOptionally then
      (if canFetch env (QueryInfo.networkMode (QueryInfo.options qi))
       then Fetching else FetchPaused,
       if dataUpdatedAt st =? 0 then StatusPending else status st)
    else (fetchStatus st, status st)
  else (fetchStatus st, status st).

(** "Select data if needed": the data, and the observable with its memo
    updated. *)
Definition selectData (obs : ObservableQuery)
           (qi : QueryInfo TQueryData TError Meta) (o : ObservableQueryOptions)
  : option TData * ObservableQuery :=
  match select o, QueryInfo.data (state qi) with
  | Some sel, Some d =>
      if bool_decide (is_Some (currentResult obs))
         && bool_decide (Some d = currentResultState obs ≫= QueryInfo.data)
         && bool_decide (Some sel = currentResultOptions obs ≫= select)
      then (selectResult obs, obs)
      else
        let log := selectLog obs ++ [OnData sel d] in
        match runSelect sel d with
        | Selected r =>
            let r' := replaceSelected (currentResult obs ≫= data) r o in
            (r', withSelection obs r' None log)
        | SelectThrew e =>
            (None, withSelection obs (selectResult obs) (Some (Thrown e)) log)
        end
  | _, _ => (asData <$> QueryInfo.data (state qi), obs)
  end.

(** "Show placeholder data if needed": the placeholder, when there is one,
    and the observable with its memo updated. *)
Definition placeholderFor (obs : ObservableQuery) (o : ObservableQueryOptions)
           (ph : PlaceholderData) : option TData * ObservableQuery :=
  let prevResult := currentResult obs in
  if from_option isPlaceholderData false prevResult
     && bool_decide (Some ph = currentResultOptions obs ≫= placeholderData)
  then (prevResult ≫= data, obs)
  else
    let raw := match ph with
               | PlaceholderFn f =>
                   runPlaceholder f (lastQueryInfoWithDefinedData obs
                                       ≫= (λ qi, QueryInfo.data (state qi)))
               | PlaceholderValue v => Some v
               end in
    match select o, raw with
    | Some sel, Some v =>
        let log := selectLog obs ++ [OnPlaceholder sel v] in
        match runSelect sel v with
        | Selected r => (r, withSelection obs (selectResult obs) None log)
        | SelectThrew e =>
            (Some (asData v),
             withSelection obs (selectResult obs) (Some (Thrown e)) log)
        end
    | _, _ => (asData <$> raw, obs)
    end.

(** [if (selectError)] *)
Definition isTruthy (err : option (QueryError TError)) : bool :=
  match err with
  | Some (Thrown e) => truthy e
  | Some _ => true
  | None => false
  end.

Definition derive (env : Env) (now : Z) (obs : ObservableQuery)
           (qi : QueryInfo TQueryData TError Meta) (o : ObservableQueryOptions)
  : Derived * ObservableQuery :=
  let '(fetchStatus, status) := optimisticStatus env now obs qi o in
  let '(selected, obs1) := selectData obs qi o in
  let '(shown, status, isPlaceholder, obs2) :=
    match placeholderData o with
    | Some ph =>
        if bool_decide (selected = None) && bool_decide (status = StatusPending) then
          let '(placeholder, obs2) := placeholderFor obs1 o ph in
          match placeholder with
          | Some _ =>
              (replaceSelected (currentResult obs ≫= data) placeholder o,
               StatusSuccess, true, obs2)
          | None => (selected, status, false, obs2)
          end
        else (selected, status, false, obs1)
    | None => (selected, status, false, obs1)
    end in
  if isTruthy (selectError obs2)
  then (mkDerived (selectResult obs2) (selectError obs2) StatusError fetchStatus
                  isPlaceholder, obs2)
  else (mkDerived shown (QueryInfo.error (state qi)) status fetchStatus isPlaceholder,
        obs2).

(** [createResult(queryInfo, options)] *)
Definition createResult (env : Env) (now : Z) (obs : ObservableQuery)
           (qi : QueryInfo TQueryData TError Meta) (o : ObservableQueryOptions)
  : ObservableQueryResult * ObservableQuery :=
  let '(d, obs') := derive env now obs qi o in
  (mkResult (d_data d) (d_error d)
            (bool_decide (d_status d = StatusPending))
            (bool_decide (d_fetchStatus d = Fetching))
            (d_isPlaceholderData d)
            (isStaleFor now qi o),
   obs').

(** [shallowEqualObjects(next, prev)] on results. *)
Definition shallowEqualObjects (next : ObservableQueryResult)
           (prev : option ObservableQueryResult) : bool :=
  match prev with
  | None => false
  | Some prev => bool_decide (next = prev)
  end.

(** [updateResult()] with the options the observable was last given;
    notifying the listeners does not touch the variables modelled here. *)
Definition updateResult (env : Env) (now : Z) (o : ObservableQueryOptions)
           (obs : ObservableQuery) : ObservableQuery :=
  let prevResult := currentResult obs in
  let '(nextResult, obs1) := createResult env now obs (currentQueryInfo obs) o in
  let st := state (currentQueryInfo obs) in
  if shallowEqualObjects nextResult prevResult then
    mkObservable (currentQueryInfo obs1) (currentResult obs1) (Some st) (Some o)
                 (lastQueryInfoWithDefinedData obs1) (selectError obs1)
                 (selectResult obs1) (listeners obs1) (selectLog obs1)
  else
    mkObservable (currentQueryInfo obs1) (Some nextResult) (Some st) (Some o)
                 (if bool_decide (is_Some (QueryInfo.data st))
                  then Some (currentQueryInfo obs)
                  else lastQueryInfoWithDefinedData obs1)
                 (selectError obs1) (selectResult obs1) (listeners obs1)
                 (selectLog obs1).

(** [onQueryUpdate()], called by the entry after each of its transitions:
    the observable sees the entry's new value. *)
Definition onQueryUpdate (env : Env) (now : Z) (o : ObservableQueryOptions)
           (qi : QueryInfo TQueryData TError Meta)
           (obs : ObservableQuery) : ObservableQuery :=
  updateResult env now o
    (mkObservable qi (currentResult obs) (currentResultState obs)
                  (currentResultOptions obs) (lastQueryInfoWithDefinedData obs)
                  (selectError obs) (selectResult obs) (listeners obs)
                  (selectLog obs)).

(** A freshly created observable, before its first result. *)
Definition createObservableQuery (qi : QueryInfo TQueryData TError Meta) : ObservableQuery :=
  mkObservable qi None None None None None None 0 [].

End WithTypes.
Arguments SelectOutcome : clear implicits.
Arguments PlaceholderData : clear implicits.
Arguments Sharing : clear implicits.
Arguments RefetchField : clear implicits.
Arguments ObservableQueryOptions : clear implicits.
Arguments ObservableQueryResult : clear implicits.
Arguments SelectCall : clear implicits.
Arguments ObservableQuery : clear implicits.
Arguments Derived : clear implicits.
End ObservableQuery.

(** ** retryer.ts — the continuations of a settled retryer

    [Retryer.step] follows the retryer up to the settlement of its promise.
    The timers and promises created before the settlement are not cleared
    by [resolve], [reject] or [cancel]: the [then]/[catch] of an attempt, the
    [sleep] timer and the [pause] promise still run their callbacks later.
    [Pending] keeps track of that continuation whatever [isResolved] is. *)
Module RetryerTimers.
Import Retryer.

Section WithTypes.
Context {TData TError : Type}.

(** The continuation that is still to run. *)
Inductive Pending :=
| Attempt                          (* [Promise.resolve(promiseOrValue).then(resolve).catch(...)] *)
| Timer (error : TError)           (* [sleep(delay).then(...)] *)
| Pausing (pending : option TError) (* [pause()]: [continueFn] is defined *)
| NoPending.

Record State := mkTimers {
  isRetryCancelled : bool;
  failureCount     : Z;
  isResolved       : bool;
  pending          : Pending;
}.

(** [continueFn?.()] as called by [resolve] and [reject], after
    [isResolved = true]: [canContinue] holds, the [pause] promise resolves,
    and what follows it ([onContinue], [reject], [run]) is guarded by
    [isResolved] and does nothing. *)
Definition releasePause (p : Pending) : Pending :=
  match p with Pausing _ => NoPending | _ => p end.

Definition resolve (s : State) (value : TData) : State * list (Effect TData TError) :=
  if isResolved s then (s, [])
  else (mkTimers (isRetryCancelled s) (failureCount s) true (releasePause (pending s)),
        [OnSuccess value]).

Definition reject (s : State) (value : TError) : State * list (Effect TData TError) :=
  if isResolved s then (s, [])
  else (mkTimers (isRetryCancelled s) (failureCount s) true (releasePause (pending s)),
        [OnError value]).

(** [pause()]: [config.onPause?.()] is called whether or not the promise
    has settled. *)
Definition pause (s : State) (p : option TError) : State * list (Effect TData TError) :=
  (mkTimers (isRetryCancelled s) (failureCount s) (isResolved s) (Pausing p), [OnPause]).

Definition run (s : State) : State * list (Effect TData TError) :=
  if isResolved s then (s, [])
  else (mkTimers (isRetryCancelled s) (failureCount s) false Attempt, [CallFn]).

Definition afterBackoff (s : State) (error : TError) : State * list (Effect TData TError) :=
  if isRetryCancelled s then reject s error else run s.

Definition withPending (s : State) (p : Pending) : State :=
  mkTimers (isRetryCancelled s) (failureCount s) (isResolved s) p.

(** The [catch] handler of an attempt. *)
Definition onRejected (env : Env) (cfg : RetryerConfig TError)
           (s : State) (error : TError) : State * list (Effect TData TError) :=
  if isResolved s then (s, [])
  else
    let delay := delayFor cfg (failureCount s) error in
    if isRetryCancelled s || negb (shouldRetry env cfg (failureCount s) error)
    then reject s error
    else (mkTimers (isRetryCancelled s) (failureCount s + 1) false (Timer error),
          [Sleep delay]).

Definition step (env : Env) (cfg : RetryerConfig TError)
           (s : State) (ev : Event TData TError) : State * list (Effect TData TError) :=
  match ev, pending s with
  | AttemptResolved v, Attempt => resolve (withPending s NoPending) v
  | AttemptRejected e, Attempt => onRejected env cfg (withPending s NoPending) e
  | DelayElapsed, Timer e =>
      if shouldPause env cfg then pause s (Some e)
      else afterBackoff (withPending s NoPending) e
  | Continue, Pausing p =>
      if isResolved s || negb (shouldPause env cfg) then
        let s' := withPending s NoPending in
        let resumed := if isResolved s then [] else [OnContinue] in
        let '(s'', eff) :=
          match p with
          | Some e => afterBackoff s' e
          | None => run s'
          end in
        (s'', resumed ++ eff)
      else (s, [])
  | Cancel c, _ =>
      if isResolved s then (s, [])
      else let '(s', eff) := reject s c in (s', eff ++ [Abort])
  | CancelRetry, _ =>
      (mkTimers true (failureCount s) (isResolved s) (pending s), [])
  | ContinueRetry, _ =>
      (mkTimers false (failureCount s) (isResolved s) (pending s), [])
  | _, _ => (s, [])
  end.

Definition createRetryer (env : Env) (cfg : RetryerConfig TError)
  : State * list (Effect TData TError) :=
  let s0 := mkTimers false 0 false NoPending in
  if canFetch env (networkMode cfg) then run s0 else pause s0 None.

(** A run of the retryer: each event comes with the environment (online,
    focused) at the time it is handled. *)
Definition runEvents (cfg : RetryerConfig TError)
           (start : State * list (Effect TData TError))
           (evs : list (Env * Event TData TError))
  : State * list (Effect TData TError) :=
  foldl (λ acc ev, let '(s', effs) := step ev.1 cfg acc.1 ev.2 in (s', acc.2 ++ effs))
        start evs.

End WithTypes.
Arguments Pending : clear implicits.
Arguments State : clear implicits.
End RetryerTimers.

(** ** subscribable.ts *)
Module Subscribable.

Section WithTypes.
(** Listeners are function objects; a [Set] compares them by identity. *)
Context {Listener : Type} `{!EqDecision Listener}.

(** [Set.prototype.add]: a value that is present is not added again;
    iteration follows insertion order. *)
Definition setAdd (listener : Listener) (listeners : list Listener) : list Listener :=
  if bool_decide (listener ∈ listeners) then listeners else listeners ++ [listener].

(** [Set.prototype.delete] *)
Definition setDelete (listener : Listener) (listeners : list Listener) : list Listener :=
  filter (λ l, l ≠ listener) listeners.

(** The two hooks of [createSubscribable], as requests to its owner. *)
Inductive Hook := OnSubscribe | OnUnsubscribe.

(** [subscribe(listener)] *)
Definition subscribe (listeners : list Listener) (listener : Listener)
  : list Listener * list Hook :=
  (setAdd listener listeners, [OnSubscribe]).

(** The function [subscribe(listener)] returns. *)
Definition unsubscribe (listeners : list Listener) (listener : Listener)
  : list Listener * list Hook :=
  (setDelete listener listeners, [OnUnsubscribe]).

(** [hasListeners()]: [listeners.size > 0] *)
Definition hasListeners (listeners : list Listener) : bool :=
  match listeners with [] => false | _ => true end.

(** A call of [subscribe], or of a function [subscribe] returned. *)
Inductive Call := Subscribe (listener : Listener) | Unsubscribe (listener : Listener).

Definition call (acc : list Listener * list Hook) (c : Call) : list Listener * list Hook :=
  let '(listeners, hooks) :=
    match c with
    | Subscribe l => subscribe acc.1 l
    | Unsubscribe l => unsubscribe acc.1 l
    end in
  (listeners, acc.2 ++ hooks).

(** [createSubscribable()] followed by the calls. *)
Definition createSubscribable (calls : list Call) : list Listener * list Hook :=
  foldl call ([], []) calls.

End WithTypes.
End Subscribable.

(** ** focusManager.ts *)
Module FocusManager.
Import Subscribable.

Section WithTypes.
Context {Listener SetupFn : Type} `{!EqDecision Listener}.

(** Whether a setup function hands back a cleanup function (the default
    one does when there is a [window] with [addEventListener]). *)
Variable returnsCleanup : SetupFn → bool.

(** The closure variables of [createFocusManager]; [cleanup] is named
    after the setup function that returned it. *)
Record FocusManager := mkFocus {
  focused   : option bool;
  cleanup   : option SetupFn;
  setup     : SetupFn;
  listeners : list Listener;
}.

Inductive Effect :=
| CallSetup (s : SetupFn)      (* [setup(callback)] *)
| CallCleanup (s : SetupFn)    (* the cleanup function [s] returned *)
| Notify (l : Listener).       (* [listener()] *)

(** [onFocus()] *)
Definition onFocus (fm : FocusManager) : list Effect :=
  map Notify (listeners fm).

(** [setFocused(isFocused)] *)
Definition setFocused (fm : FocusManager) (isFocused : option bool)
  : FocusManager * list Effect :=
  if bool_decide (isFocused ≠ focused fm)
  then let fm' := mkFocus isFocused (cleanup fm) (setup fm) (listeners fm) in
       (fm', onFocus fm')
  else (fm, []).

(** [cleanup?.()] *)
Definition callCleanup (fm : FocusManager) : list Effect :=
  match cleanup fm with Some s => [CallCleanup s] | None => [] end.

(** [setEventListener(setupFn)] *)
Definition setEventListener (fm : FocusManager) (setupFn : SetupFn)
  : FocusManager * list Effect :=
  (mkFocus (focused fm) (if returnsCleanup setupFn then Some setupFn else None)
           setupFn (listeners fm),
   callCleanup fm ++ [CallSetup setupFn]).

(** The callback handed to the setup function. *)
Definition handler (fm : FocusManager) (value : option bool)
  : FocusManager * list Effect :=
  match value with
  | Some _ => setFocused fm value
  | None => (fm, onFocus fm)
  end.

(** [subscribe(listener)], with the [onSubscribe] hook. *)
Definition subscribe (fm : FocusManager) (listener : Listener)
  : FocusManager * list Effect :=
  let fm' := mkFocus (focused fm) (cleanup fm) (setup fm)
                     (setAdd listener (listeners fm)) in
  match cleanup fm' with
  | None => setEventListener fm' (setup fm')
  | Some _ => (fm', [])
  end.

(** The function [subscribe] returns, with the [onUnsubscribe] hook. *)
Definition unsubscribe (fm : FocusManager) (listener : Listener)
  : FocusManager * list Effect :=
  let fm' := mkFocus (focused fm) (cleanup fm) (setup fm)
                     (setDelete listener (listeners fm)) in
  if hasListeners (listeners fm') then (fm', [])
  else (mkFocus (focused fm') None (setup fm') (listeners fm'), callCleanup fm').

(** [isFocused()]; [visible] is
    [globalThis.document?.visibilityState !== 'hidden']. *)
Definition isFocused (fm : FocusManager) (visible : bool) : bool :=
  match focused fm with Some b => b | None => visible end.

Inductive Call :=
| Subscribe (l : Listener)
| Unsubscribe (l : Listener)
| SetEventListener (s : SetupFn)
| SetFocused (v : option bool)
| Handler (v : option bool).

Definition call (fm : FocusManager) (c : Call) : FocusManager * list Effect :=
  match c with
  | Subscribe l => subscribe fm l
  | Unsubscribe l => unsubscribe fm l
  | SetEventListener s => setEventListener fm s
  | SetFocused v => setFocused fm v
  | Handler v => handler fm v
  end.

Definition calls (start : FocusManager * list Effect) (cs : list Call)
  : FocusManager * list Effect :=
  foldl (λ acc c, let '(fm, effs) := call acc.1 c in (fm, acc.2 ++ effs)) start cs.

(** [createFocusManager()], with its default setup function. *)
Definition createFocusManager (defaultSetup : SetupFn) : FocusManager :=
  mkFocus None None defaultSetup [].

End WithTypes.
Arguments FocusManager : clear implicits.
Arguments Effect : clear implicits.
Arguments Call : clear implicits.
End FocusManager.

(** ** onlineManager.ts *)
Module OnlineManager.
Import Subscribable.

Section WithTypes.
Context {Listener SetupFn : Type} `{!EqDecision Listener}.
Variable returnsCleanup : SetupFn → bool.

Record OnlineManager := mkOnline {
  online    : bool;
  cleanup   : option SetupFn;
  setup     : SetupFn;
  listeners : list Listener;
}.

Inductive Effect :=
| CallSetup (s : SetupFn)
| CallCleanup (s : SetupFn)
| Notify (l : Listener) (online : bool).   (* [listener(online)] *)

(** [onOnline()] *)
Definition onOnline (om : OnlineManager) : list Effect :=
  map (λ l, Notify l (online om)) (listeners om).

(** [setOnline(isOnline)] *)
Definition setOnline (om : OnlineManager) (isOnline : bool)
  : OnlineManager * list Effect :=
  if bool_decide (isOnline ≠ online om)
  then let om' := mkOnline isOnline (cleanup om) (setup om) (listeners om) in
       (om', onOnline om')
  else (om, []).

Definition callCleanup (om : OnlineManager) : list Effect :=
  match cleanup om with Some s => [CallCleanup s] | None => [] end.

(** [setEventListener(setupFn)] *)
Definition setEventListener (om : OnlineManager) (setupFn : SetupFn)
  : OnlineManager * list Effect :=
  (mkOnline (online om) (if returnsCleanup setupFn then Some setupFn else None)
            setupFn (listeners om),
   callCleanup om ++ [CallSetup setupFn]).

(** The callback handed to the setup function. *)
Definition handler (om : OnlineManager) (value : option bool)
  : OnlineManager * list Effect :=
  match value with
  | Some b => setOnline om b
  | None => (om, onOnline om)
  end.

Definition subscribe (om : OnlineManager) (listener : Listener)
  : OnlineManager * list Effect :=
  let om' := mkOnline (online om) (cleanup om) (setup om)
                      (setAdd listener (listeners om)) in
  match cleanup om' with
  | None => setEventListener om' (setup om')
  | Some _ => (om', [])
  end.

Definition unsubscribe (om : OnlineManager) (listener : Listener)
  : OnlineManager * list Effect :=
  let om' := mkOnline (online om) (cleanup om) (setup om)
                      (setDelete listener (listeners om)) in
  if hasListeners (listeners om') then (om', [])
  else (mkOnline (online om') None (setup om') (listeners om'), callCleanup om').

(** [isOnline()]: [online] is always a boolean, so [navigator.onLine] is
    not consulted. *)
Definition isOnline (om : OnlineManager) : bool := online om.

Inductive Call :=
| Subscribe (l : Listener)
| Unsubscribe (l : Listener)
| SetEventListener (s : SetupFn)
| SetOnline (v : bool)
| Handler (v : option bool).

Definition call (om : OnlineManager) (c : Call) : OnlineManager * list Effect :=
  match c with
  | Subscribe l => subscribe om l
  | Unsubscribe l => unsubscribe om l
  | SetEventListener s => setEventListener om s
  | SetOnline v => setOnline om v
  | Handler v => handler om v
  end.

Definition calls (start : OnlineManager * list Effect) (cs : list Call)
  : OnlineManager * list Effect :=
  foldl (λ acc c, let '(om, effs) := call acc.1 c in (om, acc.2 ++ effs)) start cs.

(** [createOnlineManager()] *)
Definition createOnlineManager (defaultSetup : SetupFn) : OnlineManager :=
  mkOnline true None defaultSetup [].

End WithTypes.
Arguments OnlineManager : clear implicits.
Arguments Effect : clear implicits.
Arguments Call : clear implicits.
End OnlineManager.

(** ** gcManager.ts *)
Module GcManager.

(** A JavaScript number that is a time span: finite, or [Infinity]. *)
Inductive Span := Finite (ms : Z) | Infinity.

Definition spanMax (a b : Span) : Span :=
  match a, b with
  | Finite x, Finite y => Finite (Z.max x y)
  | _, _ => Infinity
  end.

(** [isValidTimeout]: a number that is [>= 0] and not [Infinity]; the
    argument is [undefined] before the first [updateGcTime]. *)
Definition isValidTimeout (value : option Span) : bool :=
  match value with
  | Some (Finite ms) => 0 <=? ms
  | _ => false
  end.

(** Identity of a timer started by [setTimeout]: a handle that is truthy
    (a positive number in a browser, an object in Node). *)
Definition TimerId := nat.

Record GcManager := mkGc {
  gcTime    : option Span;
  gcTimeout : option TimerId;
  nextTimer : TimerId;           (* the next identity [setTimeout] hands out *)
}.

Inductive Effect :=
| SetTimeout (id : TimerId) (delay : Z)
| ClearTimeout (id : TimerId).

(** [clearGcTimeout()] *)
Definition clearGcTimeout (gc : GcManager) : GcManager * list Effect :=
  match gcTimeout gc with
  | Some id => (mkGc (gcTime gc) None (nextTimer gc), [ClearTimeout id])
  | None => (gc, [])
  end.

(** [scheduleGc()] *)
Definition scheduleGc (gc : GcManager) : GcManager * list Effect :=
  let '(gc1, effs) := clearGcTimeout gc in
  match gcTime gc1 with
  | Some (Finite ms) =>
      if isValidTimeout (gcTime gc1)
      then (mkGc (gcTime gc1) (Some (nextTimer gc1)) (S (nextTimer gc1)),
            effs ++ [SetTimeout (nextTimer gc1) ms])
      else (gc1, effs)
  | _ => (gc1, effs)
  end.

(** [updateGcTime(newGcTime)]:
    [Math.max(gcTime || 0, newGcTime ?? (isServer ? Infinity : 5 * 60 * 1000))] *)
Definition updateGcTime (isServer : bool) (gc : GcManager) (newGcTime : option Span)
  : GcManager :=
  let current := match gcTime gc with
                 | Some (Finite 0) | None => Finite 0
                 | Some t => t
                 end in
  let requested := default (if isServer then Infinity else Finite (5 * 60 * 1000))
                           newGcTime in
  mkGc (Some (spanMax current requested)) (gcTimeout gc) (nextTimer gc).

(** The timer [id] fires: [onRemove()] is called if the timer was not
    cleared. *)
Definition fires (gc : GcManager) (id : TimerId) : bool :=
  bool_decide (gcTimeout gc = Some id).

(** [createGcManager(onRemove)] *)
Definition createGcManager : GcManager := mkGc None None 0%nat.

End GcManager.

(** ** utils.ts — partial matching

    [partialMatchKey] compares with [===], which on objects and arrays is
    identity: values carry the reference of each object and array.  An
    object is the record of its own enumerable properties, listed in
    enumeration order, with a mark for the plain ones, and an array is
    dense; [value[key]] is [undefined] for a key that is not an own
    property (keys naming a property inherited from [Object.prototype] or
    [Array.prototype], such as [constructor] or [length], are outside the
    model). *)
Module Sharing.

Definition Ref := nat.

Section Refs.
Context {number : Type}.
(** [===] on numbers: not reflexive on NaN, and true of [+0] and [-0]. *)
Variable numberEq : number → number → bool.

Inductive RValue :=
| RUndefined
| RNull
| RBool (b : bool)
| RNumber (n : number)
| RStr (s : string)
| RArray (ref : Ref) (items : list RValue)
| RObject (ref : Ref) (plain : bool) (props : list (string * RValue)).

(** [a === b] *)
Definition strictEq (a b : RValue) : bool :=
  match a, b with
  | RUndefined, RUndefined => true
  | RNull, RNull => true
  | RBool x, RBool y => bool_decide (x = y)
  | RNumber x, RNumber y => numberEq x y
  | RStr x, RStr y => String.eqb x y
  | RArray r _, RArray r' _ => Nat.eqb r r'
  | RObject r _ _, RObject r' _ _ => Nat.eqb r r'
  | _, _ => false
  end.

(** [object[key]] *)
Fixpoint propGet (props : list (string * RValue)) (key : string) : RValue :=
  match props with
  | [] => RUndefined
  | (k, v) :: rest => if String.eqb k key then v else propGet rest key
  end.

(** [array[i]] *)
Definition itemGet (items : list RValue) (i : nat) : RValue :=
  nth i items RUndefined.

(** [typeof] *)
Inductive TypeOf := TUndefined | TObject | TBoolean | TNumber | TString.

#[export] Instance TypeOf_eq_dec : EqDecision TypeOf.
Proof. solve_decision. Defined.

Definition typeOf (v : RValue) : TypeOf :=
  match v with
  | RUndefined => TUndefined
  | RNull | RArray _ _ | RObject _ _ _ => TObject
  | RBool _ => TBoolean
  | RNumber _ => TNumber
  | RStr _ => TString
  end.

(** The decimal digits of an array index. *)
Definition indexKey (i : nat) : string := pretty (N.of_nat i).

(** [a[i]] for [a] an object or an array and [i] an index of an array. *)
Definition indexGet (a : RValue) (i : nat) : RValue :=
  match a with
  | RArray _ items => itemGet items i
  | RObject _ _ props => propGet props (indexKey i)
  | _ => RUndefined
  end.

(** [a[key]] for [a] an object or an array and [key] a key of an object. *)
Definition keyGet (a : RValue) (key : string) : RValue :=
  match a with
  | RObject _ _ props => propGet props key
  | RArray _ items =>
      match Utils.arrayIndex key with
      | Some i => itemGet items (N.to_nat i)
      | None => RUndefined
      end
  | _ => RUndefined
  end.

(** [!Object.keys(b).some(key => !partialMatchKey(a[key], b[key]))], for
    [b] an array and for [b] an object; [matches] is the recursive call. *)
Section Keys.
Variable matches : RValue → RValue → bool.

Fixpoint matchItems (a : RValue) (i : nat) (bItems : list RValue) : bool :=
  match bItems with
  | [] => true
  | bi :: rest => matches (indexGet a i) bi && matchItems a (S i) rest
  end.

Fixpoint matchProps (a : RValue) (bProps : list (string * RValue)) : bool :=
  match bProps with
  | [] => true
  | p :: rest => matches (keyGet a p.1) p.2 && matchProps a rest
  end.
End Keys.

(** [partialMatchKey(a, b)] *)
Fixpoint partialMatchKey (a b : RValue) {struct b} : bool :=
  if strictEq a b then true
  else if negb (bool_decide (typeOf a = typeOf b)) then false
  else
    match b with
    | RArray _ bItems =>
        match a with
        | RArray _ _ | RObject _ _ _ => matchItems partialMatchKey a O bItems
        | _ => false
        end
    | RObject _ _ bProps =>
        match a with
        | RArray _ _ | RObject _ _ _ => matchProps partialMatchKey a bProps
        | _ => false
        end
    | _ => false
    end.

(** [isUndefined(v)] *)
Definition isUndefined (v : RValue) : bool :=
  match v with RUndefined => true | _ => false end.

(** [getFullKey(key, variables)]: a new array each time. *)
Definition getFullKey (key : string) (variables : RValue) (ref : Ref) : RValue :=
  if isUndefined variables then RArray ref [RStr key]
  else RArray ref [RStr key; variables].

End Refs.
Arguments RValue : clear implicits.
End Sharing.

(** ** utils.ts — structural sharing

    [replaceEqualDeep] reads [a[key]] and [copy[key]] through the prototype
    and calls [isPlainObject], which reads [constructor]: objects carry
    their prototype, and the built-in objects they inherit from are
    values. *)
Module StructuralSharing.

Definition Ref := nat.

(** What an object of the data inherits from: [Object.prototype] (object
    literals, [JSON.parse], [{}]) or nothing ([Object.create(null)]). *)
Inductive Prototype := ObjectPrototype | NoPrototype.

#[export] Instance Prototype_eq_dec : EqDecision Prototype.
Proof. solve_decision. Defined.

(** The built-in objects that reading a property of such an object can
    yield: [Object.prototype] itself (read as [__proto__]), [Object]
    (read as [constructor]) and the methods of [Object.prototype], each
    known by its name. *)
Inductive Builtin :=
| TheObjectPrototype
| ObjectFunction
| Method (name : string).

#[export] Instance Builtin_eq_dec : EqDecision Builtin.
Proof. solve_decision. Defined.

(** The names of the methods of [Object.prototype]. *)
Definition objectPrototypeMethods : list string :=
  ["__defineGetter__"; "__defineSetter__"; "hasOwnProperty"; "__lookupGetter__";
   "__lookupSetter__"; "isPrototypeOf"; "propertyIsEnumerable"; "toString";
   "valueOf"; "toLocaleString"]%string.

(** How a call ends: with a value, with the [TypeError] of
    [isPlainObject], or outside of what the values below express
    ([OtherCall], or [assign] giving [None]). *)
Inductive Outcome (A : Type) :=
| Returned (x : A)
| Threw
| Unmodelled.
Arguments Returned {A} x.
Arguments Threw {A}.
Arguments Unmodelled {A}.

Section Refs.
Context {number : Type}.
(** [===] on numbers: not reflexive on NaN, and true of [+0] and [-0]. *)
Variable numberEq : number → number → bool.

(** Values: primitives, dense arrays without other properties, objects
    with their prototype and their own enumerable properties in
    enumeration order, and the built-in objects above.  Arrays and
    objects have an identity, their reference. *)
Inductive Value :=
| Undefined
| Null
| Bool (b : bool)
| Number (n : number)
| Str (s : string)
| Array (ref : Ref) (items : list Value)
| Object (ref : Ref) (proto : Prototype) (props : list (string * Value))
| Host (b : Builtin).

(** [a === b] *)
Definition strictEq (a b : Value) : bool :=
  match a, b with
  | Undefined, Undefined => true
  | Null, Null => true
  | Bool x, Bool y => bool_decide (x = y)
  | Number x, Number y => numberEq x y
  | Str x, Str y => String.eqb x y
  | Array r _, Array r' _ => Nat.eqb r r'
  | Object r _ _, Object r' _ _ => Nat.eqb r r'
  | Host x, Host y => bool_decide (x = y)
  | _, _ => false
  end.

(** The value of an own property ([undefined] when there is none). *)
Fixpoint objGet (props : list (string * Value)) (key : string) : Value :=
  match props with
  | [] => Undefined
  | (k, v) :: rest => if String.eqb k key then v else objGet rest key
  end.

Definition hasKey (props : list (string * Value)) (key : string) : bool :=
  existsb (λ p, String.eqb p.1 key) props.

(** What [Object.prototype] provides under [key] to an object whose
    prototype is [receiverProto]: the getter [__proto__] returns that
    prototype, [constructor] is [Object], a method is itself. *)
Definition objectPrototypeGet (receiverProto : Value) (key : string) : Value :=
  if String.eqb key "__proto__" then receiverProto
  else if String.eqb key "constructor" then Host ObjectFunction
  else if bool_decide (key ∈ objectPrototypeMethods) then Host (Method key)
  else Undefined.

(** [a[key]] for [a] an object of the data or [Object.prototype]: the own
    property, or else what the prototype provides. *)
Definition get (a : Value) (key : string) : Value :=
  match a with
  | Object _ proto props =>
      if hasKey props key then objGet props key
      else match proto with
           | ObjectPrototype => objectPrototypeGet (Host TheObjectPrototype) key
           | NoPrototype => Undefined
           end
  | Host TheObjectPrototype => objectPrototypeGet Null key
  | _ => Undefined
  end.

(** [Object.prototype.toString.call(o) === '[object Object]'] *)
Definition hasObjectPrototype (o : Value) : bool :=
  match o with
  | Object _ _ _ | Host TheObjectPrototype => true
  | _ => false
  end.

(** How a call of [isPlainObject] ends; [OtherCall] when it calls, as
    [hasOwnProperty], another built-in function than
    [Object.prototype.hasOwnProperty]. *)
Inductive Verdict := Plain | NotPlain | TypeError | OtherCall.

(** [ctor.prototype], for [ctor] neither [undefined] nor [null]: only
    objects of the data can have such a property, and of the built-in
    functions at hand only [Object] has one. *)
Definition prototypeOf (ctor : Value) : Value :=
  match ctor with
  | Object _ _ _ => get ctor "prototype"
  | Host ObjectFunction => Host TheObjectPrototype
  | _ => Undefined
  end.

(** [prot.hasOwnProperty('isPrototypeOf')], for [prot] an object of the
    data or [Object.prototype]. *)
Definition hasOwnIsPrototypeOf (prot : Value) : Verdict :=
  match get prot "hasOwnProperty" with
  | Host (Method "hasOwnProperty") =>
      match prot with
      | Object _ _ props => if hasKey props "isPrototypeOf" then Plain else NotPlain
      | _ => Plain                     (* Object.prototype has its own *)
      end
  | Host _ => OtherCall
  | _ => TypeError                     (* not a function *)
  end.

(** [isPlainObject(o)] *)
Definition isPlainObject (o : Value) : Verdict :=
  if hasObjectPrototype o then
    match get o "constructor" with
    | Undefined => Plain               (* isUndefined(ctor) *)
    | Null => TypeError                (* null.prototype *)
    | ctor =>
        let prot := prototypeOf ctor in
        if hasObjectPrototype prot then hasOwnIsPrototypeOf prot else NotPlain
    end
  else NotPlain.

(** [Object.keys(o)] and the own properties, for [o] a plain object. *)
Definition ownProps (o : Value) : list (string * Value) :=
  match o with
  | Object _ _ props => props
  | _ => []                            (* those of Object.prototype are not enumerable *)
  end.

Fixpoint replaceValue (props : list (string * Value)) (key : string) (v : Value)
  : list (string * Value) :=
  match props with
  | [] => []
  | (k, x) :: rest =>
      if String.eqb k key then (k, v) :: rest
      else (k, x) :: replaceValue rest key v
  end.

(** An ordinary assignment creates the own property, or changes it.  The
    keys arrive in the enumeration order of [b], which is then that of
    the copy. *)
Definition setOwn (props : list (string * Value)) (key : string) (v : Value)
  : list (string * Value) :=
  if hasKey props key then replaceValue props key v else props ++ [(key, v)].

(** [copy[key] = v] for the copy [{}], given by its prototype and its own
    properties.  While the copy inherits from [Object.prototype], assigning
    to [__proto__] runs the setter: it creates no own property; it changes
    the prototype when [v] is [null] or an object and does nothing
    otherwise.  [None]: the prototype becomes another object than
    [Object.prototype], which the values above do not express. *)
Definition assign (copy : Prototype * list (string * Value)) (key : string) (v : Value)
  : option (Prototype * list (string * Value)) :=
  let '(proto, props) := copy in
  if String.eqb key "__proto__" && bool_decide (proto = ObjectPrototype) then
    match v with
    | Null => Some (NoPrototype, props)
    | Host TheObjectPrototype => Some (ObjectPrototype, props)
    | Undefined | Bool _ | Number _ | Str _ => Some (proto, props)
    | Array _ _ | Object _ _ _ | Host _ => None
    end
  else Some (proto, setOwn props key v).

(** [array[i]] *)
Definition itemGet (items : list Value) (i : nat) : Value :=
  nth i items Undefined.

(** The [for] loop of [replaceEqualDeep] over the items of [b], for arrays
    and for objects, from the state it is in: the copy, [equalItems], and
    the next free reference.  [replace] is the recursive call. *)
Section Loops.
Variable replace : Value → Value → Ref → Outcome (Value * Ref).

Fixpoint replaceItems (aItems bItems copy : list Value) (equalItems : nat) (next : Ref)
  : Outcome (list Value * nat * Ref) :=
  match bItems with
  | [] => Returned (copy, equalItems, next)
  | bi :: rest =>
      let i := length copy in
      let ai := itemGet aItems i in
      match replace ai bi next with
      | Returned (ci, next1) =>
          let copy1 := copy ++ [ci] in
          let equalItems1 :=
            if strictEq (itemGet copy1 i) ai then S equalItems else equalItems in
          replaceItems aItems rest copy1 equalItems1 next1
      | Threw => Threw
      | Unmodelled => Unmodelled
      end
  end.

Fixpoint replaceProps (a : Value) (bProps : list (string * Value))
         (ref : Ref) (copy : Prototype * list (string * Value))
         (equalItems : nat) (next : Ref)
  : Outcome (Prototype * list (string * Value) * nat * Ref) :=
  match bProps with
  | [] => Returned (copy, equalItems, next)
  | (key, bi) :: rest =>
      let ai := get a key in
      match replace ai bi next with
      | Returned (ci, next1) =>
          match assign copy key ci with
          | Some copy1 =>
              let equalItems1 :=
                if strictEq (get (Object ref copy1.1 copy1.2) key) ai
                then S equalItems else equalItems in
              replaceProps a rest ref copy1 equalItems1 next1
          | None => Unmodelled
          end
      | Threw => Threw
      | Unmodelled => Unmodelled
      end
  end.
End Loops.

(** [isPlainObject(a) && isPlainObject(b)] *)
Definition bothPlain (a b : Value) : Verdict :=
  match isPlainObject a with
  | Plain => isPlainObject b
  | verdict => verdict
  end.

(** [replaceEqualDeep(a, b)]; [next] is the first reference that is not in
    use, and the copy ([[]] or [{}]) takes it before the loop runs.
    [isPlainArray] holds of every array of the data: they are dense and
    have no other properties, so that [value.length ===
    Object.keys(value).length]. *)
Fixpoint replaceEqualDeep (a b : Value) (next : Ref) {struct b}
  : Outcome (Value * Ref) :=
  if strictEq a b then Returned (a, next)
  else
    match a, b with
    | Array _ aItems, Array _ bItems =>
        match replaceItems replaceEqualDeep aItems bItems [] O (S next) with
        | Returned (copy, equalItems, next') =>
            if Nat.eqb (length aItems) (length bItems)
               && Nat.eqb equalItems (length aItems)
            then Returned (a, next')
            else Returned (Array next copy, next')
        | Threw => Threw
        | Unmodelled => Unmodelled
        end
    | _, _ =>
        match bothPlain a b with
        | Plain =>
            match b with
            | Object _ _ bProps =>
                match replaceProps replaceEqualDeep a bProps next
                                   (ObjectPrototype, []) O (S next) with
                | Returned (copy, equalItems, next') =>
                    if Nat.eqb (length (ownProps a)) (length bProps)
                       && Nat.eqb equalItems (length (ownProps a))
                    then Returned (a, next')
                    else Returned (Object next copy.1 copy.2, next')
                | Threw => Threw
                | Unmodelled => Unmodelled
                end
            | _ =>
                (* [b] is [Object.prototype]: no key *)
                if Nat.eqb (length (ownProps a)) O
                then Returned (a, S next)
                else Returned (Object next ObjectPrototype [], S next)
            end
        | NotPlain => Returned (b, next)
        | TypeError => Threw
        | OtherCall => Unmodelled
        end
    end.

End Refs.
Arguments Value : clear implicits.
End StructuralSharing.

(** ** observableQueries.ts — matching the queries with the observers

    Options objects and observers are compared by identity: [Options] is
    the type of the defaulted options objects ([_defaulted] is set, so that
    [client.defaultQueryOptions] returns them as they are), and an observer
    carries the reference it was created with. *)
Module ObservableQueries.

Section WithTypes.
Context {Options : Type} `{!EqDecision Options}.
(** [options.queryHash] *)
Variable queryHash : Options → string.

(** An observer: its identity and [obsQuery.options.queryHash]. *)
Record Observer := mkObserver {
  observerRef  : nat;
  observerHash : string;
}.

(** [QueryObserverMatch] *)
Record Match := mkMatch {
  defaultedQueryOptions : Options;
  observableQuery       : Observer;
}.

(** [new Map(prevObsQueries.map(obsQuery => [obsQuery.options.queryHash, obsQuery]))]:
    of two observers with the same hash the later one stays. *)
Definition prevObserversMap (prevObsQueries : list Observer) : gmap string Observer :=
  foldl (λ m obsQuery, <[observerHash obsQuery := obsQuery]> m) ∅ prevObsQueries.

(** The [flatMap] that pairs the options with the observers of the map. *)
Definition matchingObservers (prevMap : gmap string Observer)
           (defaulted : list Options) : list Match :=
  flat_map (λ defaultedOptions,
              match prevMap !! queryHash defaultedOptions with
              | Some obsQuery => [mkMatch defaultedOptions obsQuery]
              | None => []
              end) defaulted.

(** [client.watchQuery(defaultedOptions)]: a new observer; [next] is the
    reference it takes. *)
Definition watchQuery (defaultedOptions : Options) (next : nat) : Observer :=
  mkObserver next (queryHash defaultedOptions).

(** [getObservableQuery(newOptions)] *)
Definition getObservableQuery (obsQueries : list Observer) (newOptions : Options)
           (next : nat) : Observer * nat :=
  match List.find (λ o, String.eqb (observerHash o) (queryHash newOptions)) obsQueries with
  | Some currentObsQuery => (currentObsQuery, next)
  | None => (watchQuery newOptions next, S next)
  end.

(** [unmatchedQueries.map(options => ...)] *)
Fixpoint newOrReusedObsQueries (obsQueries : list Observer)
         (unmatchedQueries : list Options) (next : nat) : list Match * nat :=
  match unmatchedQueries with
  | [] => ([], next)
  | options :: rest =>
      let '(obsQuery, next1) := getObservableQuery obsQueries options next in
      let '(matches, next2) := newOrReusedObsQueries obsQueries rest next1 in
      (mkMatch options obsQuery :: matches, next2)
  end.

(** [array.indexOf(x)] *)
Definition indexOf (array : list Options) (x : Options) : Z :=
  match list_find (λ y, y = x) array with
  | Some (i, _) => Z.of_nat i
  | None => -1
  end.

(** [Array.prototype.sort] with a comparator [key(a) - key(b)]: the sort is
    stable, and its result is the one of inserting the items from the last
    to the first, each before the first item whose key is not smaller. *)
Fixpoint insertMatch (key : Match → Z) (m : Match) (sorted : list Match) : list Match :=
  match sorted with
  | [] => [m]
  | x :: rest => if key m <=? key x then m :: sorted else x :: insertMatch key m rest
  end.

Definition sortMatches (key : Match → Z) (matches : list Match) : list Match :=
  foldr (insertMatch key) [] matches.

(** [findMatchingObservers(queries)], from the defaulted options of the
    queries on. *)
Definition findMatchingObservers (obsQueries : list Observer)
           (defaulted : list Options) (next : nat) : list Match * nat :=
  let matching := matchingObservers (prevObserversMap obsQueries) defaulted in
  let matchedQueryHashes := map (λ m, queryHash (defaultedQueryOptions m)) matching in
  let unmatchedQueries :=
    filter (λ defaultedOptions, queryHash defaultedOptions ∉ matchedQueryHashes)
           defaulted in
  let '(newOrReused, next') := newOrReusedObsQueries obsQueries unmatchedQueries next in
  (sortMatches (λ m, indexOf defaulted (defaultedQueryOptions m))
               (matching ++ newOrReused),
   next').

End WithTypes.
Arguments Match : clear implicits.
End ObservableQueries.

(** ** queryCache.ts — the registry of entries

    An entry is known by its identity and its [queryHash]; the store is
    the default one, a [Map], which keeps the order of insertion. *)
Module QueryCache.

(** A [QueryInfo]: its identity and [queryInfo.queryHash]. *)
Record Entry := mkEntry {
  entryRef  : nat;
  queryHash : string;
}.

#[export] Instance Entry_eq_dec : EqDecision Entry.
Proof. solve_decision. Defined.

(** What the cache itself does to the outside: [notify] with
    [type: 'added'] or [type: 'removed'], and [queryInfo.destroy()].  (The
    other notifications are sent by the entries.) *)
Inductive Event :=
| Added (queryInfo : Entry)
| Removed (queryInfo : Entry)
| Destroyed (queryInfo : Entry).

#[export] Instance Event_eq_dec : EqDecision Event.
Proof. solve_decision. Defined.

(** [Map.prototype.get] *)
Fixpoint mapGet (queries : list (string * Entry)) (queryHash : string) : option Entry :=
  match queries with
  | [] => None
  | (k, v) :: rest => if String.eqb k queryHash then Some v else mapGet rest queryHash
  end.

(** [Map.prototype.set]: a key that is present keeps its place. *)
Fixpoint mapSet (queryHash : string) (queryInfo : Entry)
         (queries : list (string * Entry)) : list (string * Entry) :=
  match queries with
  | [] => [(queryHash, queryInfo)]
  | (k, v) :: rest =>
      if String.eqb k queryHash then (k, queryInfo) :: rest
      else (k, v) :: mapSet queryHash queryInfo rest
  end.

(** [Map.prototype.delete] *)
Definition mapDelete (queryHash : string) (queries : list (string * Entry))
  : list (string * Entry) :=
  filter (λ p, p.1 ≠ queryHash) queries.

Record QueryCache := mkCache {
  queries : list (string * Entry);
  nextRef : nat;                   (* the identity of the next entry created *)
}.

(** [createQueryCache()] *)
Definition createQueryCache : QueryCache := mkCache [] 0%nat.

(** [get(queryHash)] *)
Definition get (cache : QueryCache) (queryHash : string) : option Entry :=
  mapGet (queries cache) queryHash.

(** [getAll()] *)
Definition getAll (cache : QueryCache) : list Entry :=
  map snd (queries cache).

(** [build(client, options, state)], from the hash of the options on. *)
Definition build (cache : QueryCache) (queryHash : string)
  : Entry * QueryCache * list Event :=
  match get cache queryHash with
  | Some queryInfo => (queryInfo, cache, [])
  | None =>
      let queryInfo := mkEntry (nextRef cache) queryHash in
      (queryInfo,
       mkCache (mapSet queryHash queryInfo (queries cache)) (S (nextRef cache)),
       [Added queryInfo])
  end.

(** [remove(queryInfo)] *)
Definition remove (cache : QueryCache) (queryInfo : Entry) : QueryCache * list Event :=
  match get cache (queryHash queryInfo) with
  | Some queryInfoInMap =>
      (if bool_decide (queryInfoInMap = queryInfo)
       then mkCache (mapDelete (queryHash queryInfo) (queries cache)) (nextRef cache)
       else cache,
       [Destroyed queryInfoInMap; Removed queryInfo])
  | None => (cache, [])
  end.

(** [clear()]: [getAll()] is an array of its own, taken before the first
    entry is removed. *)
Definition clear (cache : QueryCache) : QueryCache * list Event :=
  foldl (λ acc queryInfo,
           let '(cache', events) := remove acc.1 queryInfo in (cache', acc.2 ++ events))
        (cache, []) (getAll cache).

Inductive Call :=
| Build (queryHash : string)
| Remove (queryInfo : Entry)
| Clear.

Definition call (cache : QueryCache) (c : Call) : QueryCache * list Event :=
  match c with
  | Build queryHash => let out := build cache queryHash in (out.1.2, out.2)
  | Remove queryInfo => remove cache queryInfo
  | Clear => clear cache
  end.

(** A cache after the calls, with all it did. *)
Definition calls (start : QueryCache * list Event) (cs : list Call)
  : QueryCache * list Event :=
  foldl (λ acc c, let '(cache, events) := call acc.1 c in (cache, acc.2 ++ events))
        start cs.

End QueryCache.

(* ===================================================================== *)
(** * Part II — properties                                                *)
(* ===================================================================== *)

(** ** The retryer *)
Module RetryerFacts.
Import Retryer.

Section WithTypes.
Context {TData TError : Type}.
Implicit Types (cfg : RetryerConfig TError) (r : Retryer TError) (e : TError).

(** The attempt is followed by another one: the failure counter is
    incremented and the backoff timer armed. *)
Definition retriesAfter (out : Retryer TError * list (Effect TData TError))
           (n delay : Z) e : Prop :=
  out.2 = [Sleep delay] ∧ failureCount out.1 = n + 1
  ∧ phase out.1 = Sleeping e ∧ isResolved out.1 = false.

(** The retryer settles: [onError] and the promise rejection see [e]. *)
Definition rejectsWith (out : Retryer TError * list (Effect TData TError)) e : Prop :=
  out.2 = [OnError e] ∧ isResolved out.1 = true ∧ phase out.1 = Stopped.

(** The retry option allows one more attempt after [n] failures. *)
Definition retryAllows (env : Env) cfg (n : Z) e : Prop :=
  match effectiveRetry env cfg with
  | RetryBool b => b = true
  | RetryCount k => n < k
  | RetryFn f => f n e = true
  end.

(** The retryer has to pause: the window is not focused, or the device is
    offline and the network mode is not [always]. *)
Definition mustPause (env : Env) cfg : Prop :=
  isFocused env = false
  ∨ (networkMode cfg ≠ Some always ∧ isOnline env = false).

(** The policy as the specification words it: the decision depends on
    the retry option alone. *)
Definition retry_policy_as_stated (env : Env) cfg r e : Prop :=
  let n := failureCount r in
  let out := step (TData := TData) env cfg r (AttemptRejected e) in
  ((∃ delay, retriesAfter out n delay e) ↔ retryAllows env cfg n e)
  ∧ ((¬ ∃ delay, retriesAfter out n delay e) → rejectsWith out e).

Lemma shouldRetry_spec env cfg n e :
  shouldRetry env cfg n e = true ↔ retryAllows env cfg n e.
Proof.
  unfold shouldRetry, retryAllows.
  destruct (effectiveRetry env cfg); [done | | done].
  apply Z.ltb_lt.
Qed.

Lemma defaultRetryDelay_cap n : 5 ≤ n → defaultRetryDelay n = 30000.
Proof.
  intros Hn. unfold defaultRetryDelay.
  assert (2 ^ 5 ≤ 2 ^ n) by (apply Z.pow_le_mono_r; lia).
  change (2 ^ 5) with 32 in H. lia.
Qed.

Lemma defaultRetryDelay_bounds n : 0 ≤ n → 1000 ≤ defaultRetryDelay n ≤ 30000.
Proof.
  intros Hn. unfold defaultRetryDelay.
  assert (1 ≤ 2 ^ n) by (apply (Z.pow_le_mono_r 2 0 n); lia). lia.
Qed.

(** Feed a list of events, collecting the effects. *)
Definition feed (env : Env) cfg (start : Retryer TError * list (Effect TData TError))
           (evs : list (Event TData TError)) : Retryer TError * list (Effect TData TError) :=
  foldl (λ acc ev, let '(r', effs) := step env cfg acc.1 ev in (r', acc.2 ++ effs))
        start evs.

Definition isCallFn (eff : Effect TData TError) : bool :=
  match eff with CallFn => true | _ => false end.

Definition countCalls (effs : list (Effect TData TError)) : nat :=
  length (List.filter isCallFn effs).

End WithTypes.

(** The scenario of the test suite: the fetch function rejects twice and
    then resolves, with [retry = 3] and [retryDelay = 1]. *)
Example retry_twice_then_succeed :
  let env := mkEnv false true true in
  let cfg := mkConfig (Some (RetryCount 3)) (Some (DelayMs 1)) None in
  let out := feed (TData := string) (TError := string) env cfg
               (createRetryer env cfg)
               [AttemptRejected "e1"; DelayElapsed; AttemptRejected "e2";
                DelayElapsed; AttemptResolved "ok"]%string in
  out.2 = [CallFn; Sleep 1; CallFn; Sleep 1; CallFn; OnSuccess "ok"%string]
  ∧ countCalls out.2 = 3%nat
  ∧ failureCount out.1 = 2 ∧ isResolved out.1 = true.
Proof. vm_compute. done. Qed.

Definition cancelled_retry_input :
  Env * RetryerConfig string * Retryer string * string :=
  (mkEnv false true true,
   mkConfig (Some (RetryBool true)) None None,
   mkRetryer true 0 false Running,
   "network down"%string).

(** C2, as stated, fails: after [cancelRetry()] a failed attempt is not
    retried even though the retry option is [true]. *)
Lemma retry_policy_counterexample :
  let '(env, cfg, r, e) := cancelled_retry_input in
  ¬ retry_policy_as_stated (TData := string) env cfg r e.
Proof.
  simpl. intros [[_ Hretry] _].
  destruct Hretry as [delay [Heff _]]; [done |].
  vm_compute in Heff. discriminate Heff.
Qed.

Lemma shouldPause_spec {TError} (env : Env) (cfg : RetryerConfig TError) :
  shouldPause env cfg = true ↔ mustPause env cfg.
Proof.
  unfold shouldPause, mustPause.
  destruct (isFocused env), (isOnline env), (networkMode cfg) as [[| |] |];
    simpl; split; try done; try (intros _; by auto); intros [? | [? ?]]; done.
Qed.

Section Decision.
Context {TData TError : Type}.
Implicit Types (cfg : RetryerConfig TError) (r : Retryer TError) (e : TError).

(** C2 (amended): for a retryer that is not yet settled and whose attempt
    fails with [e] after [n] earlier failures, the retryer goes on to
    retry iff retries have not been cancelled ([cancelRetry]) and the retry
    option (when absent: 3, or 0 on the server) is [true], a number greater
    than [n], or a function returning true on [(n, e)].  When it does not
    retry it rejects with [e].  When it retries, the failure count becomes
    [n + 1] and the delay is [retryDelay(n, e)] for a function, the number
    itself for a number, and [min(1000 * 2^n, 30000)] when no delay is
    configured.  When the delay has elapsed the pause condition is checked:
    if the retryer should pause (window not focused, or device offline
    unless the network mode is [always]) it calls [onPause] and waits, and
    a call of [continue] is refused as long as the condition holds;
    otherwise, and when [continue] is accepted (after [onContinue]), the
    next attempt starts with the failure count unchanged, unless retries
    were cancelled in the meantime, in which case the retryer rejects with
    [e]. *)
Theorem failed_attempt_decision (env : Env) cfg r e :
  phase r = Running →
  isResolved r = false →
  let n := failureCount r in
  let out := step (TData := TData) env cfg r (AttemptRejected e) in
  let delay := match retryDelay cfg with
               | Some (DelayFn f) => f n e
               | Some (DelayMs ms) => ms
               | None => Z.min (1000 * 2 ^ n) 30000
               end in
  ((∃ d, retriesAfter out n d e)
     ↔ isRetryCancelled r = false ∧ retryAllows env cfg n e)
  ∧ ((¬ ∃ d, retriesAfter out n d e) → rejectsWith out e)
  ∧ ((∃ d, retriesAfter out n d e) → retriesAfter out n delay e)
  ∧ (∀ env' (waiting : Retryer TError),
       phase waiting = Sleeping e → isResolved waiting = false →
       let next := step (TData := TData) env' cfg waiting DelayElapsed in
       (mustPause env' cfg →
          next.2 = [OnPause] ∧ phase next.1 = Paused (Some e)
          ∧ isResolved next.1 = false
          ∧ failureCount next.1 = failureCount waiting
          ∧ isRetryCancelled next.1 = isRetryCancelled waiting)
       ∧ (¬ mustPause env' cfg →
          if isRetryCancelled waiting
          then rejectsWith next e
          else next.2 = [CallFn] ∧ phase next.1 = Running
               ∧ failureCount next.1 = failureCount waiting))
  ∧ (∀ env' (paused : Retryer TError),
       phase paused = Paused (Some e) → isResolved paused = false →
       let next := step (TData := TData) env' cfg paused Continue in
       (mustPause env' cfg → next = (paused, []))
       ∧ (¬ mustPause env' cfg →
          if isRetryCancelled paused
          then next.2 = [OnContinue; OnError e]
               ∧ isResolved next.1 = true ∧ phase next.1 = Stopped
          else next.2 = [OnContinue; CallFn] ∧ phase next.1 = Running
               ∧ failureCount next.1 = failureCount paused)).
Proof.
  intros Hphase Hres n out delay.
  assert (Hout : out = onRejected env cfg r e).
  { unfold out, step. by rewrite Hphase. }
  unfold onRejected in Hout. rewrite Hres in Hout.
  fold n in Hout.
  change (delayFor cfg n e) with delay in Hout.
  assert (Hlater : ∀ env' (waiting : Retryer TError),
             phase waiting = Sleeping e → isResolved waiting = false →
             let next := step (TData := TData) env' cfg waiting DelayElapsed in
             (mustPause env' cfg →
                next.2 = [OnPause] ∧ phase next.1 = Paused (Some e)
                ∧ isResolved next.1 = false
                ∧ failureCount next.1 = failureCount waiting
                ∧ isRetryCancelled next.1 = isRetryCancelled waiting)
             ∧ (¬ mustPause env' cfg →
                if isRetryCancelled waiting
                then rejectsWith next e
                else next.2 = [CallFn] ∧ phase next.1 = Running
                     ∧ failureCount next.1 = failureCount waiting)).
  { intros env' waiting Hph Hr. unfold step. rewrite Hph.
    pose proof (shouldPause_spec env' cfg) as Hsp.
    destruct (shouldPause env' cfg); simpl.
    - split; [by unfold pause | intros Hno; destruct Hno; by apply Hsp].
    - split; [intros Hyes; by apply Hsp in Hyes |]. intros _.
      unfold afterBackoff, reject, run. rewrite Hr.
      by destruct (isRetryCancelled waiting). }
  assert (Hresume : ∀ env' (paused : Retryer TError),
             phase paused = Paused (Some e) → isResolved paused = false →
             let next := step (TData := TData) env' cfg paused Continue in
             (mustPause env' cfg → next = (paused, []))
             ∧ (¬ mustPause env' cfg →
                if isRetryCancelled paused
                then next.2 = [OnContinue; OnError e]
                     ∧ isResolved next.1 = true ∧ phase next.1 = Stopped
                else next.2 = [OnContinue; CallFn] ∧ phase next.1 = Running
                     ∧ failureCount next.1 = failureCount paused)).
  { intros env' paused Hph Hr. unfold step. rewrite Hph, Hr.
    pose proof (shouldPause_spec env' cfg) as Hsp.
    destruct (shouldPause env' cfg); simpl.
    - split; [done | intros Hno; destruct Hno; by apply Hsp].
    - split; [intros Hyes; by apply Hsp in Hyes |]. intros _.
      unfold afterBackoff, reject, run. simpl.
      by destruct (isRetryCancelled paused). }
  destruct (isRetryCancelled r) eqn:Hc; simpl in Hout.
  - unfold reject in Hout. rewrite Hres in Hout.
    assert (Hno : ¬ ∃ d, retriesAfter out n d e).
    { intros [d [Heff _]]. rewrite Hout in Heff. discriminate Heff. }
    split_and!.
    + split; [done | intros [? _]; done].
    + intros _. rewrite Hout. by split_and!.
    + done.
    + done.
    + done.
  - destruct (shouldRetry env cfg n e) eqn:Hs; simpl in Hout.
    + assert (Hyes : retriesAfter out n delay e).
      { rewrite Hout. by split_and!. }
      split_and!.
      * split; [| by eauto].
        intros _. split; [done |]. by apply shouldRetry_spec.
      * intros Hno. destruct Hno. eauto.
      * done.
      * done.
      * done.
    + unfold reject in Hout. rewrite Hres in Hout.
      assert (Hno : ¬ ∃ d, retriesAfter out n d e).
      { intros [d [Heff _]]. rewrite Hout in Heff. discriminate Heff. }
      split_and!.
      * split; [done |]. intros [_ Ha].
        apply shouldRetry_spec in Ha. congruence.
      * intros _. rewrite Hout. by split_and!.
      * done.
      * done.
      * done.
Qed.
End Decision.

Lemma failed_attempt_decision_witness :
  let env := mkEnv false true true in
  let cfg := mkConfig (TError := string) None None None in
  let r := mkRetryer (TError := string) false 2 false Running in
  retriesAfter (step (TData := string) env cfg r (AttemptRejected "boom"%string))
               2 4000 "boom"%string.
Proof.
  intros env cfg r.
  pose proof (failed_attempt_decision (TData := string) env cfg r "boom"%string
                eq_refl eq_refl) as (Hiff & _ & Hdelay & _).
  apply Hdelay, Hiff. split; [reflexivity | vm_compute; reflexivity].
Defined.

End RetryerFacts.

(** ** The per-resource state machine *)
Module QueryInfoFacts.
Import Retryer QueryInfo.

Section WithTypes.
Context {TData TError Meta : Type} `{!EqDecision Meta}.
Variable replaceEqualDeep : option TData → option TData → option TData.

Implicit Types (qi : QueryInfo TData TError Meta) (w : World) (env : Env) (now : Z).

(** *** Small facts about the helpers *)

Lemma deliver_ContinueRetry env now qi w :
  let out := deliver replaceEqualDeep env now qi w ContinueRetry in
  out.2 = w ∧ state out.1 = state qi ∧ promise out.1 = promise qi
  ∧ revertState out.1 = revertState qi.
Proof.
  unfold deliver. destruct (retryer qi) as [r|]; [| done].
  unfold step. by destruct (phase r).
Qed.

(** [startFetch] hands out a fresh promise, snapshots the state it found,
    leaves the entry in a non-idle transport state, and invokes the fetch
    function at once exactly when the transport is reachable. *)
Lemma startFetch_post env now qi w newOptions fo :
  let out := startFetch replaceEqualDeep env now qi w newOptions fo in
  let o := default (options qi) newOptions in
  out.1.1 = nextPromise w
  ∧ promise out.1.2 = Some (nextPromise w)
  ∧ nextPromise out.2 = S (nextPromise w)
  ∧ fetchFnCalls out.2
    = (fetchFnCalls w + (if canFetch env (networkMode o) then 1 else 0))%nat
  ∧ fetchStatus (state out.1.2) ≠ Idle
  ∧ dataUpdatedAt (state out.1.2) = dataUpdatedAt (state qi)
  ∧ revertState out.1.2 = Some (state qi).
Proof.
  unfold startFetch, createRetryer, run, pause, handleEffects, retryerConfig.
  destruct newOptions as [o'|]; simpl;
    destruct (bool_decide (fetchStatus (state qi) = Idle)) eqn:Hidle; simpl;
    try destruct (metaDiffers _ _); simpl;
    match goal with
    | |- context [canFetch env ?nm] => destruct (canFetch env nm) eqn:Hcf
    end; simpl; rewrite ?Hcf; simpl;
    apply bool_decide_eq_false in Hidle || clear Hidle;
    split_and!; try done; lia.
Qed.

(** *** Deduplication of [fetch] *)

(** The retryer [startFetch] leaves behind: running when the transport is
    reachable, paused before its first attempt otherwise. *)
Lemma startFetch_retryer env now qi w newOptions fo :
  let out := startFetch replaceEqualDeep env now qi w newOptions fo in
  let o := default (options qi) newOptions in
  options out.1.2 = o
  ∧ retryer out.1.2
    = Some (mkRetryer false 0 false
              (if canFetch env (networkMode o) then Running else Paused None)).
Proof.
  unfold startFetch, createRetryer, run, pause, handleEffects, retryerConfig.
  destruct newOptions as [o'|]; simpl;
    destruct (bool_decide (fetchStatus (state qi) = Idle)); simpl;
    try destruct (metaDiffers _ _); simpl;
    match goal with
    | |- context [canFetch env ?nm] => destruct (canFetch env nm) eqn:Hcf
    end; simpl; rewrite ?Hcf; done.
Qed.

(** The second call asks for nothing that would restart the fetch. *)
Definition joinsInFlight qi (fo : option (FetchOptions Meta)) : Prop :=
  from_option cancelRefetch false fo = false ∨ dataUpdatedAt (state qi) = 0.

Lemma fetch_in_flight env now qi w newOptions fo p :
  fetchStatus (state qi) ≠ Idle →
  promise qi = Some p →
  joinsInFlight qi fo →
  fetch replaceEqualDeep env now qi w newOptions fo
  = (p, (deliver replaceEqualDeep env now qi w ContinueRetry).1, w).
Proof.
  intros Hidle Hp Hjoin. unfold fetch.
  rewrite bool_decide_eq_true_2 by done.
  assert (negb (dataUpdatedAt (state qi) =? 0)
          && from_option cancelRefetch false fo = false) as ->.
  { destruct Hjoin as [-> | ->]; [apply andb_false_r | done]. }
  by rewrite Hp.
Qed.

(** C1: while the transport state is not idle, a call to [fetch] without
    [cancelRefetch] (or with it, when no data was ever cached) returns
    the promise of the fetch in flight and neither creates a retryer nor
    invokes the fetch function; hence two successive calls on an idle
    entry share one promise — so both callers see it settle with the same
    value — and the fetch function is invoked once: by the first call when
    the transport is reachable, and otherwise when the pause ends. *)
Theorem fetch_deduplicates :
  (∀ env now qi w newOptions fo p,
      fetchStatus (state qi) ≠ Idle →
      promise qi = Some p →
      joinsInFlight qi fo →
      let out := fetch replaceEqualDeep env now qi w newOptions fo in
      out.1.1 = p ∧ out.2 = w
      ∧ state out.1.2 = state qi ∧ promise out.1.2 = Some p)
  ∧ (∀ env env' now now' qi w o1 fo1 o2 fo2,
      fetchStatus (state qi) = Idle →
      joinsInFlight qi fo2 →
      let first := fetch replaceEqualDeep env now qi w o1 fo1 in
      let second := fetch replaceEqualDeep env' now' first.1.2 first.2 o2 fo2 in
      second.1.1 = first.1.1
      ∧ second.2 = first.2
      ∧ fetchFnCalls second.2
        = (fetchFnCalls w
           + (if canFetch env (networkMode (default (options qi) o1))
              then 1 else 0))%nat)
  ∧ (∀ env env' env'' now now' now'' qi w o1 fo1 o2 fo2,
      fetchStatus (state qi) = Idle →
      joinsInFlight qi fo2 →
      let o := default (options qi) o1 in
      canFetch env (networkMode o) = false →
      shouldPause env'' (retryerConfig o) = false →
      let first := fetch replaceEqualDeep env now qi w o1 fo1 in
      let second := fetch replaceEqualDeep env' now' first.1.2 first.2 o2 fo2 in
      let resumed := deliver replaceEqualDeep env'' now'' second.1.2 second.2 Continue in
      fetchFnCalls second.2 = fetchFnCalls w
      ∧ fetchFnCalls resumed.2 = S (fetchFnCalls w)
      ∧ promise resumed.1 = Some first.1.1).
Proof.
  assert (Htwo : ∀ env env' now now' qi w o1 fo1 o2 fo2,
      fetchStatus (state qi) = Idle →
      joinsInFlight qi fo2 →
      let first := startFetch replaceEqualDeep env now qi w o1 fo1 in
      fetch replaceEqualDeep env now qi w o1 fo1 = first
      ∧ fetch replaceEqualDeep env' now' first.1.2 first.2 o2 fo2
        = (first.1.1,
           (deliver replaceEqualDeep env' now' first.1.2 first.2 ContinueRetry).1,
           first.2)).
  { intros env env' now now' qi w o1 fo1 o2 fo2 Hidle Hjoin first.
    pose proof (startFetch_post env now qi w o1 fo1)
      as (Hp1 & Hpr & _ & _ & Hbusy & Hdua & _).
    fold first in Hp1, Hpr, Hbusy, Hdua.
    split.
    - unfold fetch. by rewrite bool_decide_eq_false_2 by (rewrite Hidle; auto).
    - apply (fetch_in_flight env' now' first.1.2 first.2 o2 fo2 first.1.1);
        [done | congruence |].
      destruct Hjoin as [H | H]; [by left | right; by rewrite Hdua]. }
  split_and!.
  - intros env now qi w newOptions fo p Hidle Hp Hjoin.
    rewrite (fetch_in_flight env now qi w newOptions fo p) by done. simpl.
    pose proof (deliver_ContinueRetry env now qi w) as (_ & Hs & Hpr & _).
    simpl in Hs, Hpr. by rewrite Hs, Hpr.
  - intros env env' now now' qi w o1 fo1 o2 fo2 Hidle Hjoin.
    destruct (Htwo env env' now now' qi w o1 fo1 o2 fo2 Hidle Hjoin) as [H1 H2].
    cbv zeta in *. rewrite H1, H2.
    pose proof (startFetch_post env now qi w o1 fo1) as (_ & _ & _ & Hcalls & _).
    simpl in *. done.
  - intros env env' env'' now now' now'' qi w o1 fo1 o2 fo2 Hidle Hjoin o Hcf Hsp.
    destruct (Htwo env env' now now' qi w o1 fo1 o2 fo2 Hidle Hjoin) as [H1 H2].
    cbv zeta in H1, H2. cbv zeta. rewrite H1, H2. clear H1 H2.
    pose proof (startFetch_post env now qi w o1 fo1) as (Hp1 & Hpr & _ & Hcalls & _).
    pose proof (startFetch_retryer env now qi w o1 fo1) as (Hopt & Hretr).
    simpl in Hp1, Hpr, Hcalls, Hopt, Hretr. fold o in Hcalls, Hopt, Hretr.
    rewrite Hcf in Hcalls, Hretr. simpl.
    set (first := startFetch replaceEqualDeep env now qi w o1 fo1) in *.
    assert (Hcr : deliver replaceEqualDeep env' now' first.1.2 first.2 ContinueRetry
                  = (withRetryer first.1.2
                       (Some (mkRetryer false 0 false (Paused None))), first.2)).
    { unfold deliver. by rewrite Hretr. }
    rewrite Hcr. simpl. unfold deliver. simpl. rewrite Hopt, Hsp. simpl.
    split_and!; [lia | lia | by rewrite Hpr, Hp1].
Qed.

(** *** The error transition *)

(** What can happen to an entry between the start of a fetch and its end:
    events of its retryer, and the calls that write to its state. *)
Inductive Api :=
| ApiDeliver (now : Z) (ev : Event (option TData) (QueryError TError))
| ApiSetData (now : Z) (updater : option TData → option TData) (updatedAt : option Z)
| ApiInvalidate (now : Z).

Definition applyApi env (acc : QueryInfo TData TError Meta * World) (op : Api)
  : QueryInfo TData TError Meta * World :=
  match op with
  | ApiDeliver now ev => deliver replaceEqualDeep env now acc.1 acc.2 ev
  | ApiSetData now updater updatedAt =>
      (setDataManual replaceEqualDeep env now acc.1 updater updatedAt, acc.2)
  | ApiInvalidate now => (invalidate env now acc.1, acc.2)
  end.

Lemma handleEffects_revertState env now qi w effs :
  revertState (handleEffects replaceEqualDeep env now qi w effs).1 = revertState qi.
Proof.
  unfold handleEffects. revert qi w.
  induction effs as [| eff effs IH]; intros qi w; [done |].
  cbn [foldl].
  destruct (handleEffect replaceEqualDeep env now (qi, w) eff) as [qi' w'] eqn:Heff.
  rewrite IH.
  destruct eff as [| [d |] | e | | | |]; simpl in Heff; simplify_eq; try done.
  unfold onError. simpl. by destruct (_ && _).
Qed.

(** Only [fetch] writes the snapshot. *)
Lemma applyApi_revertState env acc op :
  revertState (applyApi env acc op).1 = revertState acc.1.
Proof.
  destruct op as [now ev | now updater updatedAt | now]; simpl; [| done |].
  - unfold deliver. destruct (retryer acc.1) as [r |]; [| done].
    destruct (step env _ r ev) as [r' effs].
    by rewrite handleEffects_revertState.
  - unfold invalidate. by destruct (isInvalidated _).
Qed.

Lemma foldl_applyApi_revertState env acc (ops : list Api) :
  revertState (foldl (applyApi env) acc ops).1 = revertState acc.1.
Proof.
  revert acc. induction ops as [| op ops IH]; intros acc; [done |].
  cbn [foldl]. by rewrite IH, applyApi_revertState.
Qed.

(** [cancel({ revert: true })] on an entry whose retryer has not settled. *)
Lemma cancel_reverts env now qi w r snapshot :
  retryer qi = Some r → isResolved r = false →
  revertState qi = Some snapshot →
  state (cancel replaceEqualDeep env now qi w (mkCancel true false)).1 = snapshot.
Proof.
  intros Hr Hres Hsnap. unfold cancel, deliver. rewrite Hr.
  assert (Hstep : step (TData := option TData) env (retryerConfig (options qi)) r
                       (Cancel (CancelledError (mkCancel true false)))
                  = (mkRetryer (isRetryCancelled r) (failureCount r) true Stopped,
                     [OnError (CancelledError (mkCancel true false)); Abort])).
  { unfold step, reject. rewrite Hres. by destruct (phase r). }
  rewrite Hstep. simpl. by rewrite Hsnap.
Qed.

(** C3: an error action carrying a CancelledError with [revert] puts the
    whole state back to the snapshot that [fetch] stored before it
    entered the fetching state — so cancelling with [revert] a fetch that
    has not settled, whatever happened to the entry since the fetch began,
    restores the state the entry had when [fetch] was called; every other
    error is recorded: [error], [errorUpdatedAt], status [error] and
    transport [idle] are written and the other fields, among them [data]
    and [dataUpdatedAt], are kept. *)
Theorem error_action_reverts_or_records :
  (∀ env now qi snapshot opts,
      revertState qi = Some snapshot →
      revert opts = true →
      state (dispatch env now qi (ErrorAction (CancelledError opts))) = snapshot)
  ∧ (∀ env now now' qi w newOptions fo (ops : list Api) r,
      let started := startFetch replaceEqualDeep env now qi w newOptions fo in
      let later := foldl (applyApi env) (started.1.2, started.2) ops in
      retryer later.1 = Some r → isResolved r = false →
      state (cancel replaceEqualDeep env now' later.1 later.2 (mkCancel true false)).1
      = state qi)
  ∧ (∀ env now qi e,
      isCancelledError e && isRevert e = false →
      state (dispatch env now qi (ErrorAction e))
      = mkState (data (state qi)) (dataUpdatedAt (state qi)) (Some e) now
                (fetchMeta (state qi)) (isInvalidated (state qi))
                StatusError Idle).
Proof.
  split_and!.
  - intros env now qi snapshot opts Hsnap Hrev.
    unfold dispatch. simpl. by rewrite Hsnap, Hrev.
  - intros env now now' qi w newOptions fo ops r started later Hr Hres.
    apply (cancel_reverts env now' later.1 later.2 r); [done | done |].
    pose proof (startFetch_post env now qi w newOptions fo) as (_ & _ & _ & _ & _ & _ & Hsnap).
    fold started in Hsnap. unfold later.
    by rewrite foldl_applyApi_revertState.
  - intros env now qi e He. unfold dispatch. simpl. by rewrite He.
Qed.

(** *** The success transition *)

(** C10: every success transition — the reducer's [success] case, reached
    when a fetch completes with data (the retryer's [onSuccess]) and when
    data is written by hand ([setData]) — leaves [isInvalidated = false] and
    [error = null]; so an entry that was invalidated is valid again after
    the next successful write. *)
Theorem success_clears_invalidation :
  (∀ env now o rs (s : QueryInfoState TData TError Meta) d u m,
      let s' := reducer env now o rs s (SuccessAction d u m) in
      isInvalidated s' = false ∧ error s' = None ∧ status s' = StatusSuccess)
  ∧ (∀ env now qi d,
      let qi' := onSuccess replaceEqualDeep env now qi (Some d) in
      isInvalidated (state qi') = false ∧ error (state qi') = None)
  ∧ (∀ env now qi w r d,
      retryer qi = Some r → phase r = Running → isResolved r = false →
      let qi' := (deliver replaceEqualDeep env now qi w (AttemptResolved (Some d))).1 in
      isInvalidated (state qi') = false ∧ error (state qi') = None
      ∧ status (state qi') = StatusSuccess ∧ fetchStatus (state qi') = Idle)
  ∧ (∀ env now qi updater updatedAt,
      let qi' := setDataManual replaceEqualDeep env now qi updater updatedAt in
      isInvalidated (state qi') = false ∧ error (state qi') = None)
  ∧ (∀ env now now' qi updater updatedAt,
      let qi' := setDataManual replaceEqualDeep env now'
                   (invalidate env now qi) updater updatedAt in
      isInvalidated (state (invalidate env now qi)) = true
      ∧ isInvalidated (state qi') = false).
Proof.
  split_and!; try done.
  - intros env now qi w r d Hr Hphase Hres. unfold deliver. rewrite Hr.
    unfold step. rewrite Hphase. unfold resolve. rewrite Hres. done.
  - intros env now now' qi updater updatedAt. simpl. split; [| done].
    unfold invalidate. by destruct (isInvalidated (state qi)) eqn:H.
Qed.

(** A fetch function that resolves with [undefined] does not cache
    anything: the entry records an error instead. *)
Lemma undefined_data_is_an_error env now qi w r :
  retryer qi = Some r → phase r = Running → isResolved r = false →
  let qi' := (deliver replaceEqualDeep env now qi w (AttemptResolved None)).1 in
  error (state qi') = Some UndefinedDataError
  ∧ status (state qi') = StatusError
  ∧ data (state qi') = data (state qi)
  ∧ isInvalidated (state qi') = isInvalidated (state qi).
Proof.
  intros Hr Hphase Hres. unfold deliver. rewrite Hr.
  unfold step. rewrite Hphase. unfold resolve. rewrite Hres. done.
Qed.

(** *** [dataUpdatedAt] and cached data *)

(** What can happen to an entry, at the level of [dispatch]: the
    snapshot [fetch] takes, any action, and [setData]. *)
Inductive Op :=
| OpSnapshot
| OpDispatch (now : Z) (a : Action TData TError Meta)
| OpSetData (now : Z) (updater : option TData → option TData)
            (updatedAt : option Z) (manual : bool).

Definition applyOp env qi (op : Op) : QueryInfo TData TError Meta :=
  match op with
  | OpSnapshot =>
      mkQueryInfo (queryHash qi) (options qi) (state qi) (Some (state qi))
                  (abortSignalConsumed qi) (retryer qi) (promise qi)
                  (isFetchingOptimistic qi)
  | OpDispatch now a => dispatch env now qi a
  | OpSetData now u t m => setData replaceEqualDeep env now qi u t m
  end.

Definition runOps env qi (ops : list Op) : QueryInfo TData TError Meta :=
  foldl (applyOp env) qi ops.

(** A success transition. *)
Definition isCachingOp (op : Op) : bool :=
  match op with
  | OpDispatch _ (SuccessAction _ _ _) | OpSetData _ _ _ _ => true
  | _ => false
  end.

(** Data was cached at some point: as initial data, or by a success
    transition. *)
Definition everCached (o : QueryInfoOptions TData TError Meta) (ops : list Op) : bool :=
  bool_decide (is_Some (initialData o)) || existsb isCachingOp ops.

Definition isSetStateOp (op : Op) : bool :=
  match op with OpDispatch _ (SetStateAction _) => true | _ => false end.

(** The timestamp a success transition writes is not zero. *)
Definition stampNonZero (op : Op) : bool :=
  match op with
  | OpDispatch now (SuccessAction _ u _) | OpSetData now _ u _ =>
      negb (default now u =? 0)
  | _ => true
  end.

Definition isRevertOp (op : Op) : bool :=
  match op with
  | OpDispatch _ (ErrorAction e) => isCancelledError e && isRevert e
  | _ => false
  end.

Definition initialStampNonZero (now0 : Z) (o : QueryInfoOptions TData TError Meta) : bool :=
  match initialData o with
  | Some _ => negb (default now0 (initialDataUpdatedAt o) =? 0)
  | None => true
  end.

(** The invariant as the specification states it. *)
Definition invariant_as_stated env now0 hash o (ops : list Op) : Prop :=
  dataUpdatedAt (state (runOps env (createQueryInfo now0 hash o None) ops)) = 0
  ↔ everCached o ops = false.

Lemma runOps_stamped env qi ops (cached : bool) :
  forallb (negb ∘ isSetStateOp) ops = true →
  (dataUpdatedAt (state qi) ≠ 0 → cached = true) →
  (∀ s, revertState qi = Some s → dataUpdatedAt s ≠ 0 → cached = true) →
  dataUpdatedAt (state (runOps env qi ops)) ≠ 0 →
  cached || existsb isCachingOp ops = true.
Proof.
  revert qi cached. induction ops as [| op ops IH]; intros qi cached Hok Hs Hr.
  - simpl. intros H. rewrite orb_false_r. auto.
  - simpl in Hok. apply andb_true_iff in Hok as [Hop Hok]. simpl.
    intros H. rewrite orb_assoc.
    apply (IH (applyOp env qi op) (cached || isCachingOp op)); [done | | | done].
    + destruct op as [| now a | now u t m]; simpl.
      * rewrite orb_false_r. done.
      * destruct a; simpl in *; rewrite ?orb_false_r, ?orb_true_r; try done.
        destruct (isCancelledError error0 && isRevert error0); [| done].
        destruct (revertState qi) as [snap|] eqn:Hsnap; simpl; [| done].
        apply (Hr snap eq_refl).
      * by rewrite orb_true_r.
    + destruct op as [| now a | now u t m]; simpl.
      * rewrite orb_false_r. intros s [= <-]. done.
      * intros s Hsnap Hne.
        destruct a; simpl in *; rewrite ?orb_false_r, ?orb_true_r; try done;
          by apply (Hr s).
      * intros. by rewrite orb_true_r.
Qed.

Lemma runOps_nonzero env qi ops (cached : bool) :
  forallb (negb ∘ isSetStateOp) ops = true →
  forallb stampNonZero ops = true →
  forallb (negb ∘ isRevertOp) ops = true →
  (dataUpdatedAt (state qi) = 0 ↔ cached = false) →
  dataUpdatedAt (state (runOps env qi ops)) = 0
  ↔ cached || existsb isCachingOp ops = false.
Proof.
  revert qi cached. induction ops as [| op ops IH]; intros qi cached Hok Hst Hnr Hinv.
  - simpl. by rewrite orb_false_r.
  - simpl in Hok, Hst, Hnr.
    apply andb_true_iff in Hok as [Hop Hok].
    apply andb_true_iff in Hst as [Hop' Hst].
    apply andb_true_iff in Hnr as [Hop'' Hnr].
    simpl. rewrite orb_assoc.
    apply IH; [done | done | done |].
    destruct op as [| now a | now u t m]; simpl in *.
    + by rewrite orb_false_r.
    + destruct a; simpl in *; rewrite ?orb_false_r, ?orb_true_r; try done.
      * apply negb_true_iff in Hop''. by rewrite Hop''.
      * apply negb_true_iff, Z.eqb_neq in Hop'. done.
    + rewrite orb_true_r. apply negb_true_iff, Z.eqb_neq in Hop'. done.
Qed.

(** C9 (amended): along every run of fetch, success, error, invalidate,
    pause, continue and [setData] steps from the default state,
    [dataUpdatedAt ≠ 0] only if data was cached (as initial data or by a
    success transition); and when every timestamp written with data is
    non-zero ([Date.now()], [updatedAt], [initialDataUpdatedAt]) and no
    error action reverts the state to a snapshot, [dataUpdatedAt = 0]
    holds iff data was never cached. *)
Theorem dataUpdatedAt_zero_iff_never_cached env now0 hash o (ops : list Op) :
  forallb (negb ∘ isSetStateOp) ops = true →
  let qi := runOps env (createQueryInfo now0 hash o None) ops in
  (dataUpdatedAt (state qi) ≠ 0 → everCached o ops = true)
  ∧ (initialStampNonZero now0 o = true →
     forallb stampNonZero ops = true →
     forallb (negb ∘ isRevertOp) ops = true →
     (dataUpdatedAt (state qi) = 0 ↔ everCached o ops = false)).
Proof.
  intros Hok qi. split.
  - apply runOps_stamped; [done | | done].
    unfold createQueryInfo, getDefaultState. simpl.
    destruct (initialData o); simpl; done.
  - intros Hinit Hst Hnr. apply runOps_nonzero; [done | done | done |].
    unfold createQueryInfo, getDefaultState, initialStampNonZero in *. simpl.
    destruct (initialData o); simpl.
    + apply negb_true_iff, Z.eqb_neq in Hinit. done.
    + done.
Qed.

End WithTypes.

(** *** Concrete entries *)

Definition keepNew : option string → option string → option string := λ _ b, b.

Definition browser : Env := mkEnv false true true.

Definition plainOptions : QueryInfoOptions string string nat :=
  mkOptions None None None None None None None.

(** An entry whose first fetch is in flight: promise 7, no data yet. *)
Definition busyEntry : QueryInfo string string nat :=
  mkQueryInfo "todos" plainOptions
    (mkState None 0 None 0 None false StatusPending Fetching)
    (Some (mkState None 0 None 0 None false StatusPending Idle))
    false (Some (mkRetryer false 0 false Running)) (Some 7%nat) false.

Lemma fetch_deduplicates_witness :
  let out := fetch keepNew browser 50 busyEntry (mkWorld 8%nat 1%nat) None
                   (Some (mkFetchOptions true None)) in
  out.1.1 = 7%nat ∧ out.2 = mkWorld 8%nat 1%nat.
Proof.
  pose proof (proj1 (fetch_deduplicates keepNew) browser 50 busyEntry (mkWorld 8%nat 1%nat)
                None (Some (mkFetchOptions true None)) 7%nat) as H.
  simpl in H. destruct H as (H1 & H2 & _).
  - discriminate.
  - reflexivity.
  - right. reflexivity.
  - split; assumption.
Defined.

Lemma error_action_reverts_or_records_witness :
  state (dispatch browser 90 busyEntry (ErrorAction (CancelledError (mkCancel true false))))
  = mkState None 0 None 0 None false StatusPending Idle.
Proof.
  apply (proj1 (error_action_reverts_or_records keepNew) browser 90 busyEntry);
    reflexivity.
Defined.

(** An invalidated entry whose refetch is in flight. *)
Definition staleEntry : QueryInfo string string nat :=
  mkQueryInfo "todos" plainOptions
    (mkState (Some "old"%string) 40 (Some (Thrown "boom"%string)) 45 None true
             StatusError Fetching)
    (Some (mkState (Some "old"%string) 40 (Some (Thrown "boom"%string)) 45 None true
                   StatusError Idle))
    false (Some (mkRetryer false 0 false Running)) (Some 3%nat) false.

Lemma success_clears_invalidation_witness :
  let qi' := (deliver keepNew browser 60 staleEntry (mkWorld 4%nat 1%nat)
                      (AttemptResolved (Some "new"%string))).1 in
  isInvalidated (state qi') = false ∧ error (state qi') = None
  ∧ status (state qi') = StatusSuccess ∧ fetchStatus (state qi') = Idle.
Proof.
  apply (proj1 (proj2 (proj2 (success_clears_invalidation keepNew)))
           browser 60 staleEntry (mkWorld 4%nat 1%nat)
           (mkRetryer false 0 false Running) "new"%string);
    reflexivity.
Defined.

(** [setData(d, { updatedAt: 0 })] on a fresh entry. *)
Definition zeroStampRun : list (Op (TData := string) (TError := string) (Meta := nat)) :=
  [OpSetData 2000 (λ _, Some "d"%string) (Some 0) true].

Example zero_stamp_state :
  state (runOps keepNew browser (createQueryInfo 1000 "todos" plainOptions None)
                zeroStampRun)
  = mkState (Some "d"%string) 0 None 0 None false StatusSuccess Idle.
Proof. reflexivity. Qed.

(** C9, as stated, fails: data written with [updatedAt = 0] is cached by a
    success transition and yet leaves [dataUpdatedAt = 0]. *)
Lemma invariant_counterexample :
  ¬ invariant_as_stated keepNew browser 1000 "todos" plainOptions zeroStampRun.
Proof.
  unfold invariant_as_stated. intros [H _].
  specialize (H eq_refl). vm_compute in H. discriminate H.
Qed.

Definition fetchedRun : list (Op (TData := string) (TError := string) (Meta := nat)) :=
  [OpSnapshot; OpDispatch 10 (FetchAction None);
   OpDispatch 20 (SuccessAction (Some "d"%string) None false)].

Lemma dataUpdatedAt_zero_iff_never_cached_witness :
  let qi := runOps keepNew browser (createQueryInfo 5 "todos" plainOptions None)
              fetchedRun in
  dataUpdatedAt (state qi) = 0 ↔ everCached plainOptions fetchedRun = false.
Proof.
  apply (dataUpdatedAt_zero_iff_never_cached keepNew browser 5 "todos"
           plainOptions fetchedRun); reflexivity.
Defined.

End QueryInfoFacts.

(** ** Key hashing *)
Module UtilsFacts.
Import Utils.

#[export] Instance keyLe_total : Total keyLe.
Proof.
  intros a b. unfold keyLe.
  destruct (String.leb_total a b) as [-> | ->]; [by left | by right].
Qed.

#[export] Instance keyLe_antisym : AntiSymm (=) keyLe.
Proof.
  intros a b Hab Hba. unfold keyLe in *.
  apply String.leb_antisym; by apply Is_true_true.
Qed.




Section Json.
Context {number : Type}.
Variable isFinite : number → bool.
Variable numberToString : number → string.
Variable quoteJSONString : string → string.

Implicit Types (v x y : Value number) (ps qs : list (string * Value number))
         (proto : Prototype).

#[local] Abbreviation ser := (serializeJSONProperty isFinite numberToString quoteJSONString).











Section Shape.
Variable E : Value number → Value number → Prop.







End Shape.



(** *** The verdict of [isPlainObject] does not depend on the order of
    the keys *)









(** *** Fuel *)


















(** *** The sorted copy *)

(** The order in which an object lists its keys: array indices first, in
    ascending numeric order, then the other keys; here the other keys
    come sorted. *)
Definition enumLe (a b : string) : Prop :=
  match arrayIndex a, arrayIndex b with
  | Some i, Some j => (i ≤ j)%N
  | Some _, None => True
  | None, Some _ => False
  | None, None => keyLe a b
  end.









(** *** The hash as the specification words it *)



(** [c] is [v] with sorted keys in every plain object: where
    [isPlainObject] accepts an object, [c] has the keys of [v] other than
    [__proto__], listed as an object lists keys that were added in sorted
    order, each with the value [v] has for it, treated in the same way;
    every other value passes through unchanged, its elements or
    properties treated in the same way. *)
Inductive withSortedKeys : Value number → Value number → Prop :=
| sorted_undefined : withSortedKeys Undefined Undefined
| sorted_null : withSortedKeys Null Null
| sorted_bool b : withSortedKeys (Bool b) (Bool b)
| sorted_number n : withSortedKeys (Number n) (Number n)
| sorted_str s : withSortedKeys (Str s) (Str s)
| sorted_array xs ys :
    Forall2 withSortedKeys xs ys → withSortedKeys (Array xs) (Array ys)
| sorted_plain proto ps qs :
    isPlainObject (Object proto ps) = Plain →
    map fst qs ≡ₚ filter (λ k, k ≠ "__proto__"%string) (map fst ps) →
    StronglySorted enumLe (map fst qs) →
    Forall (λ q, withSortedKeys (objGet ps q.1) q.2) qs →
    withSortedKeys (Object proto ps) (Object proto qs)
| sorted_other proto ps qs :
    isPlainObject (Object proto ps) = NotPlain →
    Forall2 (λ p q, p.1 = q.1 ∧ withSortedKeys p.2 q.2) ps qs →
    withSortedKeys (Object proto ps) (Object proto qs).










(** The full key of the specification: [[key]] without variables,
    [[key, variables]] with. *)
Definition fullKey (key : string) (variables : Value number) : Value number :=
  match variables with
  | Undefined => Array [Str key]
  | _ => Array [Str key; variables]
  end.



Lemma getFullKey_withSortedKeys key v c :
  withSortedKeys v c → withSortedKeys (getFullKey key v) (getFullKey key c).
Proof.
  intros Hc.
  assert (isUndefined v = isUndefined c) as Hu by (by destruct Hc).
  unfold getFullKey. rewrite Hu.
  destruct (isUndefined c); repeat constructor; done.
Qed.





End Json.

(** *** A concrete host: integers printed in decimal, strings quoted
    without escapes. *)
Definition quoteAscii (s : string) : string :=
  String "034"%char (s +:+ String "034"%char EmptyString).

Definition hashZ (fullKey : Value Z) : Ser :=
  hashKey (λ _, true) pretty quoteAscii fullKey.

Definition literal (props : list (string * Value Z)) : Value Z :=
  Object ObjectPrototype props.

Definition vars_ba : Value Z := literal [("b", Number 2); ("a", Number 1)]%string.

Example hash_ba :
  hashZ (getFullKey "todos" vars_ba)
  = Text (String.concat (String "034"%char EmptyString)
            ["["; "todos"; ",{"; "a"; ":1,"; "b"; ":2}]"])%string.
Proof. vm_compute. reflexivity. Qed.

(** Integer-like keys keep their numeric place in the copy. *)
Example hash_index_keys :
  hashZ (getFullKey "k" (literal [("b", Null); ("10", Null); ("9", Null)]))%string
  = Text (String.concat (String "034"%char EmptyString)
            ["["; "k"; ",{"; "9"; ":null,"; "10"; ":null,"; "b"; ":null}]"])%string.
Proof. vm_compute. reflexivity. Qed.

(** An own property [__proto__], as [JSON.parse] creates it, is not
    copied. *)
Example hash_drops_proto :
  hashZ (getFullKey "k" (literal [("b", Null); ("__proto__", Number 5)]))%string
  = Text (String.concat (String "034"%char EmptyString)
            ["["; "k"; ",{"; "b"; ":null}]"])%string.
Proof. vm_compute. reflexivity. Qed.

(** An object literal with an own property [constructor] that holds a
    number is no plain object for [isPlainObject]: it is printed with its
    keys as they are. *)
Example hash_own_constructor :
  hashZ (getFullKey "k" (literal [("constructor", Number 1); ("b", Null); ("a", Null)]))%string
  = Text (String.concat (String "034"%char EmptyString)
            ["["; "k"; ",{"; "constructor"; ":1,"; "b"; ":null,"; "a"; ":null}]"])%string.
Proof. vm_compute. reflexivity. Qed.



End UtilsFacts.

(** ** Mutations *)
Module MutationInfoFacts.
Import MutationInfo.

Section WithTypes.
Context {TData TVars TError : Type}.
Implicit Types (cfg : MutationInfoConfig TData TVars TError)
         (state : MutationInfoState TData TVars TError)
         (evs : list (Event TData TVars TError)).

Definition isTerminal (a : Action TData TVars TError) : bool :=
  match a with MutatingAction _ => false | _ => true end.

(** The callbacks among the events, in order. *)
Definition calls evs : list Callback :=
  omap (λ ev, match ev with Called c _ => Some c | _ => None end) evs.

(** The terminal transitions among the events. *)
Definition terminalDispatches evs : list (Action TData TVars TError) :=
  omap (λ ev, match ev with
              | Dispatched a => if isTerminal a then Some a else None
              | _ => None
              end) evs.

Definition whenSet {A} (o : option A) (c : Callback) : list Callback :=
  match o with Some _ => [c] | None => [] end.

(** The fixed order, restricted to the callbacks that are configured. *)
Definition expectedCalls cfg (settled : TData + TError) : list Callback :=
  match settled with
  | inl _ =>
      whenSet (onSuccess (cacheConfig cfg)) CacheOnSuccess
      ++ whenSet (onSuccess (options cfg)) InstanceOnSuccess
      ++ whenSet (onSettled (cacheConfig cfg)) CacheOnSettled
      ++ whenSet (onSettled (options cfg)) InstanceOnSettled
  | inr _ =>
      whenSet (onError (cacheConfig cfg)) CacheOnError
      ++ whenSet (onError (options cfg)) InstanceOnError
      ++ whenSet (onSettled (cacheConfig cfg)) CacheOnSettled
      ++ whenSet (onSettled (options cfg)) InstanceOnSettled
  end.

Definition callbacksReturn (cb : Callbacks TData TVars TError) : Prop :=
  (∀ f d v s, onSuccess cb = Some f → f d v s = Returned)
  ∧ (∀ f e v s, onError cb = Some f → f e v s = Returned)
  ∧ (∀ f d e v s, onSettled cb = Some f → f d e v s = Returned).

(** No callback throws or rejects. *)
Definition wellBehaved cfg : Prop :=
  callbacksReturn (cacheConfig cfg) ∧ callbacksReturn (options cfg).

Definition statusOf (result : TData + TError) : MutationStatus :=
  match result with inl _ => StatusSuccess | inr _ => StatusError end.

Lemma awaitAll_seen state cbs :
  Forall (λ ev, ∃ c, ev = Called c (status state)) (awaitAll state cbs).1.
Proof.
  induction cbs as [| [c [f |]] cbs IH]; simpl; [constructor | | done].
  destruct (f state); [| by repeat econstructor].
  destruct (awaitAll state cbs) as [evs thrown]. simpl in *.
  constructor; [by eexists | done].
Qed.

Lemma awaitAll_return state cbs :
  Forall (λ p, ∀ f, p.2 = Some f → f state = Returned) cbs →
  (awaitAll state cbs).2 = None
  ∧ calls (awaitAll state cbs).1
    = omap (λ p, match p.2 with Some _ => Some p.1 | None => None end) cbs.
Proof.
  induction 1 as [| [c [f |]] cbs Hf _ IH]; simpl; [done | | done].
  rewrite (Hf f eq_refl).
  destruct (awaitAll state cbs) as [evs thrown]. simpl in *.
  destruct IH as [-> ->]. done.
Qed.

Lemma calls_app evs1 evs2 : calls (evs1 ++ evs2) = calls evs1 ++ calls evs2.
Proof. apply omap_app. Qed.

Lemma terminalDispatches_app evs1 evs2 :
  terminalDispatches (evs1 ++ evs2) = terminalDispatches evs1 ++ terminalDispatches evs2.
Proof. apply omap_app. Qed.

Lemma terminalDispatches_calls state evs :
  Forall (λ ev, ∃ c, ev = Called c (status state)) evs → terminalDispatches evs = [].
Proof. induction 1 as [| ev evs [c ->] _ IH]; [done | by simpl]. Qed.

Lemma seen_calls state evs :
  Forall (λ ev, ∃ c, ev = Called c (status state)) evs →
  status state = StatusMutating →
  Forall (λ ev, ∀ c s, ev = Called c s → s = StatusMutating) evs.
Proof.
  intros H Hs. eapply Forall_impl; [exact H |].
  intros ev [c ->] c' s [= _ <-]. done.
Qed.

(** C7: when [trigger] settles, the callbacks that are configured have run
    in the order registry [onSuccess] (or [onError]), instance [onSuccess]
    (or [onError]), registry [onSettled], instance [onSettled], one after
    the other; every callback ran while the status was still [mutating];
    the terminal transition is dispatched once, after all of them, and
    only then does the promise of [trigger] settle: it resolves iff the
    final status is [success]. *)
Theorem trigger_callback_order cfg state (v : TVars) (settled : TData + TError) :
  let out := trigger cfg state v settled in
  (∃ before a,
      out.2 = before ++ [Dispatched a; Settles out.1.1]
      ∧ isTerminal a = true
      ∧ terminalDispatches before = []
      ∧ calls out.2 = calls before
      ∧ status out.1.2 = statusOf out.1.1)
  ∧ Forall (λ ev, ∀ c s, ev = Called c s → s = StatusMutating) out.2
  ∧ (wellBehaved cfg →
     calls out.2 = expectedCalls cfg settled ∧ out.1.1 = settled).
Proof.
  unfold trigger.
  set (restored := bool_decide (status state = StatusMutating)).
  set (state1 := if restored then state else reducer state (MutatingAction v)).
  set (started := (if restored then [] else [Dispatched (MutatingAction v)]) ++ [Executed v]).
  assert (Hmut : status state1 = StatusMutating).
  { unfold state1, restored. case_bool_decide; done. }
  assert (Hstarted : terminalDispatches started = []
                     ∧ calls started = []
                     ∧ Forall (λ ev, ∀ c s, ev = Called c s → s = StatusMutating) started).
  { unfold started. destruct restored; simpl; split_and!; try done;
      repeat constructor; done. }
  destruct Hstarted as (Hst1 & Hst2 & Hst3).
  assert (Hcatch : ∀ e before,
             terminalDispatches before = [] →
             Forall (λ ev, ∀ c s, ev = Called c s → s = StatusMutating) before →
             let out := onCatch cfg state1 v e before in
             (∃ before' a,
                 out.2 = before' ++ [Dispatched a; Settles out.1.1]
                 ∧ isTerminal a = true
                 ∧ terminalDispatches before' = []
                 ∧ calls out.2 = calls before'
                 ∧ status out.1.2 = statusOf out.1.1)
             ∧ Forall (λ ev, ∀ c s, ev = Called c s → s = StatusMutating) out.2).
  { intros e before Hb1 Hb2. unfold onCatch.
    pose proof (awaitAll_seen state1 (errorCallbacks cfg e v)) as Hseen.
    destruct (awaitAll state1 (errorCallbacks cfg e v)) as [evs thrown].
    simpl in *. split.
    - exists (before ++ evs), (ErrorAction e). split_and!; try done.
      + by rewrite app_assoc.
      + rewrite terminalDispatches_app, Hb1. simpl.
        by eapply terminalDispatches_calls.
      + rewrite !calls_app. simpl. by rewrite app_nil_r.
    - rewrite !Forall_app. split_and!; [done | by eapply seen_calls |].
      by repeat constructor. }
  destruct settled as [d | e].
  - pose proof (awaitAll_seen state1 (successCallbacks cfg d v)) as Hseen.
    pose proof (awaitAll_return state1 (successCallbacks cfg d v)) as Hret.
    destruct (awaitAll state1 (successCallbacks cfg d v)) as [evs thrown].
    simpl in Hseen, Hret.
    assert (Hwb : wellBehaved cfg →
                  thrown = None ∧ calls evs = expectedCalls cfg (inl d)).
    { intros [(Hs1 & _ & Ht1) (Hs2 & _ & Ht2)].
      destruct Hret as [-> ->].
      { unfold successCallbacks.
        repeat constructor; simpl; intros f Hf;
          apply fmap_Some in Hf as (g & Hg & ->); eauto. }
      split; [done |]. unfold successCallbacks. simpl.
      destruct (onSuccess (cacheConfig cfg)), (onSuccess (options cfg)),
        (onSettled (cacheConfig cfg)), (onSettled (options cfg)); done. }
    clear Hret.
    assert (Hexp : calls evs = expectedCalls cfg (inl d) →
                   calls (started ++ evs ++ [Dispatched (SuccessAction d);
                                             Settles (inl d)])
                   = expectedCalls cfg (inl d)).
    { intros H. rewrite !calls_app, Hst2, H. simpl. by rewrite app_nil_r. }
    assert (Hexp' : calls (started ++ evs ++ [Dispatched (SuccessAction d);
                                             Settles (inl d)])
                    = calls (started ++ evs)).
    { rewrite !calls_app. simpl. by rewrite app_nil_r. }
    revert Hwb Hexp. unfold expectedCalls, successCallbacks. simpl.
    destruct thrown as [e |]; intros Hwb Hexp.
    + destruct (Hcatch e (started ++ evs)) as [H1 H2].
      * rewrite terminalDispatches_app, Hst1. simpl.
        by eapply terminalDispatches_calls.
      * rewrite Forall_app. split; [done | by eapply seen_calls].
      * split_and!; [done | done |].
        intros Hw. by destruct (Hwb Hw) as [? _].
    + simpl. split_and!.
      * exists (started ++ evs), (SuccessAction d). split_and!; try done.
        -- by rewrite app_assoc.
        -- rewrite terminalDispatches_app, Hst1. simpl.
           by eapply terminalDispatches_calls.
      * rewrite !Forall_app. split_and!; [done | by eapply seen_calls |].
        by repeat constructor.
      * intros Hw. destruct (Hwb Hw) as [_ Hc]. split; [by apply Hexp | done].
  - destruct (Hcatch e started Hst1 Hst3) as [H1 H2].
    split_and!; [done | done |].
    intros [(_ & He1 & Ht1) (_ & He2 & Ht2)].
    unfold onCatch in *.
    pose proof (awaitAll_return state1 (errorCallbacks cfg e v)) as Hret.
    destruct (awaitAll state1 (errorCallbacks cfg e v)) as [evs thrown].
    simpl in *.
    destruct Hret as [-> Hc].
    { unfold errorCallbacks.
      repeat constructor; simpl; intros f Hf;
        apply fmap_Some in Hf as (g & Hg & ->); eauto. }
    split; [| done].
    rewrite !calls_app, Hst2, Hc. simpl. rewrite app_nil_r.
    unfold errorCallbacks. simpl.
    destruct (onError (cacheConfig cfg)), (onError (options cfg)),
      (onSettled (cacheConfig cfg)), (onSettled (options cfg)); done.
Qed.

End WithTypes.

(** *** A registry and an instance with every callback configured *)

Definition quiet : Callbacks string nat string :=
  mkCallbacks (Some (λ _ _ _, Returned)) (Some (λ _ _ _, Returned))
              (Some (λ _ _ _ _, Returned)).

Definition quietConfig : MutationInfoConfig string nat string := mkConfig quiet quiet.

Lemma trigger_callback_order_witness :
  let out := trigger quietConfig getDefaultState 7%nat (inl "saved"%string) in
  calls out.2 = [CacheOnSuccess; InstanceOnSuccess; CacheOnSettled; InstanceOnSettled]
  ∧ out.1.1 = inl "saved"%string.
Proof.
  apply (trigger_callback_order quietConfig getDefaultState 7%nat (inl "saved"%string)).
  repeat split; intros; simpl in *; simplify_eq; reflexivity.
Defined.

Example trigger_events_on_success :
  (trigger quietConfig getDefaultState 7%nat (inl "saved"%string)).2
  = [Dispatched (MutatingAction 7%nat); Executed 7%nat;
     Called CacheOnSuccess StatusMutating; Called InstanceOnSuccess StatusMutating;
     Called CacheOnSettled StatusMutating; Called InstanceOnSettled StatusMutating;
     Dispatched (SuccessAction "saved"%string); Settles (inl "saved"%string)].
Proof. reflexivity. Qed.

(** An instance [onSuccess] that throws: the success phase stops there, the
    error phase runs, and the error transition still comes last. *)
Example trigger_events_when_onSuccess_throws :
  let cfg := mkConfig quiet
               (mkCallbacks (Some (λ _ _ _, Threw "bad"%string))
                            (Some (λ _ _ _, Returned)) (Some (λ _ _ _ _, Returned))) in
  trigger cfg getDefaultState 7%nat (inl "saved"%string)
  = (inr "bad"%string,
     mkState None (Some "bad"%string) StatusError (Some 7%nat),
     [Dispatched (MutatingAction 7%nat); Executed 7%nat;
      Called CacheOnSuccess StatusMutating; Called InstanceOnSuccess StatusMutating;
      Called CacheOnError StatusMutating; Called InstanceOnError StatusMutating;
      Called CacheOnSettled StatusMutating; Called InstanceOnSettled StatusMutating;
      Dispatched (ErrorAction "bad"%string); Settles (inr "bad"%string)]).
Proof. reflexivity. Qed.

End MutationInfoFacts.

(** ** Infinite queries *)
Module InfiniteQueryFacts.
Import InfiniteQuery.

Section WithTypes.
Context {TPage TError : Type}.
Implicit Types (o : InfiniteQueryOptions TPage) (d result : InfiniteData TPage)
         (fetcher : Fetcher TPage TError) (run : Run).

(** *** The refetch as the specification words it *)

(** Append an item; when a maximum is set (not zero) and the list has
    grown beyond it, the first item makes room. *)
Definition appendWithin {T} (items : list T) (item : T) (max : option Z) : list T :=
  let all := items ++ [item] in
  match max with
  | Some m => if bool_decide (m ≠ 0 ∧ m < Z.of_nat (length all)) then drop 1 all else all
  | None => all
  end.

(** Fetch the page for [p] and append it, trimming to [maxPages]. *)
Definition appendPageSpec fetcher o run d (p : Z)
  : (InfiniteData TPage + Failure TError) * Run :=
  let run' := mkRun (cancelled run) (requests run ++ [Some p]) in
  match settled (fetcher (Some p) forward) with
  | inl page =>
      (inl (mkData (appendWithin (pages d) page (maxPages o))
                   (appendWithin (pageParams d) (Some p) (maxPages o))), run')
  | inr e => (inr (Rejected e), run')
  end.

(** The parameter that the last page of [d] was fetched with. *)
Definition lastPageParam d : option Z :=
  match pages d with
  | [] => None
  | _ :: before => mjoin (pageParams d !! length before)
  end.

(** The option [getNextPageParam] asked about [d]: it is given the last
    page, all pages, the parameter of the last page and all parameters. *)
Definition askNextPageParam o d : option Z :=
  getNextPageParam o (last (pages d)) (pages d) (lastPageParam d) (pageParams d).

(** Iterate forward: stop when [budget] more pages were fetched, or as soon
    as [getNextPageParam] returns null or undefined. *)
Fixpoint forwardSpec fetcher o (budget : nat) run result
  : (InfiniteData TPage + Failure TError) * Run :=
  match budget with
  | O => (inl result, run)
  | S budget =>
      match askNextPageParam o result with
      | None => (inl result, run)
      | Some p =>
          match appendPageSpec fetcher o run result p with
          | (inl result', run') => forwardSpec fetcher o budget run' result'
          | (inr f, run') => (inr f, run')
          end
      end
  end.

(** Start from the parameter of the first cached page (or the initial one)
    and go on up to the number of pages requested (or cached). *)
Definition refetchSpec fetcher o (requested : option nat)
           (old : option (InfiniteData TPage))
  : (InfiniteData TPage + Failure TError) * Run :=
  let oldPageParams := from_option pageParams [] old in
  let first := default (initialPageParam o) (mjoin (head oldPageParams)) in
  match appendPageSpec fetcher o (mkRun false []) (mkData [] []) first with
  | (inl result, run) =>
      let bound := default (length (from_option pages [] old)) requested in
      forwardSpec fetcher o (bound - 1) run result
  | (inr f, run) => (inr f, run)
  end.

(** No abort signal fires while the pages are fetched. *)
Definition neverAborted fetcher : Prop := ∀ p dir, aborted (fetcher p dir) = false.

(** [maxPages] is absent or a page count. *)
Definition validMaxPages o : Prop := 0 ≤ default 0 (maxPages o).

Lemma addToEnd_nonempty {T} (items : list T) (item : T) (max : option Z) :
  0 ≤ default 0 max → addToEnd items item max ≠ [].
Proof.
  intros Hmax. unfold addToEnd.
  destruct (negb (default 0 max =? 0) && (default 0 max <? Z.of_nat (length (items ++ [item]))))
    eqn:Hc.
  - apply andb_true_iff in Hc as [Hne Hlt].
    apply negb_true_iff, Z.eqb_neq in Hne. apply Z.ltb_lt in Hlt.
    rewrite length_app in Hlt. simpl in Hlt.
    destruct items as [| x items]; simpl in *; [lia |].
    by destruct items.
  - by destruct items.
Qed.

(** The module-level helper passes exactly these four arguments. *)
Lemma nextPageParam_asks o d : nextPageParam o d = askNextPageParam o d.
Proof.
  unfold nextPageParam, askNextPageParam, lastPageParam, atLastIndex.
  destruct (pages d) as [| page before] eqn:Hp; [done |].
  cbn [length]. do 2 f_equal.
  rewrite last_lookup. done.
Qed.

Lemma addToEnd_appendWithin {T} (items : list T) (item : T) (max : option Z) :
  addToEnd items item max = appendWithin items item max.
Proof.
  unfold addToEnd, appendWithin. destruct max as [m |]; simpl; [| done].
  case_bool_decide as Hm.
  - destruct Hm as [Hne Hlt]. apply Z.eqb_neq in Hne. apply Z.ltb_lt in Hlt.
    by rewrite Hne, Hlt.
  - destruct (Z.eqb_spec m 0) as [| Hne]; [done |]. simpl.
    destruct (Z.ltb_spec m (Z.of_nat (length (items ++ [item])))); [| done].
    by destruct Hm.
Qed.

Lemma fetchPage_append fetcher o run d (p : Z) :
  neverAborted fetcher → cancelled run = false →
  fetchPage fetcher o run d (Some p) false = appendPageSpec fetcher o run d p.
Proof.
  intros Hab Hc. unfold fetchPage, appendPageSpec.
  rewrite Hc, (Hab (Some p) forward). simpl.
  destruct (settled (fetcher (Some p) forward)); [| done].
  by rewrite !addToEnd_appendWithin.
Qed.

Lemma appendPageSpec_post fetcher o run d (p : Z) result run' :
  validMaxPages o → cancelled run = false →
  appendPageSpec fetcher o run d p = (inl result, run') →
  pages result ≠ [] ∧ cancelled run' = false.
Proof.
  intros Hmax Hc. unfold appendPageSpec.
  destruct (settled (fetcher (Some p) forward)); [| done].
  intros [= <- <-]. simpl. rewrite <- addToEnd_appendWithin.
  split; [by apply addToEnd_nonempty | done].
Qed.

(** Once [getNextPageParam] answers null, the loop of the code runs to its
    bound without fetching and without changing the data. *)
Lemma fetchRemaining_exhausted fetcher o (n : nat) run result :
  cancelled run = false → pages result ≠ [] →
  nextPageParam o result = None →
  fetchRemaining fetcher o n run result = (inl result, run).
Proof.
  intros Hc Hne Hnone. induction n as [| n IH]; [done |].
  simpl. rewrite Hnone. unfold fetchPage. rewrite Hc. simpl.
  rewrite bool_decide_eq_false_2 by done. simpl. exact IH.
Qed.

Lemma fetchRemaining_forwardSpec fetcher o (n : nat) run result :
  neverAborted fetcher → validMaxPages o →
  cancelled run = false → pages result ≠ [] →
  fetchRemaining fetcher o n run result = forwardSpec fetcher o n run result.
Proof.
  intros Hab Hmax. revert run result.
  induction n as [| n IH]; intros run result Hc Hne; [done |].
  destruct (nextPageParam o result) as [p |] eqn:Hp.
  - simpl. rewrite <- nextPageParam_asks, Hp, fetchPage_append by done.
    destruct (appendPageSpec fetcher o run result p) as [[result' | f] run'] eqn:Hstep;
      [| done].
    destruct (appendPageSpec_post _ _ _ _ _ _ _ Hmax Hc Hstep) as [Hne' Hc'].
    by apply IH.
  - rewrite fetchRemaining_exhausted by done. simpl.
    by rewrite <- nextPageParam_asks, Hp.
Qed.

(** The fetch function is invoked at most [budget] more times. *)
Lemma forwardSpec_requests fetcher o (budget : nat) run result out run' :
  forwardSpec fetcher o budget run result = (out, run') →
  (length (requests run') ≤ length (requests run) + budget)%nat.
Proof.
  revert run result. induction budget as [| budget IH]; intros run result.
  - intros [= _ <-]. lia.
  - simpl. destruct (askNextPageParam o result) as [p |]; [| intros [= _ <-]; lia].
    unfold appendPageSpec.
    destruct (settled (fetcher (Some p) forward)).
    + intros H. apply IH in H. simpl in H. rewrite length_app in H. simpl in H. lia.
    + intros [= _ <-]. simpl. rewrite length_app. simpl. lia.
Qed.

(** C8: a plain refetch (no direction requested) does what the
    specification says — it starts from the parameter of the first cached
    page, recomputes each further parameter by calling [getNextPageParam]
    with the last page, all pages, the parameter of the last page and all
    parameters fetched so far, and ends at the requested bound or at the
    first null/undefined parameter, returning the pages fetched so far,
    with at most [max 1 bound] invocations of the fetch function; and
    [hasNextPage] is a function of the options and the data alone (it is
    not given the fetch function): false without data, and otherwise
    whether [getNextPageParam], called with the same four arguments taken
    from the current data, returns neither null nor undefined. *)
Theorem plain_refetch_follows_spec fetcher o (requested : option nat)
        (old : option (InfiniteData TPage)) :
  neverAborted fetcher → validMaxPages o →
  fetchFn fetcher o requested None old = refetchSpec fetcher o requested old
  ∧ (length (requests (fetchFn fetcher o requested None old).2)
     ≤ Nat.max 1 (default (length (from_option pages [] old)) requested))%nat
  ∧ hasNextPage o None = false
  ∧ (∀ d, hasNextPage o (Some d) = true
          ↔ is_Some (getNextPageParam o (last (pages d)) (pages d)
                                      (lastPageParam d) (pageParams d))).
Proof.
  intros Hab Hmax.
  assert (Heq : fetchFn fetcher o requested None old = refetchSpec fetcher o requested old).
  { unfold fetchFn, refetchSpec. simpl.
    rewrite fetchPage_append by done.
    destruct (appendPageSpec _ _ _ _ _) as [[result | f] run] eqn:Hstep; [| done].
    apply appendPageSpec_post in Hstep as [Hne Hc]; [| done | done].
    by apply fetchRemaining_forwardSpec. }
  split_and!; [done | | done |].
  - rewrite Heq. unfold refetchSpec.
    destruct (appendPageSpec _ _ _ _ _) as [[result | f] run] eqn:Hstep.
    + destruct (forwardSpec _ _ _ _ _) as [out run'] eqn:Hfwd.
      apply forwardSpec_requests in Hfwd.
      unfold appendPageSpec in Hstep.
      destruct (settled _); simplify_eq. simpl in *. lia.
    + unfold appendPageSpec in Hstep.
      destruct (settled _); simplify_eq. simpl. lia.
  - intros d. simpl. rewrite nextPageParam_asks. apply bool_decide_eq_true.
Qed.

End WithTypes.

(** *** A paged list of three pages *)

Definition threePages : Fetcher (list nat) string :=
  λ p _, mkReply (inl [Z.to_nat (default 0 p)]) false.

(** Pages 0, 1, 2 exist; there is no page after 2. *)
Definition upToTwo : InfiniteQueryOptions (list nat) :=
  mkOptions None (λ _ _ lastParam _, match lastParam with
                                     | Some n => if n <? 2 then Some (n + 1) else None
                                     | None => None
                                     end) 0 None.

Lemma plain_refetch_follows_spec_witness :
  fetchFn threePages upToTwo (Some 5%nat) None None
  = refetchSpec threePages upToTwo (Some 5%nat) None.
Proof.
  apply (plain_refetch_follows_spec threePages upToTwo (Some 5%nat) None).
  - intros p dir. reflexivity.
  - unfold validMaxPages. simpl. lia.
Defined.

(** Five pages are requested, three are fetched: [getNextPageParam] stops
    the iteration, and [hasNextPage] is false on the result. *)
Example refetch_stops_at_last_page :
  fetchFn threePages upToTwo (Some 5%nat) None None
  = (inl (mkData [[0]; [1]; [2]]%nat [Some 0; Some 1; Some 2]),
     mkRun false [Some 0; Some 1; Some 2])
  ∧ hasNextPage upToTwo (Some (mkData [[0]; [1]; [2]]%nat [Some 0; Some 1; Some 2])) = false.
Proof. split; reflexivity. Qed.

End InfiniteQueryFacts.

(** ** Result derivation *)
Module ObservableQueryFacts.
Import Retryer QueryInfo ObservableQuery.

Section WithTypes.
Context {TQueryData TData TError Meta SelectRef PlaceholderRef : Type}
        `{!EqDecision TQueryData, !EqDecision TData, !EqDecision TError,
          !EqDecision Meta, !EqDecision SelectRef, !EqDecision PlaceholderRef}.
Variable runSelect : SelectRef → TQueryData → SelectOutcome TData TError.
Variable runPlaceholder : PlaceholderRef → option TQueryData → option TQueryData.
Variable replaceEqualDeep : option TData → option TData → option TData.
Variable asData : TQueryData → TData.
Variable truthy : TError → bool.

Implicit Types
  (obs : ObservableQuery TQueryData TData TError Meta SelectRef PlaceholderRef)
  (qi : QueryInfo TQueryData TError Meta)
  (o : ObservableQueryOptions TQueryData TData TError Meta SelectRef PlaceholderRef)
  (env : Env) (now : Z) (sel : SelectRef) (d : TQueryData).



(** The previous derivation saw the same data and the same selector. *)
Definition memoHit obs sel d : Prop :=
  is_Some (currentResult obs)
  ∧ currentResultState obs ≫= QueryInfo.data = Some d
  ∧ currentResultOptions obs ≫= select = Some sel.

#[local] Instance memoHit_dec obs sel d : Decision (memoHit obs sel d).
Proof. unfold memoHit. apply _. Defined.

















End WithTypes.

(** *** A selector that doubles, and throws on 13 *)

Definition doubling : nat → nat → SelectOutcome nat string :=
  λ _ d, if Nat.eqb d 13 then SelectThrew "unlucky"%string
         else Selected (Some (2 * d)%nat).


(** A string is truthy unless it is empty. *)
Definition nonEmpty (s : string) : bool :=
  match s with EmptyString => false | _ => true end.

Definition noPlaceholder : nat → option nat → option nat := λ _ _, None.
Definition keepSelected : option nat → option nat → option nat := λ _ b, b.

Definition entryWith (d : nat) (at_ : Z) : QueryInfo nat string nat :=
  mkQueryInfo "todos" (QueryInfo.mkOptions None None None None None None None)
    (QueryInfo.mkState (Some d) at_ None 0 None false QueryInfo.StatusSuccess Idle)
    None false None None false.

Definition selecting : ObservableQueryOptions nat nat string nat nat nat :=
  mkOptions (Some 1%nat) None None None None None None false false.

Definition update (now : Z) :=
  updateResult doubling noPlaceholder keepSelected id nonEmpty
               (mkEnv false true true) now selecting.

Definition observed : ObservableQuery nat nat string nat nat nat :=
  update 110 (createObservableQuery (entryWith 4 100)).


(** New data on which the selector throws: the result is an error that
    keeps the data selected before. *)
Example selector_throws_after_success :
  let obs := onQueryUpdate doubling noPlaceholder keepSelected id nonEmpty
               (mkEnv false true true) 130 selecting (entryWith 13 125) observed in
  currentResult obs
  = Some (mkResult (Some 8%nat) (Some (Thrown "unlucky"%string)) false false false true)
  ∧ selectLog obs = [OnData 1%nat 4%nat; OnData 1%nat 13%nat].
Proof. vm_compute. done. Qed.


End ObservableQueryFacts.

(** ** Dehydration and hydration *)
Module HydrationFacts.
Import Retryer QueryInfo Hydration.

Section WithTypes.
Context {TData TError Meta TVars : Type} `{!EqDecision Meta}.

Implicit Types (queries : gmap string (Entry TData TError Meta TVars))
         (e : Entry TData TError Meta TVars)
         (dq : DehydratedQuery TData TError Meta TVars)
         (defaults : QueryInfoOptions TData TError Meta)
         (env : Env) (now : Z) (h : string).

(** Entries are registered under their own hash, as [build] does. *)
Definition registered queries : Prop :=
  ∀ h e, queries !! h = Some e → queryHash (info e) = h.

(** The entry [hydrate] builds for a dehydrated query. *)
Definition restored now defaults dq : Entry TData TError Meta TVars :=
  mkEntry (dq_query dq) (dq_variables dq)
          (createQueryInfo now (dq_queryHash dq) (mergedOptions defaults dq)
                           (Some (idleState (dq_state dq)))).

(** The round trip as the specification states it: every entry in
    [success] state comes back with its data, idle. *)
Definition roundtrip_as_stated env now defaults queries : Prop :=
  ∀ h e, queries !! h = Some e →
    status (state (info e)) = StatusSuccess →
    ∃ e', hydrate env now defaults ∅ (Some (dehydrate queries None)) !! h = Some e'
          ∧ data (state (info e')) = data (state (info e))
          ∧ fetchStatus (state (info e')) = Idle.

Lemma hydrateQuery_other env now defaults queries dq h :
  h ≠ dq_queryHash dq → hydrateQuery env now defaults queries dq !! h = queries !! h.
Proof.
  intros Hne. unfold hydrateQuery, build.
  destruct (queries !! dq_queryHash dq) as [e |].
  - destruct (_ <? _); [by rewrite lookup_insert_ne | done].
  - by rewrite lookup_insert_ne.
Qed.

Lemma hydrate_other env now defaults queries (l : list (DehydratedQuery TData TError Meta TVars)) h :
  h ∉ map dq_queryHash l →
  foldl (hydrateQuery env now defaults) queries l !! h = queries !! h.
Proof.
  revert queries. induction l as [| dq l IH]; intros queries Hh; [done |].
  simpl in *. apply not_elem_of_cons in Hh as [Hne Hh].
  rewrite IH by done. by apply hydrateQuery_other.
Qed.

Lemma hydrateQuery_fresh env now defaults queries dq :
  queries !! dq_queryHash dq = None →
  hydrateQuery env now defaults queries dq
  = <[dq_queryHash dq := restored now defaults dq]> queries.
Proof. intros Hnone. unfold hydrateQuery, build. by rewrite Hnone. Qed.

(** Hydrating distinct hashes into a cache that holds none of them builds
    one entry per dehydrated query. *)
Lemma hydrate_fresh env now defaults queries (l : list (DehydratedQuery TData TError Meta TVars)) dq :
  NoDup (map dq_queryHash l) →
  (∀ dq', dq' ∈ l → queries !! dq_queryHash dq' = None) →
  dq ∈ l →
  foldl (hydrateQuery env now defaults) queries l !! dq_queryHash dq
  = Some (restored now defaults dq).
Proof.
  revert queries. induction l as [| dq0 l IH]; intros queries Hnd Hfresh Hin.
  - by apply elem_of_nil in Hin.
  - simpl in *. apply NoDup_cons in Hnd as [Hnotin Hnd].
    rewrite hydrateQuery_fresh by (apply Hfresh; left).
    apply elem_of_cons in Hin as [-> | Hin].
    + rewrite hydrate_other by done. by rewrite lookup_insert_eq.
    + apply IH; [done | | done].
      intros dq' Hdq'. rewrite lookup_insert_ne.
      * apply Hfresh. by right.
      * intros Heq. apply Hnotin. rewrite Heq.
        apply list_elem_of_fmap. by exists dq'.
Qed.

Lemma dehydrate_elem queries filter dq :
  dq ∈ dehydrate queries filter →
  ∃ e, e ∈ getAll queries ∧ dq = dehydrateQuery e.
Proof.
  unfold dehydrate. intros Hin.
  apply list_elem_of_In, in_flat_map in Hin as (e & He & Hdq).
  exists e. split; [by apply list_elem_of_In |].
  destruct (_ && _); simpl in Hdq; [| done]. by destruct Hdq.
Qed.

Lemma dehydrate_NoDup (es : list (Entry TData TError Meta TVars))
      (f : Entry TData TError Meta TVars → bool) :
  NoDup (map (λ e, queryHash (info e)) es) →
  NoDup (map dq_queryHash
             (flat_map (λ e, if f e then [dehydrateQuery e] else []) es)).
Proof.
  induction es as [| e es IH]; simpl; intros Hnd; [constructor |].
  apply NoDup_cons in Hnd as [Hnotin Hnd].
  destruct (f e); simpl; [| by apply IH].
  apply NoDup_cons. split; [| by apply IH].
  intros Hin. apply Hnotin.
  apply list_elem_of_fmap in Hin as (dq & Hh & Hdq).
  apply list_elem_of_In, in_flat_map in Hdq as (e' & He' & Hdq).
  destruct (f e'); simpl in Hdq; [| done]. destruct Hdq as [<- | []].
  apply list_elem_of_fmap. exists e'. split; [done | by apply list_elem_of_In].
Qed.

Lemma getAll_hashes queries :
  registered queries →
  map (λ e, queryHash (info e)) (getAll queries) = (map_to_list queries).*1.
Proof.
  intros Hreg. unfold getAll.
  assert (H : ∀ p, p ∈ map_to_list queries → queryHash (info p.2) = p.1).
  { intros [h e] Hp. apply elem_of_map_to_list in Hp. by apply Hreg. }
  induction (map_to_list queries) as [| p l IH]; [done |].
  simpl. rewrite H by left. f_equal. apply IH. intros q Hq. apply H. by right.
Qed.

(** C5 (amended): after [dehydrate] and [hydrate] into an empty cache, every
    entry that was in [success] state and whose key is not a generated one
    is present under its hash with the state it had, except that its
    transport state is [idle]; and when a dehydrated query meets a live
    entry, the live entry is left as it is exactly when its
    [dataUpdatedAt] is not older than the dehydrated one (newer or equal),
    and is otherwise overwritten with the dehydrated state, made idle;
    without a live entry one is built from the dehydrated state, made
    idle. *)
Theorem hydrate_roundtrip env now defaults queries :
  registered queries →
  (∀ h e, queries !! h = Some e →
     status (state (info e)) = StatusSuccess →
     isGeneratedKey (key (query e)) = false →
     ∃ e', hydrate env now defaults ∅ (Some (dehydrate queries None)) !! h = Some e'
           ∧ state (info e') = idleState (state (info e))
           ∧ data (state (info e')) = data (state (info e))
           ∧ fetchStatus (state (info e')) = Idle)
  ∧ (∀ dq live, queries !! dq_queryHash dq = Some live →
       (dataUpdatedAt (dq_state dq) ≤ dataUpdatedAt (state (info live)) →
          hydrateQuery env now defaults queries dq = queries)
       ∧ (dataUpdatedAt (state (info live)) < dataUpdatedAt (dq_state dq) →
          ∃ e', hydrateQuery env now defaults queries dq !! dq_queryHash dq = Some e'
                ∧ state (info e') = idleState (dq_state dq)))
  ∧ (∀ dq, queries !! dq_queryHash dq = None →
       ∃ e', hydrateQuery env now defaults queries dq !! dq_queryHash dq = Some e'
             ∧ state (info e') = idleState (dq_state dq)).
Proof.
  intros Hreg. split_and!.
  - intros h e Hlook Hsucc Hkey.
    set (dq := dehydrateQuery e).
    assert (Hh : dq_queryHash dq = h) by (by apply Hreg).
    assert (Hin : dq ∈ dehydrate queries None).
    { unfold dehydrate. apply list_elem_of_In, in_flat_map.
      exists e. split.
      - apply list_elem_of_In. unfold getAll.
        apply list_elem_of_fmap. exists (h, e).
        split; [done | by apply elem_of_map_to_list].
      - simpl. unfold defaultShouldDehydrateQuery.
        rewrite Hkey, bool_decide_eq_true_2 by done. by left. }
    exists (restored now defaults dq). split_and!; try done.
    rewrite <- Hh. unfold hydrate.
    apply (hydrate_fresh env now defaults ∅ (dehydrate queries None) dq); [| done | done].
    unfold dehydrate. apply dehydrate_NoDup.
    rewrite getAll_hashes by done. apply NoDup_fst_map_to_list.
  - intros dq live Hlive. unfold hydrateQuery. rewrite Hlive. simpl. split.
    + intros Hle. by rewrite (proj2 (Z.ltb_ge _ _) Hle).
    + intros Hlt. rewrite (proj2 (Z.ltb_lt _ _) Hlt).
      eexists. by rewrite lookup_insert_eq.
  - intros dq Hnone. rewrite hydrateQuery_fresh by done.
    eexists. by rewrite lookup_insert_eq.
Qed.

End WithTypes.

(** *** Concrete caches *)

Definition successAt (d : string) (at_ : Z) : QueryInfoState string string nat :=
  mkState (Some d) at_ None 0 None false StatusSuccess Fetching.

Definition entryFor (key hash d : string) (at_ : Z) : Entry string string nat nat :=
  mkEntry (mkQuery key false) None
          (mkQueryInfo hash (mkOptions None None None None None None None)
                       (successAt d at_) None false None None false).

(** One entry with a key of the developer, one with a generated key. *)
Definition twoEntries : gmap string (Entry string string nat nat) :=
  <["todos" := entryFor "todos" "todos" "a" 10]>
    (<["$q$1" := entryFor "$q$1" "$q$1" "b" 20]> ∅).

Definition noDefaults : QueryInfoOptions string string nat :=
  mkOptions None None None None None None None.

(** C5, as stated, fails: an entry in [success] state whose key was
    generated is not dehydrated, and is absent after the round trip. *)
Lemma roundtrip_counterexample :
  ¬ roundtrip_as_stated (mkEnv false true true) 0 noDefaults twoEntries.
Proof.
  intros H.
  destruct (H "$q$1"%string (entryFor "$q$1" "$q$1" "b" 20)) as (e' & Hlook & _).
  - reflexivity.
  - reflexivity.
  - vm_compute in Hlook. discriminate Hlook.
Qed.

Lemma hydrate_roundtrip_witness :
  ∃ e', hydrate (mkEnv false true true) 0 noDefaults ∅
                (Some (dehydrate twoEntries None)) !! "todos"%string = Some e'
        ∧ state (info e') = idleState (successAt "a" 10)
        ∧ data (state (info e')) = Some "a"%string
        ∧ fetchStatus (state (info e')) = Idle.
Proof.
  apply (proj1 (hydrate_roundtrip (mkEnv false true true) 0 noDefaults twoEntries
                  ltac:(intros h e; unfold twoEntries;
                        rewrite !lookup_insert; repeat case_decide;
                        intros; simplify_eq; done))
               "todos"%string (entryFor "todos" "todos" "a" 10));
    reflexivity.
Defined.

(** A dehydrated query as old as the live entry is skipped as well. *)
Example hydrate_skips_equal_timestamps :
  let dq := mkDehydrated (mkQuery "todos" false) "todos" (successAt "stale" 10) None None in
  hydrateQuery (mkEnv false true true) 0 noDefaults twoEntries dq = twoEntries.
Proof. reflexivity. Qed.

End HydrationFacts.

(** ** The retryer over whole runs *)
Module RetryerTimersFacts.
Import Retryer RetryerTimers.

Section WithTypes.
Context {TData TError : Type}.
Implicit Types (cfg : RetryerConfig TError) (s : State TError)
         (effs : list (Effect TData TError)) (env : Env).

Definition isSettle (eff : Effect TData TError) : bool :=
  match eff with OnSuccess _ | OnError _ => true | _ => false end.

Definition isCall (eff : Effect TData TError) : bool :=
  match eff with CallFn => true | _ => false end.

(** What follows the first settlement in a trace. *)
Fixpoint afterSettle effs : list (Effect TData TError) :=
  match effs with
  | [] => []
  | eff :: rest => if isSettle eff then rest else afterSettle rest
  end.

(** All that a settled retryer still does. *)
Definition quiet (eff : Effect TData TError) : Prop := eff = Abort ∨ eff = OnPause.

Lemma afterSettle_app effs more :
  afterSettle (effs ++ more)
  = if existsb isSettle effs then afterSettle effs ++ more else afterSettle more.
Proof.
  induction effs as [| eff effs IH]; [done |].
  simpl. destruct (isSettle eff); [done | apply IH].
Qed.

(** [Retryer.step] and [step] agree as long as the promise is pending. *)
Definition forget s : Retryer TError :=
  mkRetryer (isRetryCancelled s) (failureCount s) (isResolved s)
            (if isResolved s then Stopped
             else match pending s with
                  | Attempt => Running
                  | Timer e => Sleeping e
                  | Pausing p => Paused p
                  | NoPending => Stopped
                  end).

Lemma step_forget env cfg s (ev : Event TData TError) :
  isResolved s = false →
  Retryer.step env cfg (forget s) ev = (forget (step env cfg s ev).1, (step env cfg s ev).2).
Proof.
  intros Hres. destruct s as [c n res p]. simpl in Hres. subst res.
  unfold Retryer.step, step, forget. simpl.
  destruct ev, p; simpl; try done;
    unfold Retryer.onRejected, onRejected, Retryer.afterBackoff, afterBackoff,
      Retryer.reject, reject, Retryer.run, run, Retryer.pause, pause,
      Retryer.resolve, resolve; simpl;
    repeat match goal with
           | |- context [if ?b then _ else _] => destruct b eqn:?; simpl
           | |- context [match ?o with Some _ => _ | None => _ end] =>
               destruct o eqn:?; simpl
           end; try done.
Qed.

(** One step of a retryer whose promise is pending: either it stays
    pending and settles nothing, or it settles once, and then only calls
    [abort]. *)
Lemma step_pending env cfg s (ev : Event TData TError) :
  isResolved s = false →
  let out := step env cfg s ev in
  (isResolved out.1 = false ∧ existsb isSettle out.2 = false)
  ∨ (isResolved out.1 = true ∧ existsb isSettle out.2 = true
     ∧ Forall quiet (afterSettle out.2)).
Proof.
  intros Hres. destruct s as [c n res p]. simpl in Hres. subst res.
  unfold step. simpl.
  destruct ev, p; simpl;
    unfold onRejected, afterBackoff, reject, run, pause, resolve; simpl;
    repeat match goal with
           | |- context [if ?b then _ else _] => destruct b eqn:?; simpl
           | |- context [match ?o with Some _ => _ | None => _ end] =>
               destruct o eqn:?; simpl
           end;
    try (by left);
    right; split_and!; try done; repeat constructor; by left.
Qed.

(** One step of a settled retryer: it stays settled, and the only callback
    it can still call is [onPause]. *)
Lemma step_settled env cfg s (ev : Event TData TError) :
  isResolved s = true →
  let out := step env cfg s ev in
  isResolved out.1 = true ∧ Forall quiet out.2 ∧ existsb isSettle out.2 = false.
Proof.
  intros Hres. destruct s as [c n res p]. simpl in Hres. subst res.
  unfold step. simpl.
  destruct ev, p; simpl;
    unfold onRejected, afterBackoff, reject, run, pause, resolve; simpl;
    repeat match goal with
           | |- context [if ?b then _ else _] => destruct b eqn:?; simpl
           | |- context [match ?o with Some _ => _ | None => _ end] =>
               destruct o eqn:?; simpl
           end;
    split_and!; try done; repeat constructor; by right.
Qed.

Definition settledOnce (acc : State TError * list (Effect TData TError)) : Prop :=
  isResolved acc.1 = existsb isSettle acc.2
  ∧ Forall quiet (afterSettle acc.2).

Lemma runEvents_settledOnce cfg acc (evs : list (Env * Event TData TError)) :
  settledOnce acc → settledOnce (runEvents cfg acc evs).
Proof.
  revert acc. induction evs as [| [env ev] evs IH]; intros [s effs] [Hres Hq]; [done |].
  simpl in *. apply IH. clear IH.
  destruct (step env cfg s ev) as [s' effs'] eqn:Hstep. simpl.
  unfold settledOnce. simpl. rewrite existsb_app, afterSettle_app, <- Hres.
  destruct (isResolved s) eqn:Hs.
  - pose proof (step_settled env cfg s ev Hs) as (H1 & H2 & H3).
    rewrite Hstep in H1, H2, H3. simpl in *. split; [done |].
    by apply Forall_app.
  - pose proof (step_pending env cfg s ev Hs) as H.
    rewrite Hstep in H. simpl in *.
    destruct H as [[H1 H2] | (H1 & H2 & H3)]; rewrite H1, H2; split; try done.
    clear -H2. induction effs' as [| x l IH]; [constructor |].
    simpl in *. apply orb_false_iff in H2 as [Hx Hl]. rewrite Hx. by apply IH.
Qed.

(** X1: whatever events arrive, and however the environment changes between
    them, the promise of a retryer settles at most once ([isResolved]
    holds exactly when [onSuccess] or [onError] was called), and after the
    settlement the retryer calls nothing but [abort] and [onPause]: the
    function is not attempted again, no second callback reports a result, no
    retry is scheduled. *)
Theorem retryer_settles_once cfg env0 (evs : list (Env * Event TData TError)) :
  let out := runEvents cfg (createRetryer env0 cfg) evs in
  isResolved out.1 = existsb isSettle out.2
  ∧ (length (List.filter isSettle out.2) ≤ 1)%nat
  ∧ (∀ eff, eff ∈ afterSettle out.2 → eff = Abort ∨ eff = OnPause).
Proof.
  intros out.
  assert (Hinv : settledOnce out).
  { apply runEvents_settledOnce. unfold createRetryer, run, pause.
    destruct (canFetch env0 (networkMode cfg)); split; simpl; constructor. }
  destruct Hinv as [Hres Hq]. split_and!; [done | |].
  - clear Hres. induction out.2 as [| eff effs IH]; simpl in *; [lia |].
    destruct (isSettle eff) eqn:He; simpl.
    + assert (List.filter isSettle effs = []) as ->; [| simpl; lia].
      clear IH. induction effs as [| x effs IH]; [done |].
      apply Forall_cons in Hq as [Hx Hq]. simpl.
      destruct Hx as [-> | ->]; simpl; by apply IH.
    + by apply IH.
  - intros eff Hin. rewrite Forall_forall in Hq. by apply Hq.
Qed.

(** *** The number of attempts *)

(** Every attempt fails, and every backoff delay elapses, in an
    environment that stays the same. *)
Definition failures env (es : list TError) : list (Env * Event TData TError) :=
  flat_map (λ e, [(env, AttemptRejected e); (env, DelayElapsed)]) es.

(** The effects of [failures es] on a retryer whose attempt is in flight
    after [k] failures, when [n] retries are allowed. *)
Fixpoint retried cfg (budget : nat) (k : Z) (es : list TError)
  : list (Effect TData TError) :=
  match es, budget with
  | [], _ => []
  | e :: _, O => [OnError e]
  | e :: rest, S budget =>
      Sleep (delayFor cfg k e) :: CallFn :: retried cfg budget (k + 1) rest
  end.

Lemma runEvents_cons cfg s effs env (ev : Event TData TError) evs :
  runEvents cfg (s, effs) ((env, ev) :: evs)
  = runEvents cfg ((step env cfg s ev).1, effs ++ (step env cfg s ev).2) evs.
Proof. unfold runEvents. simpl. by destruct (step env cfg s ev). Qed.

Lemma runEvents_settled_failures env cfg s effs (es : list TError) :
  isResolved s = true → pending s = NoPending →
  runEvents cfg (s, effs) (failures env es) = (s, effs).
Proof.
  intros Hs Hp. induction es as [| e es IH]; [done |].
  change (failures env (e :: es))
    with ((env, AttemptRejected e) :: (env, DelayElapsed) :: failures env es).
  rewrite !runEvents_cons.
  assert (H1 : step (TData := TData) env cfg s (AttemptRejected e) = (s, [])).
  { unfold step. by rewrite Hp. }
  rewrite H1. cbn [fst snd].
  assert (H2 : step (TData := TData) env cfg s DelayElapsed = (s, [])).
  { unfold step. by rewrite Hp. }
  rewrite H2. cbn [fst snd]. by rewrite !app_nil_r.
Qed.

Lemma runEvents_failures env cfg (budget : nat) (k : Z) effs (es : list TError) :
  effectiveRetry env cfg = RetryCount (k + Z.of_nat budget) →
  isOnline env = true → isFocused env = true →
  (budget < length es)%nat →
  runEvents cfg (mkTimers false k false Attempt, effs) (failures env es)
  = (mkTimers false (k + Z.of_nat budget) true NoPending,
     effs ++ retried cfg budget k es).
Proof.
  intros Hretry Hon Hfoc.
  assert (Hsp : shouldPause env cfg = false).
  { unfold shouldPause. rewrite Hon, Hfoc. by destruct (networkMode cfg) as [[]|]. }
  revert k effs es Hretry.
  induction budget as [| budget IH]; intros k effs es Hretry Hlen.
  - destruct es as [| e es]; [simpl in Hlen; lia |].
    change (failures env (e :: es))
      with ((env, AttemptRejected e) :: (env, DelayElapsed) :: failures env es).
    rewrite !runEvents_cons.
    assert (H1 : step (TData := TData) env cfg (mkTimers false k false Attempt)
                   (AttemptRejected e)
                 = (mkTimers false k true NoPending, [OnError e])).
    { unfold step, onRejected. simpl. unfold shouldRetry. rewrite Hretry.
      assert ((k <? k + Z.of_nat 0) = false) as -> by (apply Z.ltb_ge; lia). done. }
    rewrite H1. cbn [fst snd].
    assert (H2 : step (TData := TData) env cfg (mkTimers false k true NoPending)
                   DelayElapsed
                 = (mkTimers false k true NoPending, [])) by done.
    rewrite H2. cbn [fst snd].
    rewrite runEvents_settled_failures by done.
    by rewrite Z.add_0_r, app_nil_r.
  - destruct es as [| e es]; [simpl in Hlen; lia |].
    change (failures env (e :: es))
      with ((env, AttemptRejected e) :: (env, DelayElapsed) :: failures env es).
    rewrite !runEvents_cons.
    assert (H1 : step (TData := TData) env cfg (mkTimers false k false Attempt)
                   (AttemptRejected e)
                 = (mkTimers false (k + 1) false (Timer e),
                    [Sleep (delayFor cfg k e)])).
    { unfold step, onRejected. simpl. unfold shouldRetry. rewrite Hretry.
      assert ((k <? k + Z.of_nat (S budget)) = true) as -> by (apply Z.ltb_lt; lia). done. }
    rewrite H1. cbn [fst snd].
    assert (H2 : step (TData := TData) env cfg (mkTimers false (k + 1) false (Timer e))
                   DelayElapsed
                 = (mkTimers false (k + 1) false Attempt, [CallFn])).
    { unfold step. simpl. by rewrite Hsp. }
    rewrite H2. cbn [fst snd].
    rewrite (IH (k + 1)); [| by rewrite Hretry; f_equal; lia | simpl in Hlen; lia].
    f_equal; [f_equal; lia |].
    by rewrite <- !app_assoc.
Qed.

Lemma retried_calls cfg (budget : nat) (k : Z) (es : list TError) e :
  length es = budget →
  length (List.filter isCall (retried cfg budget k (es ++ [e]))) = budget
  ∧ List.filter isSettle (retried cfg budget k (es ++ [e])) = [OnError e].
Proof.
  revert k es. induction budget as [| budget IH]; intros k es Hlen.
  - destruct es; [done | simpl in Hlen; lia].
  - destruct es as [| e0 es]; [simpl in Hlen; lia |].
    simpl. destruct (IH (k + 1) es) as [H1 H2]; [simpl in Hlen; lia |].
    by rewrite H1, H2.
Qed.

(** X2: with [retry] a number [n] (or absent: 3 in the browser, 0 on the
    server), a function that keeps failing while the device stays online
    and the window focused is attempted exactly [n + 1] times; then the
    retryer rejects with the last error, its failure count being [n]. *)
Theorem numeric_retry_attempts env cfg (n : nat) (es : list TError) (e : TError) :
  effectiveRetry env cfg = RetryCount (Z.of_nat n) →
  isOnline env = true → isFocused env = true →
  length es = n →
  let out := runEvents cfg (createRetryer env cfg) (failures env (es ++ [e])) in
  length (List.filter isCall out.2) = S n
  ∧ List.filter isSettle out.2 = [OnError e]
  ∧ isResolved out.1 = true
  ∧ failureCount out.1 = Z.of_nat n.
Proof.
  intros Hretry Hon Hfoc Hlen out.
  assert (Hcf : canFetch env (networkMode cfg) = true).
  { unfold canFetch. rewrite Hon. by destruct (networkMode cfg) as [[]|]. }
  unfold out, createRetryer. rewrite Hcf. unfold run. simpl.
  rewrite (runEvents_failures env cfg n 0); try done.
  - simpl. destruct (retried_calls cfg n 0 es e Hlen) as [H1 H2].
    by rewrite H1, H2.
  - rewrite length_app. simpl. lia.
Qed.

(** *** Starting while the transport is unreachable *)

(** X3: a retryer created while it cannot fetch reports a pause, and as long
    as every event finds an environment in which it should pause (window
    unfocused, or device offline unless [networkMode] is [always]) the
    function is never attempted, whatever the events are. *)
Theorem paused_start_never_calls cfg env0 (evs : list (Env * Event TData TError)) :
  canFetch env0 (networkMode cfg) = false →
  Forall (λ ev, shouldPause ev.1 cfg = true) evs →
  let out := runEvents cfg (createRetryer env0 cfg) evs in
  List.filter isCall out.2 = [] ∧ head out.2 = Some OnPause.
Proof.
  intros Hcf Hall out. unfold out, createRetryer. rewrite Hcf. unfold pause. simpl.
  set (inv := λ acc : State TError * list (Effect TData TError),
         List.filter isCall acc.2 = [] ∧ head acc.2 = Some OnPause
         ∧ (isResolved acc.1 = true
            ∨ ∃ p, pending acc.1 = Pausing p)).
  cut (inv (runEvents cfg (mkTimers false 0 false (Pausing None), [OnPause]) evs)).
  { intros (H1 & H2 & _). done. }
  assert (H0 : inv (mkTimers (TError := TError) false 0 false (Pausing None),
                    [OnPause (TData := TData)])).
  { split_and!; [done | done | right; by eexists]. }
  revert H0. generalize (mkTimers (TError := TError) false 0 false (Pausing None),
                         [OnPause (TData := TData) (TError := TError)]).
  induction Hall as [| [env ev] evs Hsp _ IH]; intros [s effs] Hinv; [done |].
  simpl in *. apply IH. clear IH.
  destruct Hinv as (Hcalls & Hhead & Hstate). simpl in *.
  destruct (step env cfg s ev) as [s' effs'] eqn:Hstep. simpl.
  assert (Hgoal : List.filter isCall effs' = []
                  ∧ (isResolved s' = true ∨ ∃ p, pending s' = Pausing p)).
  { destruct Hstate as [Hres | [p Hp]].
    - pose proof (step_settled env cfg s ev Hres) as (H1 & H2 & _).
      rewrite Hstep in H1, H2. simpl in *. split; [| by left].
      clear -H2. induction H2 as [| x l [-> | ->] _ IH]; done.
    - destruct s as [c n res pd]. simpl in Hp. subst pd.
      unfold step in Hstep. simpl in Hstep. rewrite Hsp in Hstep.
      destruct ev; simpl in Hstep;
        unfold afterBackoff, reject, run in Hstep; simpl in Hstep;
        repeat match type of Hstep with
               | context [if ?b then _ else _] => destruct b eqn:?; simpl in Hstep
               | context [match ?o with Some _ => _ | None => _ end] =>
                   destruct o eqn:?; simpl in Hstep
               end;
        inversion Hstep; subst; simpl; split; try done;
        try (by left); try (right; by eexists). }
  destruct Hgoal as [Hc Hs]. split_and!; [| | done].
  - simpl. by rewrite List.filter_app, Hcalls, Hc.
  - simpl. by destruct effs.
Qed.

End WithTypes.

(** A fetch is cancelled during its backoff delay; the delay ends while
    the window is not focused.  The function is not called again, but
    [onPause] still is. *)
Example cancelled_backoff_still_pauses :
  let browser := mkEnv false true true in
  let hidden := mkEnv false true false in
  let cfg := mkConfig (TError := string) None (Some (DelayMs 10)) None in
  (runEvents (TData := string) cfg (createRetryer browser cfg)
     [(browser, AttemptRejected "down"); (browser, Cancel "cancelled");
      (hidden, DelayElapsed); (browser, Continue)]%string).2
  = [CallFn; Sleep 10; OnError "cancelled"%string; Abort; OnPause].
Proof. reflexivity. Qed.

Lemma numeric_retry_attempts_witness :
  let env := mkEnv false true true in
  let cfg := mkConfig (TError := string) None None None in
  let out := runEvents (TData := string) cfg (createRetryer env cfg)
               (failures env (["e1"; "e2"; "e3"] ++ ["e4"]))%string in
  length (List.filter isCall out.2) = 4%nat
  ∧ List.filter isSettle out.2 = [OnError "e4"%string]
  ∧ isResolved out.1 = true
  ∧ failureCount out.1 = 3.
Proof.
  apply (numeric_retry_attempts (TData := string) (mkEnv false true true)
           (mkConfig None None None) 3 ["e1"; "e2"; "e3"]%string "e4"%string);
    reflexivity.
Defined.

Lemma paused_start_never_calls_witness :
  let offline := mkEnv false false true in
  let cfg := mkConfig (TError := string) None None None in
  let out := runEvents (TData := string) cfg (createRetryer offline cfg)
               [(offline, Continue); (offline, CancelRetry); (offline, Continue)] in
  List.filter isCall out.2 = [] ∧ head out.2 = Some OnPause.
Proof.
  apply (paused_start_never_calls (TData := string)
           (mkConfig None None None) (mkEnv false false true)).
  - reflexivity.
  - repeat constructor.
Defined.

End RetryerTimersFacts.

(** ** The per-resource state machine over whole runs *)
Module QueryInfoRuns.
Import Retryer QueryInfo.

Section WithTypes.
Context {TData TError Meta : Type} `{!EqDecision Meta}.
Variable replaceEqualDeep : option TData → option TData → option TData.

Implicit Types (qi : QueryInfo TData TError Meta) (w : World) (env : Env) (now : Z).

(** What can happen to an entry without data being written to it: calls
    of [fetch], events of its retryer other than an attempt that resolves
    with data, and [invalidate].  Each comes with the environment and the
    clock at the time. *)
Inductive Step :=
| StepFetch (env : Env) (now : Z) (newOptions : option (QueryInfoOptions TData TError Meta))
            (fetchOptions : option (FetchOptions Meta))
| StepDeliver (env : Env) (now : Z) (ev : Event (option TData) (QueryError TError))
| StepInvalidate (env : Env) (now : Z).

Definition applyStep (acc : QueryInfo TData TError Meta * World) (st : Step)
  : QueryInfo TData TError Meta * World :=
  match st with
  | StepFetch env now o fo =>
      let out := fetch replaceEqualDeep env now acc.1 acc.2 o fo in (out.1.2, out.2)
  | StepDeliver env now ev => deliver replaceEqualDeep env now acc.1 acc.2 ev
  | StepInvalidate env now => (invalidate env now acc.1, acc.2)
  end.

(** The step does not deliver data. *)
Definition deliversNoData (st : Step) : bool :=
  match st with
  | StepDeliver _ _ (AttemptResolved (Some _)) => false
  | _ => true
  end.

(** The cached data and its timestamp are [d] and [u], in the state and in
    the snapshot [fetch] took, if it took one. *)
Definition holds qi (d : option TData) (u : Z) : Prop :=
  data (state qi) = d ∧ dataUpdatedAt (state qi) = u
  ∧ ∀ s, revertState qi = Some s → data s = d ∧ dataUpdatedAt s = u.

Definition bringsNoData (eff : Effect (option TData) (QueryError TError)) : bool :=
  match eff with OnSuccess (Some _) => false | _ => true end.

Lemma handleEffect_holds env now qi w eff d u :
  bringsNoData eff = true →
  holds qi d u → holds (handleEffect replaceEqualDeep env now (qi, w) eff).1 d u.
Proof.
  unfold holds. intros Heff (Hd & Hu & Hs).
  destruct eff as [| [x |] | e | | | |]; simpl in *; try done.
  unfold onError.
  destruct (isCancelledError e && isSilent e) eqn:Hsil; simpl; [done |].
  destruct (isCancelledError e && isRevert e) eqn:Hrev; simpl; [| done].
  destruct (revertState qi) as [s |] eqn:Hsnap; simpl; [| done].
  destruct (Hs s eq_refl). done.
Qed.

Lemma handleEffects_holds env now qi w effs d u :
  forallb bringsNoData effs = true →
  holds qi d u → holds (handleEffects replaceEqualDeep env now qi w effs).1 d u.
Proof.
  unfold handleEffects. revert qi w.
  induction effs as [| eff effs IH]; intros qi w Hall Hh; [done |].
  simpl in Hall. apply andb_true_iff in Hall as [Heff Hall].
  cbn [foldl].
  destruct (handleEffect replaceEqualDeep env now (qi, w) eff) as [qi' w'] eqn:Hstep.
  apply IH; [done |].
  pose proof (handleEffect_holds env now qi w eff d u Heff Hh) as H.
  by rewrite Hstep in H.
Qed.

(** The retryer reports data only when an attempt resolves with it. *)
Lemma step_bringsNoData env cfg (r : Retryer (QueryError TError))
      (ev : Event (option TData) (QueryError TError)) :
  match ev with AttemptResolved (Some _) => False | _ => True end →
  forallb bringsNoData (step env cfg r ev).2 = true.
Proof.
  intros Hev. unfold step.
  destruct ev as [[x |] | e | | | c | |], (phase r); simpl; try done;
    unfold resolve, onRejected, afterBackoff, reject, run, pause; simpl;
    repeat match goal with
           | |- context [if ?b then _ else _] => destruct b eqn:?; simpl
           | |- context [match ?o with Some _ => _ | None => _ end] =>
               destruct o eqn:?; simpl
           end; done.
Qed.

Lemma deliver_holds env now qi w ev d u :
  match ev with AttemptResolved (Some _) => False | _ => True end →
  holds qi d u → holds (deliver replaceEqualDeep env now qi w ev).1 d u.
Proof.
  intros Hev Hh. unfold deliver.
  destruct (retryer qi) as [r |]; [| done].
  pose proof (step_bringsNoData env (retryerConfig (options qi)) r ev Hev) as Heffs.
  destruct (step env (retryerConfig (options qi)) r ev) as [r' effs].
  by apply handleEffects_holds.
Qed.

Lemma startFetch_holds env now qi w o fo d u :
  holds qi d u → holds (startFetch replaceEqualDeep env now qi w o fo).1.2 d u.
Proof.
  intros (Hd & Hu & Hs). unfold startFetch.
  set (qi1 := match o with Some o' => setOptions qi o' | None => qi end).
  assert (H1 : state qi1 = state qi) by (by destruct o).
  rewrite H1.
  match goal with
  | |- context [createRetryer env ?cfg] =>
      destruct (createRetryer (TData := option TData) env cfg) as [r effs] eqn:Hcr
  end.
  assert (Heffs : forallb bringsNoData effs = true).
  { unfold createRetryer, run, pause in Hcr.
    destruct (canFetch env _); simpl in Hcr; by inversion Hcr. }
  match goal with
  | |- context [handleEffects _ env now ?q ?w' effs] =>
      pose proof (handleEffects_holds env now q w' effs d u Heffs) as Hh;
      destruct (handleEffects replaceEqualDeep env now q w' effs) as [qi5 w5]
  end.
  simpl in *. apply Hh. clear Hh.
  destruct (bool_decide (fetchStatus (state qi) = Idle)
            || metaDiffers (fetchMeta (state qi)) (fo ≫= fo_meta));
    simpl; (split_and!; [done | done |]); intros s [= <-]; done.
Qed.

Lemma applyStep_holds acc st d u :
  deliversNoData st = true → holds acc.1 d u → holds (applyStep acc st).1 d u.
Proof.
  destruct acc as [qi w]. intros Hst Hh.
  destruct st as [env now o fo | env now ev | env now]; simpl in *.
  - unfold fetch.
    destruct (bool_decide (fetchStatus (state qi) ≠ Idle)); [| by apply startFetch_holds].
    destruct (negb (dataUpdatedAt (state qi) =? 0) && from_option cancelRefetch false fo).
    + pose proof (deliver_holds env now qi w
                    (Cancel (CancelledError (mkCancel false true))) d u I Hh) as Hc.
      unfold cancel.
      destruct (deliver replaceEqualDeep env now qi w
                  (Cancel (CancelledError (mkCancel false true)))) as [qi' w'].
      by apply startFetch_holds.
    + destruct (promise qi) as [p |]; [| by apply startFetch_holds].
      simpl. by apply deliver_holds.
  - apply deliver_holds; [| done]. by destruct ev as [[?|] | | | | | |].
  - unfold invalidate. destruct (isInvalidated (state qi)); [done |].
    destruct Hh as (? & ? & ?). done.
Qed.

Lemma foldl_applyStep_holds (steps : list Step) acc d u :
  forallb deliversNoData steps = true →
  holds acc.1 d u → holds (foldl applyStep acc steps).1 d u.
Proof.
  revert acc. induction steps as [| st steps IH]; intros acc Hall Hacc; [done |].
  simpl in Hall. apply andb_true_iff in Hall as [Hst Hall].
  cbn [foldl]. apply IH; [done |]. by apply applyStep_holds.
Qed.

(** X4: stale data stays on display: as long as no attempt resolves with data
    (and nobody calls [setData]), no call of [fetch], no failure, retry,
    pause, resumption, cancellation — reverting or not — and no
    invalidation changes the cached data or its timestamp. *)
Theorem failed_refetch_keeps_data qi w (steps : list Step) :
  (∀ s, revertState qi = Some s →
        data s = data (state qi) ∧ dataUpdatedAt s = dataUpdatedAt (state qi)) →
  forallb deliversNoData steps = true →
  let out := foldl applyStep (qi, w) steps in
  data (state out.1) = data (state qi)
  ∧ dataUpdatedAt (state out.1) = dataUpdatedAt (state qi).
Proof.
  intros Hsnap Hall out.
  destruct (foldl_applyStep_holds steps (qi, w) (data (state qi))
              (dataUpdatedAt (state qi)) Hall) as (? & ? & _); done.
Qed.

(** X5: [reset] puts the entry back into the default state of its options,
    whatever it was doing: a fetch in flight is cancelled silently, so its
    cancellation is not recorded as an error, and the fetch function is not
    invoked. *)
Theorem reset_restores_default_state env now qi w :
  let out := reset replaceEqualDeep env now qi w in
  state out.1 = getDefaultState now (options qi)
  ∧ options out.1 = options qi
  ∧ fetchFnCalls out.2 = fetchFnCalls w
  ∧ (∀ r, retryer qi = Some r → ∃ r', retryer out.1 = Some r' ∧ isResolved r' = true).
Proof.
  unfold reset, destroy, cancel, deliver.
  destruct (retryer qi) as [r |] eqn:Hr.
  - assert (Hstep : ∃ r' effs,
               step (TData := option TData) env (retryerConfig (options qi)) r
                    (Cancel (CancelledError (mkCancel false true))) = (r', effs)
               ∧ isResolved r' = true
               ∧ (effs = [] ∨ effs = [OnError (CancelledError (mkCancel false true)); Abort])).
    { unfold step, reject. destruct (isResolved r) eqn:Hres.
      - exists r, []. destruct (phase r); auto.
      - eexists _, _. destruct (phase r); split_and!; try done; by right. }
    destruct Hstep as (r' & effs & Hstep & Hres & Heffs). rewrite Hstep.
    destruct Heffs as [-> | ->]; simpl; split_and!; try done;
      intros ? [= <-]; eauto.
  - simpl. split_and!; try done.
Qed.

(** X6: data that a fetch delivers at time [now] is fresh for [staleTime]
    milliseconds: at any time [later] the entry is stale by time exactly
    when [now + staleTime ≤ later]; once it is invalidated it is stale
    whatever the stale time.  ([now] is [Date.now()], which is not 0.) *)
Theorem fetched_data_is_fresh_for_stale_time env now qi w r (d : TData) :
  retryer qi = Some r → phase r = Running → isResolved r = false →
  now ≠ 0 →
  let qi' := (deliver replaceEqualDeep env now qi w (AttemptResolved (Some d))).1 in
  ∀ later staleTime,
    isStaleByTime later qi' staleTime = (now + staleTime <=? later)
    ∧ ∀ env' now', isStaleByTime later (invalidate env' now' qi') staleTime = true.
Proof.
  intros Hr Hphase Hres Hnow qi' later staleTime.
  assert (Hst : isInvalidated (state qi') = false ∧ dataUpdatedAt (state qi') = now).
  { unfold qi', deliver. rewrite Hr. unfold step. rewrite Hphase.
    unfold resolve. rewrite Hres. done. }
  destruct Hst as [Hinv Hdua]. split.
  - unfold isStaleByTime. rewrite Hinv, Hdua. simpl.
    apply Z.eqb_neq in Hnow. rewrite Hnow. simpl.
    destruct (now + staleTime <=? later) eqn:Hle.
    + apply Z.leb_le in Hle. apply Z.eqb_eq. lia.
    + apply Z.leb_gt in Hle. apply Z.eqb_neq. lia.
  - intros env' now'. unfold isStaleByTime, invalidate. rewrite Hinv. done.
Qed.

End WithTypes.

Lemma failed_refetch_keeps_data_witness :
  let keep : option string → option string → option string := λ _ b, b in
  let browser := mkEnv false true true in
  let o : QueryInfoOptions string string nat :=
    mkOptions (Some (RetryBool false)) None None None None None None in
  let qi := mkQueryInfo "todos" o
              (mkState (Some "cached"%string) 10 None 0 None false StatusSuccess Idle)
              None false None None false in
  let out := foldl (applyStep keep) (qi, mkWorld 0%nat 0%nat)
               [StepFetch browser 20 None None;
                StepDeliver browser 30 (AttemptRejected (Thrown "down"%string));
                StepInvalidate browser 40] in
  data (state out.1) = Some "cached"%string ∧ dataUpdatedAt (state out.1) = 10.
Proof.
  intros keep browser o qi.
  apply (failed_refetch_keeps_data keep qi (mkWorld 0%nat 0%nat)); [| reflexivity].
  intros s Hs. discriminate Hs.
Defined.

Lemma fetched_data_is_fresh_for_stale_time_witness :
  let keep : option string → option string → option string := λ _ b, b in
  let browser := mkEnv false true true in
  let o : QueryInfoOptions string string nat :=
    mkOptions None None None None None None None in
  let qi := mkQueryInfo "todos" o
              (mkState None 0 None 0 None false StatusPending Fetching)
              None false (Some (mkRetryer false 0 false Running)) (Some 0%nat) false in
  let qi' := (deliver keep browser 1000 qi (mkWorld 1%nat 1%nat)
                (AttemptResolved (Some "fresh"%string))).1 in
  isStaleByTime 5999 qi' 5000 = false ∧ isStaleByTime 6000 qi' 5000 = true.
Proof.
  intros keep browser o qi qi'.
  pose proof (fetched_data_is_fresh_for_stale_time keep browser 1000 qi
                (mkWorld 1%nat 1%nat) (mkRetryer false 0 false Running) "fresh"%string
                eq_refl eq_refl eq_refl ltac:(lia)) as H.
  split; [apply (H 5999 5000) | apply (H 6000 5000)].
Defined.

Lemma reset_restores_default_state_witness :
  let keep : option string → option string → option string := λ _ b, b in
  let browser := mkEnv false true true in
  let o : QueryInfoOptions string string nat :=
    mkOptions None None None (Some "seed"%string) (Some 5) None None in
  let qi := mkQueryInfo "todos" o
              (mkState (Some "cached"%string) 10 None 0 None true StatusSuccess Fetching)
              None false (Some (mkRetryer false 1 false Running)) (Some 0%nat) false in
  state (reset keep browser 50 qi (mkWorld 1%nat 1%nat)).1
  = mkState (Some "seed"%string) 5 None 0 None false StatusSuccess Idle.
Proof.
  intros keep browser o qi.
  apply (reset_restores_default_state keep browser 50 qi (mkWorld 1%nat 1%nat)).
Defined.

End QueryInfoRuns.

(** ** Infinite queries: one more page *)
Module InfiniteQueryPages.
Import InfiniteQuery.

(** The length of [addToEnd items item max] and of [addToStart items item
    max], from the length of [items]. *)
Definition windowLength (n : nat) (max : option Z) : nat :=
  let m := default 0 max in
  if negb (m =? 0) && (m <? Z.of_nat (S n)) then n else S n.

Lemma addToEnd_length {T} (items : list T) (item : T) (max : option Z) :
  length (addToEnd items item max) = windowLength (length items) max.
Proof.
  unfold addToEnd, windowLength. rewrite length_app. simpl.
  replace (length items + 1)%nat with (S (length items)) by lia.
  destruct (_ && _); [| rewrite length_app; simpl; lia].
  rewrite length_drop, length_app. simpl. lia.
Qed.

Lemma addToStart_length {T} (items : list T) (item : T) (max : option Z) :
  length (addToStart items item max) = windowLength (length items) max.
Proof.
  unfold addToStart, windowLength. simpl.
  destruct (_ && _); [| done].
  rewrite length_take. simpl. lia.
Qed.

Lemma windowLength_bound (n : nat) (m : Z) :
  0 < m → Z.of_nat n ≤ m → Z.of_nat (windowLength n (Some m)) ≤ m.
Proof.
  intros Hm Hn. unfold windowLength. simpl.
  destruct (m =? 0) eqn:H0; [apply Z.eqb_eq in H0; lia |]. simpl.
  destruct (m <? Z.of_nat (S n)) eqn:Hlt; [done |].
  apply Z.ltb_ge in Hlt. done.
Qed.

(** X7: [addToEnd] and [addToStart] with a positive bound keep a window of at
    most [max] items: the new item is always kept, at its end of the list;
    below the bound nothing is dropped, at the bound the item at the other
    end is. *)
Theorem addTo_keeps_a_window {T} (items : list T) (item : T) (max : Z) :
  0 < max → Z.of_nat (length items) ≤ max →
  let atEnd := addToEnd items item (Some max) in
  let atStart := addToStart items item (Some max) in
  last atEnd = Some item ∧ head atStart = Some item
  ∧ Z.of_nat (length atEnd) ≤ max ∧ Z.of_nat (length atStart) ≤ max
  ∧ (Z.of_nat (length items) < max →
     atEnd = items ++ [item] ∧ atStart = item :: items)
  ∧ (Z.of_nat (length items) = max →
     atEnd = drop 1 items ++ [item]
     ∧ atStart = item :: take (length items - 1) items).
Proof.
  intros Hmax Hlen atEnd atStart.
  assert (H0 : (max =? 0) = false) by (apply Z.eqb_neq; lia).
  split_and!.
  - unfold atEnd, addToEnd. simpl. rewrite H0. simpl.
    destruct (max <? _) eqn:Hlt; [| apply last_snoc].
    destruct items as [| x items]; simpl.
    + apply Z.ltb_lt in Hlt. simpl in Hlt. lia.
    + rewrite drop_0. apply last_snoc.
  - unfold atStart, addToStart. simpl. rewrite H0. simpl.
    destruct (max <? _) eqn:Hlt; [| done].
    destruct items as [| x items]; simpl; [| done].
    apply Z.ltb_lt in Hlt. simpl in Hlt. lia.
  - unfold atEnd. rewrite addToEnd_length. by apply windowLength_bound.
  - unfold atStart. rewrite addToStart_length. by apply windowLength_bound.
  - intros Hlt. unfold atEnd, atStart, addToEnd, addToStart. simpl. rewrite H0. simpl.
    rewrite length_app. simpl.
    assert ((max <? Z.of_nat (length items + 1)) = false) as -> by (apply Z.ltb_ge; lia).
    assert ((max <? Z.of_nat (S (length items))) = false) as -> by (apply Z.ltb_ge; lia).
    done.
  - intros Heq. unfold atEnd, atStart, addToEnd, addToStart. simpl. rewrite H0. simpl.
    rewrite length_app. simpl.
    assert ((max <? Z.of_nat (length items + 1)) = true) as -> by (apply Z.ltb_lt; lia).
    assert ((max <? Z.of_nat (S (length items))) = true) as -> by (apply Z.ltb_lt; lia).
    split.
    + destruct items; [simpl in Heq; lia | done].
    + destruct items as [| x items]; [simpl in Heq; lia |].
      simpl. by rewrite !Nat.sub_0_r.
Qed.

Lemma addTo_keeps_a_window_witness :
  addToEnd [1; 2; 3] 4 (Some 3) = [2; 3; 4]
  ∧ addToStart [1; 2; 3] 0 (Some 3) = [0; 1; 2].
Proof.
  pose proof (addTo_keeps_a_window [1; 2; 3] 4 3 ltac:(lia) ltac:(simpl; lia))
    as (_ & _ & _ & _ & _ & H4).
  pose proof (addTo_keeps_a_window [1; 2; 3] 0 3 ltac:(lia) ltac:(simpl; lia))
    as (_ & _ & _ & _ & _ & H0).
  split; [apply H4 | apply H0]; reflexivity.
Defined.

Section WithTypes.
Context {TPage TError : Type}.
Implicit Types (fetcher : Fetcher TPage TError) (o : InfiniteQueryOptions TPage)
         (d : InfiniteData TPage) (run : Run).

(** [pages] and [pageParams] have the same length. *)
Definition aligned d : Prop := length (pages d) = length (pageParams d).

(** The data holds at most [maxPages] pages, when that bound is positive. *)
Definition withinBound o d : Prop :=
  ∀ m, maxPages o = Some m → 0 < m → Z.of_nat (length (pages d)) ≤ m.

Lemma fetchPage_aligned fetcher o run d param previous d' run' :
  fetchPage fetcher o run d param previous = (inl d', run') →
  (aligned d → aligned d') ∧ (withinBound o d → withinBound o d').
Proof.
  unfold fetchPage.
  destruct (cancelled run); [done |].
  destruct (_ && _); [by intros [= <- <-] |].
  destruct (settled (fetcher param _)) as [page | e]; [| by destruct previous].
  unfold aligned, withinBound.
  destruct previous; intros [= <- <-]; simpl;
    rewrite ?addToEnd_length, ?addToStart_length; (split; [by intros -> |]);
    intros Hb m Hm Hpos; rewrite Hm; apply windowLength_bound; try done;
    by apply Hb.
Qed.

Lemma fetchRemaining_aligned fetcher o (n : nat) run d d' run' :
  fetchRemaining fetcher o n run d = (inl d', run') →
  (aligned d → aligned d') ∧ (withinBound o d → withinBound o d').
Proof.
  revert run d. induction n as [| n IH]; intros run d; simpl.
  - by intros [= <- <-].
  - destruct (fetchPage fetcher o run d (nextPageParam o d) false)
      as [[d1 | f] run1] eqn:Hpage; [| done].
    intros Hrest. apply fetchPage_aligned in Hpage as [Ha Hb].
    apply IH in Hrest as [Ha' Hb']. split; auto.
Qed.

(** X8: whatever is fetched — a refetch of the cached pages, the next page or
    the previous one — the data the fetch function resolves with has as
    many page parameters as pages, provided the cached data had; and with a
    positive [maxPages] it holds at most that many pages, provided the
    cached data did. *)
Theorem fetched_pages_stay_aligned fetcher o requested direction old d' run :
  (∀ d, old = Some d → aligned d) →
  fetchFn fetcher o requested direction old = (inl d', run) →
  aligned d'
  ∧ ((∀ d, old = Some d → withinBound o d) → withinBound o d').
Proof.
  intros Hold. unfold fetchFn.
  set (oldPages := from_option pages [] old).
  set (oldPageParams := from_option pageParams [] old).
  assert (Hal : aligned (mkData oldPages oldPageParams)).
  { unfold oldPages, oldPageParams. destruct old as [d |]; [| done].
    unfold aligned. simpl. by apply Hold. }
  assert (Hwb : (∀ d, old = Some d → withinBound o d) →
                withinBound o (mkData oldPages oldPageParams)).
  { unfold oldPages. destruct old as [d |]; simpl.
    - intros H m Hm Hpos. simpl. by apply (H d).
    - intros _ m _ Hm. simpl. lia. }
  assert (Hplain :
    match fetchPage fetcher o (mkRun false []) (mkData [] [])
            (Some (default (initialPageParam o) (mjoin (head oldPageParams)))) false with
    | (inl result, run0) =>
        fetchRemaining fetcher o (default (length oldPages) requested - 1) run0 result
    | (inr f, run0) => (inr f, run0)
    end = (inl d', run) →
    aligned d' ∧ ((∀ d, old = Some d → withinBound o d) → withinBound o d')).
  { destruct (fetchPage _ _ _ _ _ _) as [[d1 | f] run1] eqn:Hfirst; [| done].
    intros Hrest.
    apply fetchPage_aligned in Hfirst as [Ha Hb].
    apply fetchRemaining_aligned in Hrest as [Ha' Hb'].
    split; [by apply Ha', Ha |].
    intros _. apply Hb', Hb. intros m _ Hm. simpl. lia. }
  destruct direction as [dir |]; [| exact Hplain].
  destruct oldPages as [| p ps] eqn:Hp; [exact Hplain |].
  intros Hpage. apply fetchPage_aligned in Hpage as [Ha Hb].
  split; [by apply Ha | intros H; by apply Hb, Hwb].
Qed.

(** The page parameter in the direction asked for. *)
Definition paramTowards o (dir : Direction) d : option Z :=
  if bool_decide (dir = backward) then previousPageParam o d else nextPageParam o d.

Definition hasPageTowards o (dir : Direction) d : bool :=
  if bool_decide (dir = backward) then hasPreviousPage o (Some d)
  else hasNextPage o (Some d).

Lemma hasPageTowards_param o dir d :
  hasPageTowards o dir d = bool_decide (is_Some (paramTowards o dir d)).
Proof.
  unfold hasPageTowards, paramTowards, hasPreviousPage, hasNextPage, previousPageParam.
  case_bool_decide; [| done].
  destruct (getPreviousPageParam o); [done |].
  symmetry. apply bool_decide_eq_false. by intros [? ?].
Qed.

(** X9: fetching one more page of data that holds pages already: when
    [hasNextPage] (or [hasPreviousPage], backwards) is false the fetch
    function is not invoked and the cached data comes back as it is; when
    it is true the fetch function is invoked once, with the page parameter
    computed from the cached pages and with the direction, and the page it
    resolves with is added at that end of the cached pages. *)
Theorem fetch_more_follows_has_page fetcher o requested (dir : Direction) d :
  pages d ≠ [] →
  let out := fetchFn fetcher o requested (Some dir) (Some d) in
  (hasPageTowards o dir d = false → out = (inl d, mkRun false []))
  ∧ (hasPageTowards o dir d = true →
     ∃ p, paramTowards o dir d = Some p
          ∧ requests out.2 = [Some p]
          ∧ ∀ page, settled (fetcher (Some p) dir) = inl page →
              out.1 = inl (if bool_decide (dir = backward)
                           then mkData (addToStart (pages d) page (maxPages o))
                                       (addToStart (pageParams d) (Some p) (maxPages o))
                           else mkData (addToEnd (pages d) page (maxPages o))
                                       (addToEnd (pageParams d) (Some p) (maxPages o)))).
Proof.
  intros Hne out. rewrite hasPageTowards_param.
  unfold out, fetchFn. simpl.
  destruct d as [ps pps]. simpl in *.
  destruct ps as [| p0 ps]; [done |].
  change (if bool_decide (dir = backward)
          then previousPageParam o (mkData (p0 :: ps) pps)
          else nextPageParam o (mkData (p0 :: ps) pps))
    with (paramTowards o dir (mkData (p0 :: ps) pps)).
  destruct (paramTowards o dir (mkData (p0 :: ps) pps)) as [p |] eqn:Hparam.
  - split; [intros H; apply bool_decide_eq_false in H; destruct H; eauto |].
    intros _. exists p. split; [done |].
    unfold fetchPage. simpl.
    assert (Hdir : (if bool_decide (dir = backward) then backward else forward) = dir).
    { by destruct dir. }
    rewrite Hdir.
    destruct (settled (fetcher (Some p) dir)) as [page | e] eqn:Hset.
    + split; [by destruct (bool_decide (dir = backward)) |].
      intros page' [= <-]. by destruct (bool_decide (dir = backward)).
    + split; [done | done].
  - split; [done |]. intros H. apply bool_decide_eq_true in H as [? ?]. done.
Qed.

End WithTypes.

Lemma fetch_more_follows_has_page_witness :
  let fetcher : Fetcher (list nat) string :=
    λ p _, mkReply (inl [Z.to_nat (default 0 p)]) false in
  let o : InfiniteQueryOptions (list nat) :=
    mkOptions None (λ _ _ last _, match last with
                                  | Some n => if n <? 2 then Some (n + 1) else None
                                  | None => None
                                  end) 0 None in
  fetchFn fetcher o None (Some forward) (Some (mkData [[0%nat]; [1%nat]; [2%nat]]
                                                 [Some 0; Some 1; Some 2]))
  = (inl (mkData [[0%nat]; [1%nat]; [2%nat]] [Some 0; Some 1; Some 2]), mkRun false []).
Proof.
  intros fetcher o.
  apply (fetch_more_follows_has_page fetcher o None forward
           (mkData [[0%nat]; [1%nat]; [2%nat]] [Some 0; Some 1; Some 2])).
  - discriminate.
  - reflexivity.
Defined.

Lemma fetched_pages_stay_aligned_witness :
  let fetcher : Fetcher (list nat) string :=
    λ p _, mkReply (inl [Z.to_nat (default 0 p)]) false in
  let o : InfiniteQueryOptions (list nat) :=
    mkOptions None (λ _ _ last _, (λ n, n + 1) <$> last) 0 (Some 2) in
  let old := mkData [[0%nat]; [1%nat]] [Some 0; Some 1] in
  aligned (mkData [[1%nat]; [2%nat]] [Some 1; Some 2])
  ∧ withinBound o (mkData [[1%nat]; [2%nat]] [Some 1; Some 2]).
Proof.
  intros fetcher o old.
  destruct (fetched_pages_stay_aligned fetcher o None (Some forward) (Some old)
              (mkData [[1%nat]; [2%nat]] [Some 1; Some 2])
              (mkRun false [Some 2])) as [Ha Hb].
  - intros d [= <-]. reflexivity.
  - reflexivity.
  - split; [exact Ha |]. apply Hb. intros d [= <-] m [= <-] _. simpl. lia.
Defined.

End InfiniteQueryPages.

(** ** Hydration into a cache that is in use *)
Module HydrationMerge.
Import Retryer QueryInfo Hydration.

Section WithTypes.
Context {TData TError Meta TVars : Type} `{!EqDecision Meta}.

Implicit Types (queries : gmap string (Entry TData TError Meta TVars))
         (e : Entry TData TError Meta TVars)
         (dq : DehydratedQuery TData TError Meta TVars)
         (defaults : QueryInfoOptions TData TError Meta)
         (env : Env) (now : Z) (h : string).

(** Entries sit under their own hash, as [build] puts them. *)
Definition underOwnHash queries : Prop :=
  ∀ h e, queries !! h = Some e → queryHash (info e) = h.

(** [h] holds an entry whose data is at least as recent as [u]. *)
Definition atLeast queries h (u : Z) : Prop :=
  ∃ e, queries !! h = Some e ∧ u ≤ dataUpdatedAt (state (info e)).

Lemma hydrateQuery_atLeast env now defaults queries dq h u :
  atLeast queries h u → atLeast (hydrateQuery env now defaults queries dq) h u.
Proof.
  intros (e & Hlook & Hu). unfold hydrateQuery, build.
  destruct (decide (h = dq_queryHash dq)) as [-> | Hne].
  - rewrite Hlook. simpl.
    destruct (dataUpdatedAt (state (info e)) <? dataUpdatedAt (dq_state dq)) eqn:Hlt.
    + eexists. rewrite lookup_insert_eq. split; [done |]. simpl.
      apply Z.ltb_lt in Hlt. lia.
    + by exists e.
  - exists e. split; [| done].
    destruct (queries !! dq_queryHash dq) as [e' |].
    + destruct (_ <? _); [by rewrite lookup_insert_ne | done].
    + by rewrite lookup_insert_ne.
Qed.

(** X10: hydration only adds to a cache: every entry that was there is still
    there afterwards, under the same hash, and its data is not older than
    before — dehydrated state replaces live state only when it is strictly
    newer. *)
Theorem hydrate_never_loses_data env now defaults queries
        (dehydratedState : option (list (DehydratedQuery TData TError Meta TVars))) h e :
  queries !! h = Some e →
  ∃ e', hydrate env now defaults queries dehydratedState !! h = Some e'
        ∧ dataUpdatedAt (state (info e)) ≤ dataUpdatedAt (state (info e')).
Proof.
  intros Hlook. unfold hydrate.
  destruct dehydratedState as [qs |]; [| exists e; split; [done | lia]].
  cut (atLeast (foldl (hydrateQuery env now defaults) queries qs) h
               (dataUpdatedAt (state (info e)))); [done |].
  assert (H0 : atLeast queries h (dataUpdatedAt (state (info e)))).
  { exists e. split; [done | lia]. }
  revert H0. generalize (dataUpdatedAt (state (info e))). intros u. clear Hlook.
  revert queries. induction qs as [| dq qs IH]; intros queries H0; [done |].
  simpl. apply IH. by apply hydrateQuery_atLeast.
Qed.

Lemma dehydrated_is_live queries filter dq :
  underOwnHash queries →
  dq ∈ dehydrate queries filter →
  ∃ e, queries !! dq_queryHash dq = Some e ∧ dq_state dq = state (info e).
Proof.
  intros Hown Hin. unfold dehydrate in Hin.
  apply list_elem_of_In, in_flat_map in Hin as (e & He & Hdq).
  apply list_elem_of_In in He. unfold getAll in He.
  apply list_elem_of_fmap in He as ([h e'] & -> & Hp).
  apply elem_of_map_to_list in Hp. simpl in *.
  destruct (_ && _); simpl in Hdq; [| done]. destruct Hdq as [<- | []].
  exists e'. simpl. split; [| done]. by rewrite (Hown h e' Hp).
Qed.

(** X11: hydrating a cache with what was just dehydrated from it changes
    nothing, whichever entries the filter selected: every dehydrated query
    finds its own entry, whose data is as recent as its own. *)
Theorem hydrate_own_state_changes_nothing env now defaults queries filter :
  underOwnHash queries →
  hydrate env now defaults queries (Some (dehydrate queries filter)) = queries.
Proof.
  intros Hown. unfold hydrate.
  pose proof (dehydrated_is_live queries filter) as Hlive.
  induction (dehydrate queries filter) as [| dq qs IH]; [done |].
  simpl.
  destruct (Hlive dq Hown) as (e & Hlook & Hst); [left |].
  assert (Hskip : hydrateQuery env now defaults queries dq = queries).
  { unfold hydrateQuery. rewrite Hlook. simpl. rewrite Hst.
    by rewrite Z.ltb_irrefl. }
  rewrite Hskip. apply IH. intros dq' _ Hin. apply Hlive; [done | by right].
Qed.

End WithTypes.

Definition liveEntry : Entry string string nat nat :=
  mkEntry (mkQuery "todos" false) None
    (mkQueryInfo "todos" (mkOptions None None None None None None None)
       (mkState (Some "new"%string) 20 None 0 None false StatusSuccess Idle)
       None false None None false).

Definition liveCache : gmap string (Entry string string nat nat) :=
  <["todos" := liveEntry]> ∅.

Lemma liveCache_underOwnHash : underOwnHash liveCache.
Proof.
  intros h e. unfold liveCache. rewrite lookup_insert. case_decide; [| done].
  intros [= <-]. done.
Qed.

Lemma hydrate_never_loses_data_witness :
  let older := mkDehydrated (mkQuery "todos" false) "todos"
                 (mkState (Some "old"%string) 10 None 0 None false StatusSuccess Idle)
                 (None : option nat) (None : option nat) in
  ∃ e', hydrate (mkEnv false true true) 0 (mkOptions None None None None None None None)
                liveCache (Some [older]) !! "todos"%string = Some e'
        ∧ 20 ≤ dataUpdatedAt (state (info e')).
Proof.
  intros older.
  apply (hydrate_never_loses_data (mkEnv false true true) 0
           (mkOptions None None None None None None None) liveCache (Some [older])
           "todos"%string liveEntry).
  reflexivity.
Defined.

Lemma hydrate_own_state_changes_nothing_witness :
  hydrate (mkEnv false true true) 0 (mkOptions None None None None None None None)
          liveCache (Some (dehydrate liveCache None)) = liveCache.
Proof.
  apply (hydrate_own_state_changes_nothing (mkEnv false true true) 0
           (mkOptions None None None None None None None) liveCache None).
  exact liveCache_underOwnHash.
Defined.

End HydrationMerge.

(** ** The state of a mutation *)
Module MutationInfoStates.
Import MutationInfo.

Section WithTypes.
Context {TData TVars TError : Type}.
Implicit Types (cfg : MutationInfoConfig TData TVars TError)
         (state : MutationInfoState TData TVars TError)
         (a : Action TData TVars TError).

(** The variables of the last [mutating] action. *)
Definition lastVariables (actions : list (Action TData TVars TError)) : option TVars :=
  last (omap (λ a, match a with MutatingAction v => Some v | _ => None end) actions).

(** X12: after any sequence of dispatched actions, from the default state on,
    the state is fixed by the last action and by the variables of the last
    [mutating] action (none before the first).  Before any action it is
    the default state.  After [mutating] with [v]: no data, no error,
    status [mutating], variables [v].  After [success] with [d]: [data]
    is [d], no error, status [success].  After [error] with [e]: no data,
    [error] is [e], status [error].  So neither the data nor the error
    that an earlier action left behind survives a later action. *)
Theorem state_follows_last_action (actions : list (Action TData TVars TError)) :
  foldl reducer getDefaultState actions =
    match last actions with
    | None => getDefaultState
    | Some (MutatingAction v) => mkState None None StatusMutating (Some v)
    | Some (SuccessAction d) =>
        mkState (Some d) None StatusSuccess (lastVariables actions)
    | Some (ErrorAction e) =>
        mkState None (Some e) StatusError (lastVariables actions)
    end.
Proof.
  assert (Hvars : ∀ l, variables (foldl reducer getDefaultState l) = lastVariables l).
  { induction l as [| a l IH] using rev_ind; [done |].
    rewrite foldl_app. unfold lastVariables in *. rewrite omap_app. simpl.
    destruct a as [v | d | e]; simpl.
    - by rewrite last_snoc.
    - by rewrite app_nil_r.
    - by rewrite app_nil_r. }
  destruct actions as [| a0 rest] using rev_ind; [done |].
  rewrite foldl_app, last_snoc. simpl.
  destruct a0 as [v | d | e]; simpl; [done | |].
  - f_equal. rewrite Hvars. unfold lastVariables.
    rewrite omap_app. simpl. by rewrite app_nil_r.
  - f_equal. rewrite Hvars. unfold lastVariables.
    rewrite omap_app. simpl. by rewrite app_nil_r.
Qed.

(** X13: [trigger], run to completion, leaves the mutation in a terminal state
    that is coherent with how its promise settled.  When the promise
    resolves with [d], the mutation function resolved with [d] and the
    state holds it.  When it rejects, the state holds no data and records
    the first failure — the rejection of the mutation function, or what a
    success-phase callback threw — while the promise rejects with the
    same error unless an error-phase callback threw, in which case it
    rejects with what that callback threw. *)
Theorem trigger_records_first_failure cfg state (v : TVars) (settled : TData + TError) :
  let out := trigger cfg state v settled in
  let restored := bool_decide (status state = StatusMutating) in
  let started := if restored then state else reducer state (MutatingAction v) in
  match out.1.1 with
  | inl d =>
      settled = inl d
      ∧ out.1.2 = mkState (Some d) None StatusSuccess (variables started)
  | inr rejected =>
      ∃ first,
        out.1.2 = mkState None (Some first) StatusError (variables started)
        ∧ (settled = inr first
           ∨ ∃ d, settled = inl d
                  ∧ (awaitAll started (successCallbacks cfg d v)).2 = Some first)
        ∧ rejected = default first (awaitAll started (errorCallbacks cfg first v)).2
  end.
Proof.
  unfold trigger. cbv zeta.
  set (started := if bool_decide (status state = StatusMutating)
                  then state else reducer state (MutatingAction v)).
  destruct settled as [d | e].
  - destruct (awaitAll started (successCallbacks cfg d v)) as [evs thrown] eqn:Hs.
    destruct thrown as [e |]; [| done].
    unfold onCatch.
    destruct (awaitAll started (errorCallbacks cfg e v)) as [evs' thrown'] eqn:He.
    cbn [fst snd]. exists e. split_and!; [done | | by rewrite He].
    right. exists d. by rewrite Hs.
  - unfold onCatch.
    destruct (awaitAll started (errorCallbacks cfg e v)) as [evs' thrown'] eqn:He.
    cbn [fst snd]. exists e. split_and!; [done | by left | by rewrite He].
Qed.

End WithTypes.

End MutationInfoStates.

(** ** What an observer shows *)
Module ObservableQueryResults.
Import Retryer QueryInfo ObservableQuery.

Section WithTypes.
Context {TQueryData TData TError Meta SelectRef PlaceholderRef : Type}
        `{!EqDecision TQueryData, !EqDecision TData, !EqDecision TError,
          !EqDecision Meta, !EqDecision SelectRef, !EqDecision PlaceholderRef}.
Variable runSelect : SelectRef → TQueryData → SelectOutcome TData TError.
Variable runPlaceholder : PlaceholderRef → option TQueryData → option TQueryData.
Variable replaceEqualDeep : option TData → option TData → option TData.
Variable asData : TQueryData → TData.
Variable truthy : TError → bool.

Implicit Types
  (obs : ObservableQuery TQueryData TData TError Meta SelectRef PlaceholderRef)
  (qi : QueryInfo TQueryData TError Meta)
  (o : ObservableQueryOptions TQueryData TData TError Meta SelectRef PlaceholderRef)
  (env : Env) (now : Z).

(** X14: with [enabled: false] no automatic fetch is decided, whatever the
    other options say ([refetchOnMount: 'always'] included) and whatever
    state the entry is in: not on mount, not on window focus or reconnect,
    not when the options change; and the result derived with
    [_optimisticResults] reports the transport state of the entry itself,
    never an anticipated fetch. *)
Theorem disabled_observer_never_fetches env now obs qi prevQi o prevO field :
  enabled o = Some false →
  shouldFetchOnMount now qi o = false
  ∧ shouldFetchOn now qi o field = false
  ∧ shouldFetchOptionally now qi prevQi o prevO = false
  ∧ optimisticStatus env now obs qi o = (fetchStatus (state qi), status (state qi))
  ∧ isFetching (createResult runSelect runPlaceholder replaceEqualDeep asData truthy
                  env now obs qi o).1
    = bool_decide (fetchStatus (state qi) = Fetching).
Proof.
  intros Hen.
  assert (H1 : shouldFetchOnMount now qi o = false).
  { unfold shouldFetchOnMount, shouldLoadOnMount, shouldFetchOn.
    rewrite Hen. simpl. by rewrite andb_false_r. }
  assert (H2 : ∀ q p po, shouldFetchOptionally now q p o po = false).
  { intros. unfold shouldFetchOptionally. by rewrite Hen. }
  assert (H3 : optimisticStatus env now obs qi o
               = (fetchStatus (state qi), status (state qi))).
  { unfold optimisticStatus. rewrite H1, H2, !andb_false_r. simpl.
    by destruct (optimisticResults o). }
  split_and!; try done.
  - unfold shouldFetchOn. by rewrite Hen.
  - unfold createResult, derive. rewrite H3.
    destruct (selectData _ _ _ obs qi o) as [selected obs1].
    destruct (placeholderData o) as [ph |].
    + destruct (_ && _).
      * destruct (placeholderFor _ _ _ obs1 o ph) as [[x |] obs2];
          by destruct (isTruthy truthy (selectError obs2)).
      * by destruct (isTruthy truthy (selectError obs1)).
    + by destruct (isTruthy truthy (selectError obs1)).
Qed.

(** X15: a result that shows placeholder data is never a loading result, and
    is produced only when the options carry placeholder data and the
    entry the result is derived from would otherwise be pending. *)
Theorem placeholder_result_is_not_loading env now obs qi o :
  let result := (createResult runSelect runPlaceholder replaceEqualDeep asData truthy
                   env now obs qi o).1 in
  isPlaceholderData result = true →
  isLoading result = false
  ∧ is_Some (placeholderData o)
  ∧ (optimisticStatus env now obs qi o).2 = StatusPending.
Proof.
  unfold createResult, derive.
  destruct (optimisticStatus env now obs qi o) as [fs st].
  destruct (selectData _ _ _ obs qi o) as [selected obs1].
  destruct (placeholderData o) as [ph |].
  - destruct (bool_decide (selected = None) && bool_decide (st = StatusPending)) eqn:Hc.
    + apply andb_true_iff in Hc as [_ Hst]. apply bool_decide_eq_true in Hst.
      destruct (placeholderFor _ _ _ obs1 o ph) as [[x |] obs2];
        destruct (isTruthy truthy (selectError obs2)); simpl; try done; eauto.
    + by destruct (isTruthy truthy (selectError obs1)).
  - by destruct (isTruthy truthy (selectError obs1)).
Qed.

End WithTypes.

Lemma disabled_observer_never_fetches_witness :
  let qi : QueryInfo nat string nat :=
    mkQueryInfo "todos" (QueryInfo.mkOptions None None None None None None None)
      (mkState None 0 None 0 None false StatusPending Idle)
      None false None None false in
  let o : ObservableQueryOptions nat nat string nat nat nat :=
    mkOptions None None None None (Some false) None
              (Some (FieldValue RefetchAlways)) false true in
  shouldFetchOnMount 100 qi o = false.
Proof.
  intros qi o.
  apply (disabled_observer_never_fetches (λ _ d, Selected (Some d)) (λ _ _, None)
           (λ _ b, b) id (λ _, true) (mkEnv false true true) 100
           (createObservableQuery qi) qi qi o o None).
  reflexivity.
Defined.

Lemma placeholder_result_is_not_loading_witness :
  let qi : QueryInfo nat string nat :=
    mkQueryInfo "todos" (QueryInfo.mkOptions None None None None None None None)
      (mkState None 0 None 0 None false StatusPending Idle)
      None false None None false in
  let o : ObservableQueryOptions nat nat string nat nat nat :=
    mkOptions None (Some (PlaceholderValue 7%nat)) None None None None None false false in
  isLoading (createResult (λ _ d, Selected (Some d)) (λ _ _, None) (λ _ b, b) id
               (λ _, true) (mkEnv false true true) 100 (createObservableQuery qi)
               qi o).1 = false.
Proof.
  intros qi o.
  apply (placeholder_result_is_not_loading (λ _ d, Selected (Some d)) (λ _ _, None)
           (λ _ b, b) id (λ _, true) (mkEnv false true true) 100
           (createObservableQuery qi) qi o).
  reflexivity.
Defined.

End ObservableQueryResults.

(** ** Subscriptions *)
Module SubscribableFacts.
Import Subscribable.

Section WithTypes.
Context {Listener : Type} `{!EqDecision Listener}.
Implicit Types (l : Listener) (ls : list Listener) (cs : list (Call (Listener := Listener))).

(** The last call that concerned [l] was a [subscribe]. *)
Definition subscribedLast l cs : bool :=
  foldl (λ b c, match c with
                | Subscribe x => if decide (x = l) then true else b
                | Unsubscribe x => if decide (x = l) then false else b
                end) false cs.

Definition hookOf (c : Call (Listener := Listener)) : Hook :=
  match c with Subscribe _ => OnSubscribe | Unsubscribe _ => OnUnsubscribe end.

Lemma setAdd_spec l x ls : x ∈ setAdd l ls ↔ x = l ∨ x ∈ ls.
Proof.
  unfold setAdd. case_bool_decide.
  - split; [by right | intros [-> | ?]; done].
  - rewrite elem_of_app, list_elem_of_singleton. tauto.
Qed.

Lemma setAdd_NoDup l ls : NoDup ls → NoDup (setAdd l ls).
Proof.
  intros Hnd. unfold setAdd. case_bool_decide; [done |].
  apply NoDup_app. split_and!; [done | | apply NoDup_singleton].
  intros x Hx Hx'. apply list_elem_of_singleton in Hx'. by subst.
Qed.

Lemma setDelete_spec l x ls : x ∈ setDelete l ls ↔ x ≠ l ∧ x ∈ ls.
Proof. unfold setDelete. by rewrite list_elem_of_filter. Qed.

Lemma subscribedLast_snoc l cs (c : Call) :
  subscribedLast l (cs ++ [c])
  = match c with
    | Subscribe x => if decide (x = l) then true else subscribedLast l cs
    | Unsubscribe x => if decide (x = l) then false else subscribedLast l cs
    end.
Proof. unfold subscribedLast. by rewrite foldl_app. Qed.

Lemma createSubscribable_snoc cs (c : Call) :
  createSubscribable (cs ++ [c]) = call (createSubscribable cs) c.
Proof. unfold createSubscribable. by rewrite foldl_app. Qed.

(** X16: the listeners of a subscribable form a set: however [subscribe] and
    the functions it returned are called, no listener is held twice, and a
    listener is held exactly when the last call that concerned it was a
    [subscribe] — so a listener subscribed twice is gone after one call of
    either function [subscribe] returned, and calling such a function again
    removes nothing else.  Each call runs its hook once, calls that change
    nothing included. *)
Theorem listeners_form_a_set cs :
  let out := createSubscribable cs in
  NoDup out.1
  ∧ (∀ l, l ∈ out.1 ↔ subscribedLast l cs = true)
  ∧ (hasListeners out.1 = true ↔ ∃ l, subscribedLast l cs = true)
  ∧ out.2 = map hookOf cs.
Proof.
  simpl.
  assert (H : NoDup (createSubscribable cs).1
              ∧ (∀ l, l ∈ (createSubscribable cs).1 ↔ subscribedLast l cs = true)
              ∧ (createSubscribable cs).2 = map hookOf cs).
  { induction cs as [| c cs IH] using rev_ind.
    - split_and!; [constructor | | done].
      intros l. split; [by intros ?%elem_of_nil | done].
    - rewrite createSubscribable_snoc. destruct IH as (Hnd & Hin & Hhooks).
      rewrite map_app. simpl.
      destruct (createSubscribable cs) as [ls hooks]. simpl in *.
      destruct c as [x | x]; simpl; split_and!.
      + by apply setAdd_NoDup.
      + intros l. rewrite subscribedLast_snoc, setAdd_spec, Hin.
        destruct (decide (x = l)); [| naive_solver]. subst. tauto.
      + by rewrite Hhooks.
      + unfold setDelete. by apply NoDup_filter.
      + intros l. rewrite subscribedLast_snoc, setDelete_spec, Hin.
        destruct (decide (x = l)); [| naive_solver]. subst. naive_solver.
      + by rewrite Hhooks. }
  destruct H as (Hnd & Hin & Hhooks). split_and!; try done.
  destruct (createSubscribable cs).1 as [| l ls] eqn:Hls; simpl.
  - split; [done |]. intros [l Hl]. apply Hin in Hl. by apply elem_of_nil in Hl.
  - split; [| done]. intros _. exists l. apply Hin. left.
Qed.

End WithTypes.

(** The same listener subscribed twice, then unsubscribed once. *)
Example subscribed_twice_unsubscribed_once :
  createSubscribable [Subscribe 1%nat; Subscribe 2%nat; Subscribe 1%nat; Unsubscribe 1%nat]
  = ([2%nat], [OnSubscribe; OnSubscribe; OnSubscribe; OnUnsubscribe]).
Proof. reflexivity. Qed.

End SubscribableFacts.

(** ** The focus manager *)
Module FocusManagerFacts.
Import Subscribable FocusManager.

Section WithTypes.
Context {Listener SetupFn : Type} `{!EqDecision Listener, !EqDecision SetupFn}.
Variable returnsCleanup : SetupFn → bool.
Implicit Types (fm : FocusManager Listener SetupFn)
         (effs : list (Effect Listener SetupFn)).

(** Replays the setup and cleanup calls of a trace: [Some active] when no
    setup function installed a handler while another handler was in place
    and every cleanup called was that of the handler in place; [active] is
    the setup function whose handler is in place at the end. *)
Fixpoint installed (active : option SetupFn) effs : option (option SetupFn) :=
  match effs with
  | [] => Some active
  | CallSetup s :: rest =>
      if returnsCleanup s
      then match active with
           | None => installed (Some s) rest
           | Some _ => None
           end
      else installed active rest
  | CallCleanup s :: rest =>
      if bool_decide (active = Some s) then installed None rest else None
  | Notify _ :: rest => installed active rest
  end.

Lemma installed_app active effs effs' :
  installed active (effs ++ effs')
  = installed active effs ≫= λ a, installed a effs'.
Proof.
  revert active. induction effs as [| eff effs IH]; intros active; [done |].
  destruct eff as [s | s | l]; simpl.
  - destruct (returnsCleanup s); [| apply IH]. destruct active; [done | apply IH].
  - case_bool_decide; [apply IH | done].
  - apply IH.
Qed.

Lemma installed_notify active (ls : list Listener) :
  installed active (map Notify ls) = Some active.
Proof. induction ls; [done | by simpl]. Qed.

(** The handler in place is the one the current setup function
    installed, and with listeners there is one whenever that function
    installs one. *)
Definition tidy fm : Prop :=
  (∀ s, cleanup fm = Some s → s = setup fm ∧ returnsCleanup s = true)
  ∧ (listeners fm ≠ [] →
     cleanup fm = if returnsCleanup (setup fm) then Some (setup fm) else None).

Lemma setEventListener_installed fm s :
  let out := setEventListener returnsCleanup fm s in
  installed (cleanup fm) out.2 = Some (cleanup out.1) ∧ tidy out.1.
Proof.
  unfold setEventListener, callCleanup, tidy. simpl.
  destruct (cleanup fm) as [c |]; simpl.
  - rewrite bool_decide_eq_true_2 by done.
    destruct (returnsCleanup s) eqn:Hs; simpl; split_and!; try done;
      intros ? [= <-]; done.
  - destruct (returnsCleanup s) eqn:Hs; simpl; split_and!; try done;
      intros ? [= <-]; done.
Qed.

Lemma call_installed fm (c : Call Listener SetupFn) :
  tidy fm →
  let out := call returnsCleanup fm c in
  installed (cleanup fm) out.2 = Some (cleanup out.1) ∧ tidy out.1.
Proof.
  intros [Hc Hl]. destruct c as [l | l | s | v | v]; simpl.
  - unfold subscribe. simpl.
    destruct (cleanup fm) as [c |] eqn:Hcl; simpl.
    + destruct (Hc c eq_refl) as [Hcs Hrc].
      split; [done |]. split; simpl.
      * by intros s [= <-].
      * intros _. by rewrite <- Hcs, Hrc.
    + pose proof (setEventListener_installed
                    (mkFocus (focused fm) None (setup fm) (setAdd l (listeners fm)))
                    (setup fm)) as H.
      simpl in H. done.
  - unfold unsubscribe. simpl.
    destruct (hasListeners (setDelete l (listeners fm))) eqn:Hhas; simpl.
    + split; [done |]. split; simpl; [done |].
      intros Hne. apply Hl. intros Hnil. rewrite Hnil in Hne. by apply Hne.
    + unfold callCleanup. simpl. destruct (cleanup fm) as [c |]; simpl.
      * rewrite bool_decide_eq_true_2 by done. split; [done |].
        split; simpl; [done |]. by destruct (setDelete l (listeners fm)).
      * split; [done |]. split; simpl; [done |].
        by destruct (setDelete l (listeners fm)).
  - apply setEventListener_installed.
  - unfold setFocused. case_bool_decide; simpl; [| done].
    unfold onFocus. simpl. by rewrite installed_notify.
  - destruct v as [b |]; simpl.
    + unfold setFocused. case_bool_decide; simpl; [| done].
      unfold onFocus. simpl. by rewrite installed_notify.
    + unfold onFocus. by rewrite installed_notify.
Qed.

Lemma calls_installed (cs : list (Call Listener SetupFn)) fm effs active :
  tidy fm → installed active effs = Some (cleanup fm) →
  let out := calls returnsCleanup (fm, effs) cs in
  installed active out.2 = Some (cleanup out.1) ∧ tidy out.1.
Proof.
  revert fm effs. induction cs as [| c cs IH]; intros fm effs Ht Hi; [done |].
  simpl. pose proof (call_installed fm c Ht) as [H1 H2].
  destruct (call returnsCleanup fm c) as [fm' effs'] eqn:Hcall. simpl in *.
  apply IH; [done |]. rewrite installed_app, Hi. done.
Qed.

(** X17: however the focus manager is used, it never has two event handlers in
    place: a setup function is only called after the cleanup of the handler
    in place, and a cleanup is only called for the handler in place; the
    handler in place at the end is the one recorded in [cleanup].  With
    listeners, the handler of the current setup function is in place (if it
    installs one); and when a call of a function returned by [subscribe]
    leaves no listener, no handler is left in place. *)
Theorem focus_handlers_never_pile_up (defaultSetup : SetupFn)
        (cs : list (Call Listener SetupFn)) :
  let start := (createFocusManager defaultSetup, []) in
  let out := calls returnsCleanup start cs in
  installed None out.2 = Some (cleanup out.1)
  ∧ (listeners out.1 ≠ [] →
     cleanup out.1 = if returnsCleanup (setup out.1) then Some (setup out.1) else None)
  ∧ (∀ l, let after := calls returnsCleanup out [Unsubscribe l] in
          listeners after.1 = [] → cleanup after.1 = None).
Proof.
  intros start out.
  destruct (calls_installed cs (createFocusManager defaultSetup) [] None) as [H1 [H2 H3]].
  { split; [done |]. simpl. done. }
  { done. }
  fold start in H1, H2, H3. fold out in H1, H2, H3.
  split_and!; [done | done |].
  intros l. simpl. destruct out as [fm effs]. simpl.
  unfold unsubscribe. simpl.
  destruct (hasListeners (setDelete l (listeners fm))) eqn:Hhas; simpl; [| done].
  intros Hnil. rewrite Hnil in Hhas. done.
Qed.

(** How often the focus state changes along a list of values. *)
Fixpoint changes (current : option bool) (vs : list (option bool)) : nat :=
  match vs with
  | [] => 0
  | v :: rest => (if bool_decide (v ≠ current) then 1 else 0) + changes v rest
  end.

(** X18: a run of [setFocused] calls notifies the listeners once per change of
    the value — a call with the value the manager already holds notifies
    nobody — each time all of them, in subscription order; afterwards
    [isFocused()] answers with the last value, or with the visibility of
    the document when that value is [undefined]. *)
Theorem setFocused_notifies_on_change fm (vs : list (option bool)) (visible : bool) :
  let out := calls returnsCleanup (fm, []) (map SetFocused vs) in
  out.2 = mjoin (replicate (changes (focused fm) vs) (map Notify (listeners fm)))
  ∧ isFocused out.1 visible
    = match default (focused fm) (last vs) with Some b => b | None => visible end
  ∧ listeners out.1 = listeners fm.
Proof.
  simpl.
  cut (∀ effs,
         let out := calls returnsCleanup (fm, effs) (map SetFocused vs) in
         out.2 = effs ++ mjoin (replicate (changes (focused fm) vs)
                                  (map Notify (listeners fm)))
         ∧ focused out.1 = default (focused fm) (last vs)
         ∧ listeners out.1 = listeners fm).
  { intros H. destruct (H []) as (H1 & H2 & H3). unfold isFocused.
    by rewrite H1, H2, H3. }
  revert fm. induction vs as [| v vs IH]; intros fm effs; simpl.
  - by rewrite app_nil_r.
  - unfold setFocused. case_bool_decide as Hv; simpl.
    + destruct (IH (mkFocus v (cleanup fm) (setup fm) (listeners fm))
                   (effs ++ onFocus (mkFocus v (cleanup fm) (setup fm) (listeners fm))))
        as (H1 & H2 & H3).
      simpl in *. rewrite H1, H2, H3. unfold onFocus. simpl.
      rewrite <- app_assoc. split_and!; [done | | done].
      rewrite last_cons. by destruct (last vs).
    + try apply dec_stable in Hv. subst v.
      destruct (IH fm (effs ++ [])) as (H1 & H2 & H3).
      destruct fm. simpl in *. rewrite H1, H2, H3, app_nil_r.
      split_and!; [done | | done].
      rewrite last_cons. by destruct (last vs).
Qed.

End WithTypes.

End FocusManagerFacts.

(** ** The online manager *)
Module OnlineManagerFacts.
Import Subscribable OnlineManager.

Section WithTypes.
Context {Listener SetupFn : Type} `{!EqDecision Listener}.
Variable returnsCleanup : SetupFn → bool.
Implicit Types (om : OnlineManager Listener SetupFn).

(** The values at which the online state changes along a list of values. *)
Fixpoint transitions (current : bool) (vs : list bool) : list bool :=
  match vs with
  | [] => []
  | v :: rest =>
      if bool_decide (v ≠ current) then v :: transitions v rest
      else transitions current rest
  end.

Lemma transitions_head current vs v :
  head (transitions current vs) = Some v → v = negb current.
Proof.
  induction vs as [| x vs IH]; simpl; [done |].
  case_bool_decide as Hx; [| done].
  simpl. intros [= <-]. by destruct x, current.
Qed.

Lemma transitions_consecutive current vs (i : nat) a b :
  transitions current vs !! i = Some a →
  transitions current vs !! S i = Some b →
  b = negb a.
Proof.
  revert current i. induction vs as [| x vs IH]; intros current i; simpl; [done |].
  case_bool_decide as Hx; [| apply IH].
  destruct i as [| i].
  - simpl. intros [= <-] Hb. apply (transitions_head x vs).
    by rewrite <- head_lookup in Hb.
  - simpl. apply IH.
Qed.

(** X19: a run of [setOnline] calls tells the listeners exactly the changes of
    the value: a call with the value the manager already holds (at first
    [true]) notifies nobody; at each change every listener is called, in
    subscription order, with the new value — so the values a listener is
    called with alternate, starting with the opposite of the value the
    manager held; afterwards [isOnline()] answers with the last value. *)
Theorem setOnline_notifies_changes om (vs : list bool) :
  let out := calls returnsCleanup (om, []) (map SetOnline vs) in
  out.2 = flat_map (λ v, map (λ l, Notify l v) (listeners om))
            (transitions (online om) vs)
  ∧ isOnline out.1 = default (online om) (last vs)
  ∧ (∀ v, head (transitions (online om) vs) = Some v → v = negb (online om))
  ∧ (∀ (i : nat) a b,
        transitions (online om) vs !! i = Some a →
        transitions (online om) vs !! S i = Some b → b = negb a).
Proof.
  simpl. split_and!;
    [| | apply transitions_head | intros i a b; apply transitions_consecutive].
  - cut (∀ effs,
           (calls returnsCleanup (om, effs) (map SetOnline vs)).2
           = effs ++ flat_map (λ v, map (λ l, Notify l v) (listeners om))
                       (transitions (online om) vs)); [intros H; apply (H []) |].
    revert om. induction vs as [| v vs IH]; intros om effs; simpl.
    + by rewrite app_nil_r.
    + unfold setOnline. case_bool_decide as Hv; simpl.
      * rewrite IH. simpl. unfold onOnline. simpl. by rewrite <- app_assoc.
      * rewrite app_nil_r. destruct om. apply IH.
  - unfold isOnline.
    cut (∀ effs, online (calls returnsCleanup (om, effs) (map SetOnline vs)).1
                 = default (online om) (last vs)); [intros H; apply (H []) |].
    revert om. induction vs as [| v vs IH]; intros om effs; simpl; [done |].
    unfold setOnline. case_bool_decide as Hv; simpl.
    + rewrite IH. simpl. rewrite last_cons. by destruct (last vs).
    + destruct om as [o c s ls]. simpl in *. subst v.
      rewrite IH. simpl. rewrite last_cons. by destruct (last vs).
Qed.

End WithTypes.

Example online_offline_online :
  (calls (λ _ : nat, true)
     (createOnlineManager (Listener := nat) 0%nat, [])
     [Subscribe 7%nat; SetOnline true; SetOnline false; SetOnline false; SetOnline true]).2
  = [CallSetup 0%nat; Notify 7%nat false; Notify 7%nat true].
Proof. reflexivity. Qed.

End OnlineManagerFacts.

(** ** The garbage-collection timer *)
Module GcManagerFacts.
Import GcManager.

(** The calls an owner makes. *)
Inductive Call :=
| UpdateGcTime (newGcTime : option Span)
| ScheduleGc
| ClearGcTimeout.

Definition call (isServer : bool) (acc : GcManager * list Effect) (c : Call)
  : GcManager * list Effect :=
  match c with
  | UpdateGcTime t => (updateGcTime isServer acc.1 t, acc.2)
  | ScheduleGc => let '(gc, effs) := scheduleGc acc.1 in (gc, acc.2 ++ effs)
  | ClearGcTimeout => let '(gc, effs) := clearGcTimeout acc.1 in (gc, acc.2 ++ effs)
  end.

(** The time spans asked for, with the default for an absent one. *)
Definition requestedSpans (isServer : bool) (cs : list Call) : list Span :=
  omap (λ c, match c with
             | UpdateGcTime t =>
                 Some (default (if isServer then Infinity else Finite 300000) t)
             | _ => None
             end) cs.

(** The timers of a trace that were set and not cleared since. *)
Definition armed (effs : list Effect) : list TimerId :=
  foldl (λ acc eff, match eff with
                    | SetTimeout id _ => acc ++ [id]
                    | ClearTimeout id => filter (λ x, x ≠ id) acc
                    end) [] effs.

Definition recorded (gc : GcManager) : list TimerId :=
  match gcTimeout gc with Some id => [id] | None => [] end.

Lemma armed_snoc effs eff :
  armed (effs ++ [eff])
  = match eff with
    | SetTimeout id _ => armed effs ++ [id]
    | ClearTimeout id => filter (λ x, x ≠ id) (armed effs)
    end.
Proof. unfold armed. by rewrite foldl_app. Qed.

Lemma filter_out_singleton (id : TimerId) : filter (λ x, x ≠ id) [id] = [].
Proof. rewrite filter_cons. by case_decide. Qed.

Lemma clearGcTimeout_armed gc effs :
  armed effs = recorded gc →
  let out := clearGcTimeout gc in
  armed (effs ++ out.2) = [] ∧ gcTimeout out.1 = None ∧ gcTime out.1 = gcTime gc.
Proof.
  unfold recorded, clearGcTimeout. intros Ha.
  destruct (gcTimeout gc) as [id |] eqn:Hid; simpl.
  - by rewrite armed_snoc, Ha, filter_out_singleton.
  - by rewrite app_nil_r.
Qed.

Lemma scheduleGc_armed gc effs :
  armed effs = recorded gc →
  let out := scheduleGc gc in
  armed (effs ++ out.2) = recorded out.1 ∧ gcTime out.1 = gcTime gc.
Proof.
  intros Ha. unfold scheduleGc.
  pose proof (clearGcTimeout_armed gc effs Ha) as (H1 & H2 & H3).
  destruct (clearGcTimeout gc) as [gc1 effs1]. simpl in *.
  unfold recorded. rewrite H3.
  destruct (gcTime gc) as [[ms |] |] eqn:Hgt; simpl; rewrite ?H1, ?H2; try done.
  destruct (0 <=? ms); simpl; rewrite ?H1, ?H2; try done.
  rewrite app_assoc, armed_snoc, H1. done.
Qed.

Lemma calls_inv isServer (cs : list Call) :
  let out := foldl (call isServer) (createGcManager, []) cs in
  gcTime out.1
  = match requestedSpans isServer cs with
    | [] => None
    | spans => Some (foldl spanMax (Finite 0) spans)
    end
  ∧ armed out.2 = recorded out.1.
Proof.
  induction cs as [| c cs IH] using rev_ind; [done |].
  rewrite foldl_app. simpl.
  destruct (foldl (call isServer) (createGcManager, []) cs) as [gc effs].
  destruct IH as [Ht Ha]. simpl in *.
  unfold requestedSpans in *. rewrite omap_app. simpl.
  destruct c as [t | |]; simpl.
  - split; [| done]. unfold updateGcTime. simpl. rewrite Ht.
    destruct (omap _ cs) as [| s spans] eqn:Hspans; simpl; [done |].
    rewrite foldl_app. simpl.
    match goal with |- context [foldl spanMax ?a spans] => set (acc := foldl spanMax a spans) end.
    assert (H : match acc with Finite 0 => Finite 0 | _ => acc end = acc).
    { by destruct acc as [[| |] |]. }
    by rewrite H.
  - rewrite app_nil_r.
    pose proof (scheduleGc_armed gc effs Ha) as [H1 H2].
    destruct (scheduleGc gc) as [gc' effs']. simpl in *. by rewrite H2.
  - rewrite app_nil_r.
    pose proof (clearGcTimeout_armed gc effs Ha) as (H1 & H2 & H3).
    destruct (clearGcTimeout gc) as [gc' effs']. simpl in *.
    unfold recorded. by rewrite H1, H2, H3.
Qed.

Lemma foldl_spanMax_nonneg (l : list Span) ms :
  foldl spanMax (Finite 0) l = Finite ms → 0 ≤ ms.
Proof.
  revert ms. induction l as [| x l IH] using rev_ind; intros ms.
  - simpl. intros H. inversion H. lia.
  - rewrite foldl_app. simpl.
    destruct (foldl spanMax (Finite 0) l) as [y |]; [| done].
    destruct x as [x |]; simpl; [| done].
    intros H. inversion H. pose proof (IH y eq_refl). lia.
Qed.

Lemma scheduleGc_arms gc :
  match gcTime gc with
  | Some (Finite ms) =>
      0 ≤ ms →
      ∃ id, gcTimeout (scheduleGc gc).1 = Some id
            ∧ last (scheduleGc gc).2 = Some (SetTimeout id ms)
  | _ => gcTimeout (scheduleGc gc).1 = None
  end.
Proof.
  destruct gc as [[[ms |] |] [id |] n]; unfold scheduleGc; simpl; try done;
    intros Hms; rewrite (proj2 (Z.leb_le 0 ms) Hms); simpl; by eexists.
Qed.

(** X20: however its owner calls it, the garbage-collection manager keeps as
    [gcTime] the largest time span it was ever asked for (an absent one
    counting as five minutes, or as [Infinity] on the server), and never
    less than 0 — a later, shorter [gcTime] does not shorten it; it never
    has more than one timer armed, the one it records; and [scheduleGc] arms
    a timer exactly when [gcTime] is a finite span, whose delay is then
    [gcTime]. *)
Theorem gc_time_only_grows isServer (cs : list Call) :
  let out := foldl (call isServer) (createGcManager, []) cs in
  gcTime out.1
  = match requestedSpans isServer cs with
    | [] => None
    | spans => Some (foldl spanMax (Finite 0) spans)
    end
  ∧ armed out.2 = match gcTimeout out.1 with Some id => [id] | None => [] end
  ∧ (let after := scheduleGc out.1 in
     match gcTime out.1 with
     | Some (Finite ms) =>
         0 ≤ ms ∧ ∃ id, gcTimeout after.1 = Some id ∧ last after.2 = Some (SetTimeout id ms)
     | _ => gcTimeout after.1 = None
     end).
Proof.
  intros out. destruct (calls_inv isServer cs) as [Ht Ha]. fold out in Ht, Ha.
  split_and!; [done | done |].
  assert (Hpos : ∀ ms, gcTime out.1 = Some (Finite ms) → 0 ≤ ms).
  { rewrite Ht. destruct (requestedSpans isServer cs) as [| s spans]; [done |].
    intros ms H. apply (foldl_spanMax_nonneg (s :: spans)). congruence. }
  pose proof (scheduleGc_arms out.1) as Harm.
  destruct (gcTime out.1) as [[ms |] |] eqn:Hgt; [| done | done].
  split; [by apply Hpos |]. apply Harm. by apply Hpos.
Qed.

(** Two observers of one entry ask for 1 s and for 10 s; the entry is
    then collected after 10 s. *)
Example longest_gc_time_wins :
  let out := foldl (call false) (createGcManager, [])
               [UpdateGcTime (Some (Finite 10000)); UpdateGcTime (Some (Finite 1000));
                ScheduleGc; ScheduleGc] in
  gcTime out.1 = Some (Finite 10000)
  ∧ out.2 = [SetTimeout 0%nat 10000; ClearTimeout 0%nat; SetTimeout 1%nat 10000]
  ∧ armed out.2 = [1%nat].
Proof. vm_compute. done. Qed.

End GcManagerFacts.

(** ** Partial matching of keys *)
Module SharingFacts.
Import Sharing.

Section Refs.
Context {number : Type}.
Variable numberEq : number → number → bool.

#[local] Abbreviation strictEq := (strictEq numberEq).

Implicit Types (a b c v : RValue number) (next : Ref).

(** Induction over values, with the items of arrays and the property
    values of objects. *)
Lemma RValue_induction (P : RValue number → Prop) :
  P RUndefined → P RNull → (∀ x, P (RBool x)) → (∀ n, P (RNumber n)) →
  (∀ s, P (RStr s)) →
  (∀ r items, Forall P items → P (RArray r items)) →
  (∀ r plain props, Forall (λ p, P p.2) props → P (RObject r plain props)) →
  ∀ v, P v.
Proof.
  intros Hu Hn Hb Hnum Hs Ha Ho.
  fix IH 1. intros [| | x | n | s | r items | r plain props].
  - exact Hu.
  - exact Hn.
  - apply Hb.
  - apply Hnum.
  - apply Hs.
  - apply Ha. induction items as [| x items IHl]; constructor; [apply IH | apply IHl].
  - apply Ho. induction props as [| p props IHl]; constructor; [apply IH | apply IHl].
Qed.

(** Equality by content: two values are alike when they are related as
    leaves, or are arrays with items alike one by one, or are plain objects
    with the same keys and the values under each key alike. *)
Section Alike.
Variable leaf : RValue number → RValue number → Prop.

Inductive alike : RValue number → RValue number → Prop :=
| alike_leaf a b : leaf a b → alike a b
| alike_array r r' xs ys :
    Forall2 alike xs ys → alike (RArray r xs) (RArray r' ys)
| alike_object r r' xps yps :
    map fst xps ≡ₚ map fst yps →
    Forall (λ p, alike (propGet xps p.1) p.2) yps →
    alike (RObject r true xps) (RObject r' true yps).
End Alike.

(** Deep equality: the leaves are [===], so that no NaN is involved, and
    the same object or array is equal to itself. *)
Definition deepEqual : RValue number → RValue number → Prop :=
  alike (λ a b, strictEq a b = true).

#[local] Abbreviation partialMatchKey := (partialMatchKey numberEq).
#[local] Abbreviation matchItems := (matchItems partialMatchKey).
#[local] Abbreviation matchProps := (matchProps partialMatchKey).

Lemma partialMatchKey_strict a b : strictEq a b = true → partialMatchKey a b = true.
Proof. intros H. destruct b; simpl; by rewrite H. Qed.

Lemma matchItems_alike xs ys r :
  Forall (λ b, ∀ a, deepEqual a b → partialMatchKey a b = true) ys →
  ∀ (i : nat),
    (∀ (j : nat) y, ys !! j = Some y → deepEqual (itemGet xs (i + j)) y) →
    matchItems (RArray r xs) i ys = true.
Proof.
  induction 1 as [| y ys Hy _ IH]; intros i Hall; simpl; [done |].
  apply andb_true_iff. split.
  - apply Hy. specialize (Hall O y eq_refl). by rewrite Nat.add_0_r in Hall.
  - apply IH. intros j y' Hj. specialize (Hall (S j) y' Hj).
    by rewrite Nat.add_succ_r in Hall.
Qed.

Lemma matchProps_alike xps yps r plain :
  Forall (λ p, ∀ a, deepEqual a p.2 → partialMatchKey a p.2 = true) yps →
  Forall (λ p, deepEqual (propGet xps p.1) p.2) yps →
  matchProps (RObject r plain xps) yps = true.
Proof.
  induction 1 as [| p yps Hp _ IH]; intros Hall; simpl; [done |].
  apply Forall_cons in Hall as [H0 Hall].
  apply andb_true_iff. split; [by apply Hp | by apply IH].
Qed.

(** X23: a key matches every key equal to it in content, whatever arrays and
    objects hold that content: [partialMatchKey(a, b)] is true when [a] and
    [b] are deeply equal. *)
Theorem equal_keys_match a b :
  deepEqual a b → partialMatchKey a b = true.
Proof.
  revert a.
  induction b as [| | x | n | s | r ys IH | r plain yps IH] using RValue_induction;
    intros a Hab.
  1-5: inversion Hab as [a' b' H | |]; subst; by apply partialMatchKey_strict.
  - inversion Hab as [a' b' H | r1 r2 xs ys' Hall | ]; subst;
      [by apply partialMatchKey_strict |].
    simpl. destruct (Nat.eqb r1 r); [done |]. simpl.
    apply matchItems_alike; [done |].
    intros j y Hj. simpl.
    destruct (Forall2_lookup_r _ _ _ _ _ Hall Hj) as (x & Hx & Hxy).
    unfold itemGet. by rewrite (nth_lookup_Some _ _ _ _ Hx).
  - inversion Hab as [a' b' H | | r1 r2 xps yps' Hperm Hall]; subst;
      [by apply partialMatchKey_strict |].
    simpl. destruct (Nat.eqb r1 r); [done |]. simpl.
    by apply matchProps_alike.
Qed.

(** X24: the match of [matchQueryInfo] and [matchMutationInfo] without [exact]:
    the full key of a query, [getFullKey(key, variables)], is matched by the
    full key of a filter when the two keys are the same string and the
    filter has no variables, or variables that partially match those of the
    query.  The two full keys are two arrays. *)
Theorem filter_without_variables_matches_key key variables r key' variables' r' :
  r ≠ r' →
  partialMatchKey (getFullKey key variables r) (getFullKey key' variables' r')
  = String.eqb key key'
    && (isUndefined variables' || partialMatchKey variables variables').
Proof.
  intros Hr. apply Nat.eqb_neq in Hr.
  assert (∀ k k', partialMatchKey (RStr k) (RStr k') = String.eqb k k') as Hstr.
  { intros k k'. simpl. by destruct (String.eqb k k'). }
  unfold getFullKey.
  destruct variables'; destruct variables; cbn -[partialMatchKey String.eqb];
    rewrite ?Hstr; simpl; rewrite ?Hr; simpl;
    rewrite ?andb_true_r; try done;
    repeat match goal with |- context [String.eqb ?x ?y] => destruct (String.eqb x y) end;
    simpl; done.
Qed.

End Refs.

(** Data with numbers in [Z]: a todo as it is cached, and as it is fetched
    again, parsed into new objects. *)
Definition cachedTodo : RValue Z :=
  RObject 1%nat true [("id", RNumber 7%Z); ("tags", RArray 2%nat [RStr "home"; RStr "urgent"])].

Definition sameTodo : RValue Z :=
  RObject 11%nat true [("tags", RArray 12%nat [RStr "home"; RStr "urgent"]); ("id", RNumber 7%Z)].

Lemma sameTodo_deepEqual : deepEqual Z.eqb cachedTodo sameTodo.
Proof.
  apply alike_object; [apply Permutation_swap |].
  apply Forall_cons_2; [| apply Forall_cons_2; [| apply Forall_nil_2]]; simpl.
  - apply alike_array. repeat apply Forall2_cons_2; by try apply alike_leaf.
  - by apply alike_leaf.
Qed.

Lemma equal_keys_match_witness :
  deepEqual Z.eqb cachedTodo sameTodo
  ∧ partialMatchKey Z.eqb cachedTodo sameTodo = true.
Proof.
  split; [exact sameTodo_deepEqual |].
  apply (equal_keys_match Z.eqb). exact sameTodo_deepEqual.
Defined.

Lemma filter_without_variables_matches_key_witness :
  1%nat ≠ 2%nat
  ∧ partialMatchKey Z.eqb (getFullKey "todos" cachedTodo 1%nat) (getFullKey "todos" RUndefined 2%nat)
    = true.
Proof.
  assert (1%nat ≠ 2%nat) as Hne by lia.
  split; [exact Hne |].
  by rewrite (filter_without_variables_matches_key Z.eqb "todos" cachedTodo 1%nat
                "todos" RUndefined 2%nat Hne).
Defined.
End SharingFacts.

(** ** Structural sharing *)
Module StructuralSharingFacts.
Import StructuralSharing.

Section Refs.
Context {number : Type}.
Variable numberEq : number → number → bool.

#[local] Abbreviation strictEq := (strictEq numberEq).
#[local] Abbreviation replaceEqualDeep := (replaceEqualDeep numberEq).
#[local] Abbreviation replaceItems := (replaceItems numberEq replaceEqualDeep).
#[local] Abbreviation replaceProps := (replaceProps numberEq replaceEqualDeep).

Implicit Types (a b c v : Value number) (next : Ref)
         (ps xps yps : list (string * Value number)).

(** Induction over values, with the items of arrays and the property
    values of objects. *)
Lemma Value_induction (P : Value number → Prop) :
  P Undefined → P Null → (∀ x, P (Bool x)) → (∀ n, P (Number n)) →
  (∀ s, P (Str s)) →
  (∀ r items, Forall P items → P (Array r items)) →
  (∀ r proto props, Forall (λ p, P p.2) props → P (Object r proto props)) →
  (∀ h, P (Host h)) →
  ∀ v, P v.
Proof.
  intros Hu Hn Hb Hnum Hs Ha Ho Hh.
  fix IH 1. intros [| | x | n | s | r items | r proto props | h].
  - exact Hu.
  - exact Hn.
  - apply Hb.
  - apply Hnum.
  - apply Hs.
  - apply Ha. induction items as [| x items IHl]; constructor; [apply IH | apply IHl].
  - apply Ho. induction props as [| p props IHl]; constructor; [apply IH | apply IHl].
  - apply Hh.
Qed.

(** The body of [replaceEqualDeep], case by case. *)
Lemma replaceEqualDeep_strict a b next :
  strictEq a b = true → replaceEqualDeep a b next = Returned (a, next).
Proof. intros H. destruct b; simpl; by rewrite H. Qed.

Lemma replaceEqualDeep_arrays r xs r' ys next :
  strictEq (Array r xs) (Array r' ys) = false →
  replaceEqualDeep (Array r xs) (Array r' ys) next
  = match replaceItems xs ys [] O (S next) with
    | Returned (copy, equalItems, next') =>
        if Nat.eqb (length xs) (length ys) && Nat.eqb equalItems (length xs)
        then Returned (Array r xs, next')
        else Returned (Array next copy, next')
    | Threw => Threw
    | Unmodelled => Unmodelled
    end.
Proof. intros H. cbn [StructuralSharing.replaceEqualDeep]. by rewrite H. Qed.

Lemma replaceEqualDeep_object a r proto yps next :
  strictEq a (Object r proto yps) = false →
  replaceEqualDeep a (Object r proto yps) next
  = match bothPlain a (Object r proto yps) with
    | Plain =>
        match replaceProps a yps next (ObjectPrototype, []) O (S next) with
        | Returned (copy, equalItems, next') =>
            if Nat.eqb (length (ownProps a)) (length yps)
               && Nat.eqb equalItems (length (ownProps a))
            then Returned (a, next')
            else Returned (Object next copy.1 copy.2, next')
        | Threw => Threw
        | Unmodelled => Unmodelled
        end
    | NotPlain => Returned (Object r proto yps, next)
    | TypeError => Threw
    | OtherCall => Unmodelled
    end.
Proof.
  intros H. cbn [StructuralSharing.replaceEqualDeep]. rewrite H. by destruct a.
Qed.

(** Against a value that [isPlainObject] rejects, and short of two
    arrays, [b] is returned. *)
Lemma replaceEqualDeep_other a b next :
  strictEq a b = false →
  isPlainObject b = NotPlain →
  match a, b with Array _ _, Array _ _ => False | _, _ => True end →
  replaceEqualDeep a b next
  = match isPlainObject a with
    | Plain | NotPlain => Returned (b, next)
    | TypeError => Threw
    | OtherCall => Unmodelled
    end.
Proof.
  intros H Hb Hab.
  assert (Hboth : bothPlain a b = match isPlainObject a with
                                  | Plain => NotPlain
                                  | verdict => verdict
                                  end).
  { unfold bothPlain. by rewrite Hb. }
  destruct b as [| | x | n | s | r' ys | r' proto yps | h];
    cbn [StructuralSharing.replaceEqualDeep]; rewrite H;
    destruct a as [| | x' | n' | s' | r xs | r xproto xps | h']; try done;
    rewrite Hboth; clear Hb Hboth;
    first [ done
          | by destruct (isPlainObject (Object _ _ _))
          | by destruct (isPlainObject (Host _)) ].
Qed.

(** *** Own properties *)

Lemma hasKey_own ps k : hasKey ps k = true ↔ k ∈ map fst ps.
Proof.
  unfold hasKey. rewrite existsb_exists, list_elem_of_fmap.
  split.
  - intros (p & Hin & Heq). apply String.eqb_eq in Heq.
    exists p. split; [done | by apply list_elem_of_In].
  - intros (p & -> & Hin). exists p.
    split; [by apply list_elem_of_In | apply String.eqb_refl].
Qed.

Lemma hasKey_not_own ps k : hasKey ps k = false ↔ k ∉ map fst ps.
Proof. rewrite <- hasKey_own. by destruct (hasKey ps k). Qed.

Lemma objGet_not_own ps k : k ∉ map fst ps → objGet ps k = Undefined.
Proof.
  induction ps as [| [k' v'] ps IH]; simpl; [done |].
  intros Hk. apply not_elem_of_cons in Hk as [Hne Hk].
  destruct (String.eqb_spec k' k) as [-> | _]; [done | by apply IH].
Qed.

Lemma objGet_app ps qs k :
  objGet (ps ++ qs) k = if hasKey ps k then objGet ps k else objGet qs k.
Proof.
  induction ps as [| [k' v'] ps IH]; simpl; [done |].
  by destruct (String.eqb k' k).
Qed.

Lemma hasKey_app ps qs k : hasKey (ps ++ qs) k = hasKey ps k || hasKey qs k.
Proof. unfold hasKey. apply existsb_app. Qed.

Lemma replaceValue_get ps k v :
  hasKey ps k = true →
  hasKey (replaceValue ps k v) k = true ∧ objGet (replaceValue ps k v) k = v.
Proof.
  induction ps as [| [k' x] ps IH]; simpl; [done |].
  destruct (String.eqb k' k) eqn:Hk; simpl; rewrite Hk; simpl; [done |].
  apply IH.
Qed.

(** Reading a property that was just assigned. *)
Lemma setOwn_get ps k v :
  hasKey (setOwn ps k v) k = true ∧ objGet (setOwn ps k v) k = v.
Proof.
  unfold setOwn. destruct (hasKey ps k) eqn:Hk; [by apply replaceValue_get |].
  rewrite hasKey_app, objGet_app, Hk. simpl. by rewrite String.eqb_refl.
Qed.

Lemma assign_ordinary proto ps k v :
  k ≠ "__proto__"%string → assign (proto, ps) k v = Some (proto, setOwn ps k v).
Proof.
  intros Hk. unfold assign.
  by destruct (String.eqb_spec k "__proto__").
Qed.

Lemma get_own r proto ps k :
  k ∈ map fst ps → get (Object r proto ps) k = objGet ps k.
Proof. intros Hk. apply hasKey_own in Hk. simpl. by rewrite Hk. Qed.

(** *** Unchanged data keeps its reference *)

(** Without a property [constructor] of its own, an object of the data
    is plain. *)
Lemma isPlainObject_without_constructor r proto ps :
  "constructor"%string ∉ map fst ps → isPlainObject (Object r proto ps) = Plain.
Proof.
  intros Hkey. apply hasKey_not_own in Hkey.
  unfold isPlainObject. simpl. rewrite Hkey. by destruct proto.
Qed.

(** Deep equality of data: two values are deeply equal when they are
    [===], or are arrays with deeply equal items one by one, or are
    objects with the same keys in whatever order, none of them
    [constructor] or [__proto__], and deeply equal values under each
    key. *)
Inductive deepEqual : Value number → Value number → Prop :=
| deepEqual_leaf a b : strictEq a b = true → deepEqual a b
| deepEqual_array r r' xs ys :
    Forall2 deepEqual xs ys → deepEqual (Array r xs) (Array r' ys)
| deepEqual_object r xproto xps r' yproto yps :
    "constructor"%string ∉ map fst yps →
    "__proto__"%string ∉ map fst yps →
    map fst xps ≡ₚ map fst yps →
    Forall (λ p, deepEqual (objGet xps p.1) p.2) yps →
    deepEqual (Object r xproto xps) (Object r' yproto yps).

Section Identity.
(** [x === y] makes [x] a number equal to itself. *)
Hypothesis numberEq_refl : ∀ x y, numberEq x y = true → numberEq x x = true.

Lemma strictEq_refl_l a b : strictEq a b = true → strictEq a a = true.
Proof.
  destruct a, b; simpl; try done; intros H;
    first [ by apply bool_decide_eq_true | by eapply numberEq_refl
          | apply String.eqb_refl | apply Nat.eqb_refl ].
Qed.

Lemma deepEqual_refl_l a b : deepEqual a b → strictEq a a = true.
Proof.
  intros [a' b' H | r r' xs ys _ | r xproto xps r' yproto yps _ _ _ _].
  - by apply strictEq_refl_l in H.
  - apply Nat.eqb_refl.
  - apply Nat.eqb_refl.
Qed.

#[local] Abbreviation Keeps b :=
  (∀ a next, deepEqual a b → ∃ next', replaceEqualDeep a b next = Returned (a, next')).

Lemma replaceItems_equal xs ys :
  Forall (λ b, Keeps b) ys →
  ∀ copy (n : nat) next,
    (∀ (j : nat) y, ys !! j = Some y → deepEqual (itemGet xs (length copy + j)) y) →
    ∃ copy' next',
      replaceItems xs ys copy n next = Returned (copy', (n + length ys)%nat, next').
Proof.
  induction 1 as [| y ys Hy _ IH]; intros copy n next Hall.
  { simpl. rewrite Nat.add_0_r. eauto. }
  simpl.
  pose proof (Hall O y eq_refl) as H0. rewrite Nat.add_0_r in H0.
  destruct (Hy _ next H0) as [next1 ->].
  assert (Hread : itemGet (copy ++ [itemGet xs (length copy)]) (length copy)
                  = itemGet xs (length copy)).
  { unfold itemGet at 1. by rewrite app_nth2, Nat.sub_diag by lia. }
  rewrite Hread, (deepEqual_refl_l _ _ H0).
  destruct (IH (copy ++ [itemGet xs (length copy)]) (S n) next1) as (copy' & next' & ->).
  - intros j y' Hj. rewrite length_app. simpl.
    replace (length copy + 1 + j)%nat with (length copy + S j)%nat by lia.
    by apply (Hall (S j)).
  - exists copy', next'. do 3 f_equal. lia.
Qed.

Lemma replaceProps_equal r xproto xps yps :
  Forall (λ p, Keeps p.2) yps →
  ∀ ref cps (n : nat) next,
    Forall (λ p, p.1 ≠ "__proto__"%string ∧ p.1 ∈ map fst xps
                 ∧ deepEqual (objGet xps p.1) p.2) yps →
    ∃ cps' next',
      replaceProps (Object r xproto xps) yps ref (ObjectPrototype, cps) n next
      = Returned ((ObjectPrototype, cps'), (n + length yps)%nat, next').
Proof.
  induction 1 as [| [key y] yps Hp _ IH]; intros ref cps n next Hall.
  { simpl. rewrite Nat.add_0_r. eauto. }
  apply Forall_cons in Hall as [(Hkey & Hin & H0) Hall]. simpl in Hkey, Hin, H0, Hp.
  cbn [StructuralSharing.replaceProps].
  rewrite (get_own r xproto xps key Hin).
  destruct (Hp _ next H0) as [next1 ->].
  rewrite (assign_ordinary _ _ _ _ Hkey). cbn [fst snd].
  destruct (setOwn_get cps key (objGet xps key)) as [Hhas Hget].
  assert (Hread : get (Object ref ObjectPrototype (setOwn cps key (objGet xps key))) key
                  = objGet xps key).
  { simpl. by rewrite Hhas. }
  rewrite Hread, (deepEqual_refl_l _ _ H0).
  destruct (IH ref (setOwn cps key (objGet xps key)) (S n) next1 Hall)
    as (cps' & next' & ->).
  exists cps', next'. do 3 f_equal. simpl. lia.
Qed.

(** X21: structural sharing keeps the reference of unchanged data: when
    the new value [b] is deeply equal to the old value [a] — [===]
    leaves, arrays equal item by item, objects with the same keys in
    whatever order, none of them [constructor] or [__proto__], and deeply
    equal values — [replaceEqualDeep(a, b)] returns [a] itself. *)
Theorem deeply_equal_data_keeps_its_reference a b next :
  deepEqual a b →
  ∃ next', replaceEqualDeep a b next = Returned (a, next').
Proof.
  revert a next.
  induction b as [| | x | n | s | r ys IH | r proto yps IH | h] using Value_induction;
    intros a next Hab.
  1-5, 8: inversion Hab as [a' b' H | |]; subst;
    rewrite replaceEqualDeep_strict by done; eauto.
  - destruct (strictEq a (Array r ys)) eqn:Hs;
      [rewrite replaceEqualDeep_strict by done; eauto |].
    inversion Hab as [a' b' H | r1 r2 xs ys' Hall | ]; subst; [congruence |].
    rewrite replaceEqualDeep_arrays by done.
    destruct (replaceItems_equal xs ys IH [] O (S next)) as (copy & next' & ->).
    + intros j y Hj. simpl.
      destruct (Forall2_lookup_r _ _ _ _ _ Hall Hj) as (x & Hx & Hxy).
      unfold itemGet. by rewrite (nth_lookup_Some _ _ _ _ Hx).
    + simpl. rewrite (Forall2_length _ _ _ Hall), !Nat.eqb_refl. simpl. eauto.
  - destruct (strictEq a (Object r proto yps)) eqn:Hs;
      [rewrite replaceEqualDeep_strict by done; eauto |].
    inversion Hab as [a' b' H | | r1 xproto xps r2 yproto yps' Hctor Hproto Hperm Hall];
      subst; [congruence |].
    rewrite replaceEqualDeep_object by done.
    unfold bothPlain.
    rewrite !isPlainObject_without_constructor by (by rewrite ?Hperm).
    destruct (replaceProps_equal r1 xproto xps yps IH next [] O (S next))
      as (cps & next' & ->).
    + apply Forall_forall. intros p Hin.
      rewrite Forall_forall in Hall. split_and!.
      * intros Heq. apply Hproto. rewrite <- Heq.
        apply list_elem_of_fmap. by exists p.
      * rewrite Hperm. apply list_elem_of_fmap. by exists p.
      * by apply Hall.
    + simpl. apply Permutation_length in Hperm. rewrite !length_map in Hperm.
      rewrite Hperm, !Nat.eqb_refl. simpl. eauto.
Qed.

End Identity.

(** *** Shared data has the content of the new data *)

(** The references held by a value. *)
Fixpoint refs (v : Value number) : list Ref :=
  match v with
  | Array r items => r :: flat_map refs items
  | Object r _ props => r :: flat_map (λ p, refs p.2) props
  | _ => []
  end.

(** [next] is a reference that [v] does not hold, nor any greater one. *)
Definition refsBelow (next : Ref) (v : Value number) : Prop :=
  Forall (λ r, r < next)%nat (refs v).

(** Values as [JSON.parse] gives them, [undefined] apart: an object has
    each key once, no key [__proto__], and no property whose value is
    [undefined]; no value is a built-in object. *)
Inductive json : Value number → Prop :=
| json_undefined : json Undefined
| json_null : json Null
| json_bool x : json (Bool x)
| json_number n : json (Number n)
| json_str s : json (Str s)
| json_array r items : Forall json items → json (Array r items)
| json_object r proto props :
    NoDup (map fst props) →
    "__proto__"%string ∉ map fst props →
    Forall (λ p, p.2 ≠ Undefined ∧ json p.2) props →
    json (Object r proto props).

(** [c] has the content of [b]: it is [b], or [===] to it, or an array
    with the content of [b] item by item, or an object with the keys of
    [b] and the content of [b] under each key; [Object.prototype], which
    has no enumerable property, has the content of an empty object. *)
Inductive sameContent : Value number → Value number → Prop :=
| content_leaf c b : c = b ∨ strictEq c b = true → sameContent c b
| content_array r r' xs ys :
    Forall2 sameContent xs ys → sameContent (Array r xs) (Array r' ys)
| content_object r cproto cps r' proto yps :
    map fst cps ≡ₚ map fst yps →
    Forall (λ p, sameContent (objGet cps p.1) p.2) yps →
    sameContent (Object r cproto cps) (Object r' proto yps)
| content_prototype r' proto :
    sameContent (Host TheObjectPrototype) (Object r' proto []).

(** [isPlainObject] returns on every value inside [v]: it neither throws
    nor calls another built-in function. *)
Fixpoint decided (v : Value number) : Prop :=
  (isPlainObject v = Plain ∨ isPlainObject v = NotPlain)
  ∧ match v with
    | Array _ items =>
        (fix all (l : list (Value number)) : Prop :=
           match l with [] => True | x :: r => decided x ∧ all r end) items
    | Object _ _ props =>
        (fix all (l : list (string * Value number)) : Prop :=
           match l with [] => True | p :: r => decided p.2 ∧ all r end) props
    | _ => True
    end.

(** The reference of an array or an object. *)
Definition topRef (v : Value number) : option Ref :=
  match v with
  | Array r _ | Object r _ _ => Some r
  | _ => None
  end.

Lemma decided_verdict v : decided v → isPlainObject v = Plain ∨ isPlainObject v = NotPlain.
Proof. destruct v; simpl; tauto. Qed.

Lemma decided_array r xs : decided (Array r xs) → Forall decided xs.
Proof.
  simpl. intros [_ H]. induction xs as [| x xs IH]; [constructor |].
  destruct H. constructor; eauto.
Qed.

Lemma decided_object r proto ps : decided (Object r proto ps) → Forall (λ p, decided p.2) ps.
Proof.
  cbn [decided]. intros [_ H]. induction ps as [| p ps IH]; [constructor |].
  destruct H. constructor; eauto.
Qed.

Lemma decided_leaf v :
  match v with Array _ _ | Object _ _ _ => False | _ => True end → decided v.
Proof.
  destruct v as [| | | | | | | [| |]]; try done; simpl; split; auto.
Qed.

Lemma decided_item xs (i : nat) : Forall decided xs → decided (itemGet xs i).
Proof.
  unfold itemGet. intros H. revert i.
  induction H as [| x xs Hx _ IH]; intros [| i]; simpl; try done;
    try (split; auto; fail).
Qed.

Lemma decided_objGet ps k : Forall (λ p, decided p.2) ps → decided (objGet ps k).
Proof.
  induction 1 as [| [k' x] ps Hx _ IH]; simpl; [split; auto |].
  by destruct (String.eqb k' k).
Qed.

Lemma decided_objectPrototypeGet v k : decided v → decided (objectPrototypeGet v k).
Proof.
  intros Hv. unfold objectPrototypeGet.
  destruct (String.eqb k "__proto__"); [done |].
  destruct (String.eqb k "constructor"); [by apply decided_leaf |].
  case_bool_decide; by apply decided_leaf.
Qed.

Lemma decided_get a k : decided a → decided (get a k).
Proof.
  intros Ha. destruct a as [| | | | | | r proto ps | [| |]]; try (by apply decided_leaf).
  - simpl. destruct (hasKey ps k).
    + apply decided_objGet. by eapply decided_object.
    + destruct proto; [| by apply decided_leaf].
      apply decided_objectPrototypeGet. by apply decided_leaf.
  - simpl. apply decided_objectPrototypeGet. by apply decided_leaf.
Qed.

Lemma refsBelow_mono next next' v :
  (next ≤ next')%nat → refsBelow next v → refsBelow next' v.
Proof.
  intros Hle H. eapply Forall_impl; [exact H |]. intros r Hr. simpl in *. lia.
Qed.

Lemma refsBelow_item next r xs (i : nat) :
  refsBelow next (Array r xs) → refsBelow next (itemGet xs i).
Proof.
  unfold refsBelow. simpl. intros H. apply Forall_cons in H as [_ H].
  unfold itemGet. revert i. induction xs as [| x xs IH]; intros i.
  - destruct i; constructor.
  - simpl in H. apply Forall_app in H as [Hx Hxs]. destruct i; simpl; [done |].
    by apply IH.
Qed.

Lemma refsBelow_objGet next ps key :
  Forall (λ r, r < next)%nat (flat_map (λ p, refs p.2) ps) →
  refsBelow next (objGet ps key).
Proof.
  induction ps as [| [k v] ps IH]; simpl; intros H.
  - constructor.
  - apply Forall_app in H as [Hv Hps].
    destruct (String.eqb k key); [done | by apply IH].
Qed.

Lemma refsBelow_objectPrototypeGet next v k :
  refsBelow next v → refsBelow next (objectPrototypeGet v k).
Proof.
  intros Hv. unfold objectPrototypeGet.
  destruct (String.eqb k "__proto__"); [done |].
  destruct (String.eqb k "constructor"); [constructor |].
  case_bool_decide; constructor.
Qed.

Lemma refsBelow_get next a key : refsBelow next a → refsBelow next (get a key).
Proof.
  intros Ha. destruct a as [| | | | | | r proto ps | [| |]]; try constructor.
  - simpl. unfold refsBelow in Ha. simpl in Ha. apply Forall_cons in Ha as [_ Ha].
    destruct (hasKey ps key); [by apply refsBelow_objGet |].
    destruct proto; [| constructor].
    apply refsBelow_objectPrototypeGet. constructor.
  - simpl. apply refsBelow_objectPrototypeGet. constructor.
Qed.

Lemma fresh_not_strictEq next c a :
  topRef c = Some next → refsBelow next a → strictEq c a = false.
Proof.
  unfold refsBelow. destruct c, a; simpl; try done.
  - intros [= ->] H. apply Forall_cons in H as [H _]. apply Nat.eqb_neq. lia.
  - intros [= ->] H. apply Forall_cons in H as [H _]. apply Nat.eqb_neq. lia.
Qed.

Lemma sameContent_undefined b : sameContent Undefined b → b = Undefined.
Proof.
  intros H. inversion H as [c b' [<- | Hs] | | |]; subst; [done |].
  by destruct b.
Qed.

(** A built-in function has the content of no JSON value. *)
Lemma sameContent_function h b :
  h ≠ TheObjectPrototype → json b → ¬ sameContent (Host h) b.
Proof.
  intros Hh Hb H. inversion H as [c b' [<- | Hs] | | |]; subst.
  - inversion Hb.
  - destruct b; try done. inversion Hb.
  - done.
Qed.

(** What a plain object inherits under a key other than [__proto__] has
    the content of no JSON value but [undefined]. *)
Lemma inherited_content a key b :
  isPlainObject a = Plain →
  key ≠ "__proto__"%string → key ∉ map fst (ownProps a) →
  json b → b ≠ Undefined → ¬ sameContent (get a key) b.
Proof.
  intros Hplain Hkey Hown Hb Hdef.
  assert (Hin : ∀ v, ¬ sameContent (objectPrototypeGet v key) b).
  { intros v. unfold objectPrototypeGet.
    destruct (String.eqb_spec key "__proto__"); [done |].
    destruct (String.eqb key "constructor"); [by apply sameContent_function |].
    case_bool_decide; [by apply sameContent_function |].
    intros Hu. by apply sameContent_undefined in Hu. }
  destruct a as [| | | | | | r proto ps | [| |]]; try done.
  - simpl in Hown |- *. apply hasKey_not_own in Hown. rewrite Hown.
    destruct proto; [apply Hin |].
    intros Hu. by apply sameContent_undefined in Hu.
  - apply Hin.
Qed.

(** No object inside [v] has a property [constructor] of its own. *)
Fixpoint noConstructor (v : Value number) : Prop :=
  match v with
  | Array _ items =>
      (fix all (l : list (Value number)) : Prop :=
         match l with [] => True | x :: r => noConstructor x ∧ all r end) items
  | Object _ _ props =>
      ("constructor"%string ∉ map fst props)
      ∧ (fix all (l : list (string * Value number)) : Prop :=
           match l with [] => True | p :: r => noConstructor p.2 ∧ all r end) props
  | _ => True
  end.

(** Without own [constructor], every object inherits [Object] as its
    constructor or has none: [isPlainObject] returns. *)
Lemma noConstructor_array r xs : noConstructor (Array r xs) ↔ Forall noConstructor xs.
Proof.
  simpl. induction xs as [| x xs IH]; [by split |].
  rewrite Forall_cons. tauto.
Qed.

Lemma noConstructor_object r proto ps :
  noConstructor (Object r proto ps)
  ↔ ("constructor"%string ∉ map fst ps) ∧ Forall (λ p, noConstructor p.2) ps.
Proof.
  cbn [noConstructor]. apply and_iff_compat_l.
  induction ps as [| p ps IH]; [by split |].
  rewrite Forall_cons. tauto.
Qed.

Lemma decided_array_2 r xs : Forall decided xs → decided (Array r xs).
Proof.
  intros H. simpl. split; [by right |].
  induction H as [| x xs Hx _ IH]; [done | by split].
Qed.

Lemma decided_object_2 r proto ps :
  isPlainObject (Object r proto ps) = Plain ∨ isPlainObject (Object r proto ps) = NotPlain →
  Forall (λ p, decided p.2) ps → decided (Object r proto ps).
Proof.
  intros Hv H. cbn [decided]. split; [done |]. clear Hv.
  induction H as [| p ps Hp _ IH]; [done | by split].
Qed.

(** Without own [constructor], every object inherits [Object] as its
    constructor or has none: [isPlainObject] returns. *)
Lemma noConstructor_decided v : noConstructor v → decided v.
Proof.
  induction v as [| | x | n | s | r xs IH | r proto ps IH | h] using Value_induction;
    intros Hv; try (by apply decided_leaf).
  - apply noConstructor_array in Hv. apply decided_array_2.
    induction IH as [| x xs Hx _ IHxs]; [constructor |].
    apply Forall_cons in Hv as [? ?]. constructor; eauto.
  - apply noConstructor_object in Hv as [Hkey Hv]. apply decided_object_2.
    + left. apply hasKey_not_own in Hkey. unfold isPlainObject. simpl. rewrite Hkey.
      by destruct proto.
    + clear Hkey. induction IH as [| p ps Hp _ IHps]; [constructor |].
      apply Forall_cons in Hv as [? ?]. constructor; eauto.
Qed.

Section Content.
(** [===] on numbers is symmetric. *)
Hypothesis numberEq_sym : ∀ x y, numberEq x y = numberEq y x.

Lemma strictEq_sym a b : strictEq a b = strictEq b a.
Proof.
  destruct a, b; simpl; try done;
    first [ apply numberEq_sym | apply String.eqb_sym | apply Nat.eqb_sym
          | apply bool_decide_ext; naive_solver ].
Qed.

(** What [replaceEqualDeep] is shown to do for a new value [b]: when it
    returns, the result has the content of [b], the reference counter has
    not decreased, and the result is [a], or [b] when [a] is not [===] to
    it, or a new array or object; and it returns when [isPlainObject]
    returns on every value inside [a] and [b]. *)
Definition sharing (a b : Value number) (next : Ref) : Prop :=
  match replaceEqualDeep a b next with
  | Returned (c, next') =>
      sameContent c b
      ∧ (next ≤ next')%nat
      ∧ (c = a ∨ (c = b ∧ strictEq a b = false) ∨ topRef c = Some next)
  | Threw | Unmodelled => ¬ (decided a ∧ decided b)
  end.

#[local] Abbreviation Spec b :=
  (∀ a next, refsBelow next a → json b → sharing a b next).

(** An item of the copy that is [===] to the old item: the old item has
    the content of the new one. *)
Lemma equal_item_content a b c next :
  refsBelow next a →
  sameContent c b →
  c = a ∨ (c = b ∧ strictEq a b = false) ∨ topRef c = Some next →
  strictEq c a = true →
  sameContent a b.
Proof.
  intros Hbelow Hc [-> | [[-> Hne] | Hfresh]] Hs.
  - done.
  - rewrite strictEq_sym in Hs. congruence.
  - rewrite (fresh_not_strictEq next _ a Hfresh Hbelow) in Hs. done.
Qed.

Lemma replaceItems_content xs ys :
  Forall (λ b, Spec b) ys → Forall json ys →
  ∀ copy (n : nat) next,
    (∀ j : nat, refsBelow next (itemGet xs j)) →
    match replaceItems xs ys copy n next with
    | Returned (copy', n', next') =>
        (next ≤ next')%nat
        ∧ (∃ new, copy' = copy ++ new ∧ Forall2 sameContent new ys)
        ∧ (n' ≤ n + length ys)%nat
        ∧ (n' = (n + length ys)%nat →
           ∀ (j : nat) y, ys !! j = Some y →
                          sameContent (itemGet xs (length copy + j)) y)
    | Threw | Unmodelled => ¬ (Forall decided xs ∧ Forall decided ys)
    end.
Proof.
  induction 1 as [| y ys Hy _ IH]; intros Hjson copy n next Hbelow.
  { simpl. split_and!; [done | | lia | done].
    exists []. by rewrite app_nil_r. }
  apply Forall_cons in Hjson as [Hjy Hjson].
  cbn [StructuralSharing.replaceItems].
  pose proof (Hy (itemGet xs (length copy)) next (Hbelow _) Hjy) as Hstep.
  unfold sharing in Hstep.
  destruct (replaceEqualDeep (itemGet xs (length copy)) y next) as [[ci next1] | |].
  2,3: intros [Hxs Hys]; apply Hstep; split;
    [by apply decided_item | by apply Forall_cons in Hys as [? _]].
  destruct Hstep as (Hc & Hle & Hcases).
  assert (Hread : itemGet (copy ++ [ci]) (length copy) = ci).
  { unfold itemGet. by rewrite app_nth2, Nat.sub_diag by lia. }
  rewrite Hread.
  assert (∀ j : nat, refsBelow next1 (itemGet xs j)) as Hbelow1.
  { intros j. by apply (refsBelow_mono next). }
  specialize (IH Hjson (copy ++ [ci])
                (if strictEq ci (itemGet xs (length copy)) then S n else n)
                next1 Hbelow1).
  destruct (replaceItems xs ys (copy ++ [ci]) _ next1) as [[[copy' n'] next'] | |].
  2,3: intros [Hxs Hys]; apply IH; split; [done | by apply Forall_cons in Hys as [_ ?]].
  destruct IH as (Hle' & (new & -> & Hall) & Hn & Hsame).
  split_and!.
  - lia.
  - exists (ci :: new). split; [by rewrite <- app_assoc | by constructor].
  - simpl. destruct (strictEq ci _); lia.
  - intros Htot j y' Hj. simpl in Htot.
    destruct (strictEq ci (itemGet xs (length copy))) eqn:Heq; [| lia].
    destruct j as [| j]; simpl in Hj.
    + injection Hj as <-. rewrite Nat.add_0_r.
      by apply (equal_item_content _ _ ci next).
    + specialize (Hsame ltac:(lia) j y' Hj).
      rewrite length_app in Hsame. simpl in Hsame.
      by replace (length copy + S j)%nat with (length copy + 1 + j)%nat by lia.
Qed.

Lemma replaceProps_content a yps :
  isPlainObject a = Plain →
  Forall (λ p, Spec p.2) yps →
  Forall (λ p, p.1 ≠ "__proto__"%string ∧ p.2 ≠ Undefined ∧ json p.2) yps →
  NoDup (map fst yps) →
  ∀ ref cps (n : nat) next,
    (∀ key, key ∈ map fst yps → key ∉ map fst cps) →
    refsBelow next a →
    match replaceProps a yps ref (ObjectPrototype, cps) n next with
    | Returned (copy', n', next') =>
        (next ≤ next')%nat
        ∧ (∃ new, copy' = (ObjectPrototype, cps ++ new)
                  ∧ map fst new = map fst yps
                  ∧ Forall2 (λ q p, sameContent q.2 p.2) new yps)
        ∧ (n' ≤ n + length yps)%nat
        ∧ (n' = (n + length yps)%nat →
           Forall (λ p, sameContent (get a p.1) p.2 ∧ p.1 ∈ map fst (ownProps a)) yps)
    | Threw | Unmodelled => ¬ (decided a ∧ Forall (λ p, decided p.2) yps)
    end.
Proof.
  intros Hplain.
  induction 1 as [| [key y] yps Hp _ IH]; intros Hjson Hnd ref cps n next Hfresh Hbelow.
  { simpl. split_and!; [done | | lia | constructor].
    exists []. by rewrite app_nil_r. }
  apply Forall_cons in Hjson as [(Hkey & Hdef & Hjy) Hjson].
  simpl in Hkey, Hdef, Hjy, Hp, Hnd. apply NoDup_cons in Hnd as [Hnk Hnd].
  cbn [StructuralSharing.replaceProps].
  pose proof (Hp (get a key) next (refsBelow_get _ _ _ Hbelow) Hjy) as Hstep.
  unfold sharing in Hstep.
  destruct (replaceEqualDeep (get a key) y next) as [[ci next1] | |].
  2,3: intros [Ha Hys]; apply Hstep; split;
    [by apply decided_get | by apply Forall_cons in Hys as [? _]].
  destruct Hstep as (Hc & Hle & Hcases).
  rewrite (assign_ordinary _ _ _ _ Hkey). cbn [fst snd].
  assert (Hnew : setOwn cps key ci = cps ++ [(key, ci)]).
  { unfold setOwn. assert (hasKey cps key = false) as ->; [| done].
    apply hasKey_not_own. apply Hfresh. simpl. by left. }
  rewrite Hnew.
  assert (Hread : get (Object ref ObjectPrototype (cps ++ [(key, ci)])) key = ci).
  { destruct (setOwn_get cps key ci) as [Hhas Hget]. rewrite Hnew in Hhas, Hget.
    simpl. by rewrite Hhas. }
  rewrite Hread.
  specialize (IH Hjson Hnd ref (cps ++ [(key, ci)])
                (if strictEq ci (get a key) then S n else n) next1).
  assert (Hfresh1 : ∀ k, k ∈ map fst yps → k ∉ map fst (cps ++ [(key, ci)])).
  { intros k Hk. rewrite map_app. simpl. intros Hin.
    apply elem_of_app in Hin as [Hin | Hin].
    - revert Hin. apply Hfresh. simpl. by right.
    - apply list_elem_of_singleton in Hin. by subst k. }
  specialize (IH Hfresh1 (refsBelow_mono _ _ _ Hle Hbelow)).
  destruct (replaceProps a yps ref (ObjectPrototype, cps ++ [(key, ci)]) _ next1)
    as [[[copy' n'] next'] | |].
  2,3: intros [Ha Hys]; apply IH; split; [done | by apply Forall_cons in Hys as [_ ?]].
  destruct IH as (Hle' & (new & -> & Hkeys & Hall) & Hn & Hsame).
  split_and!.
  - lia.
  - exists ((key, ci) :: new). split_and!.
    + by rewrite <- app_assoc.
    + simpl. by rewrite Hkeys.
    + by constructor.
  - simpl. destruct (strictEq ci _); lia.
  - intros Htot. simpl in Htot.
    destruct (strictEq ci (get a key)) eqn:Heq; [| lia].
    constructor; [| apply Hsame; lia].
    pose proof (equal_item_content _ _ ci next (refsBelow_get _ _ _ Hbelow)
                  Hc Hcases Heq) as Hsamekey.
    split; [done |]. simpl.
    destruct (decide (key ∈ map fst (ownProps a))) as [| Hnot]; [done |].
    by destruct (inherited_content a key y Hplain Hkey Hnot Hjy Hdef).
Qed.

(** Reading the copy of an object under the keys of [b]. *)
Lemma objGet_copy (R : Value number → Value number → Prop) copy yps :
  NoDup (map fst yps) →
  map fst copy = map fst yps →
  Forall2 (λ q p, R q.2 p.2) copy yps →
  Forall (λ p, R (objGet copy p.1) p.2) yps.
Proof.
  intros Hnd Hkeys Hall. revert Hnd Hkeys.
  induction Hall as [| [k c] [k' y] copy yps Hcy Hall IH]; intros Hnd Hkeys; [constructor |].
  simpl in *. injection Hkeys as -> Hkeys.
  apply NoDup_cons in Hnd as [Hk Hnd].
  constructor.
  - simpl. by rewrite String.eqb_refl.
  - specialize (IH Hnd Hkeys).
    apply Forall_forall. intros p Hin.
    rewrite Forall_forall in IH. specialize (IH p Hin).
    simpl. destruct (String.eqb k' p.1) eqn:Heq; [| done].
    apply String.eqb_eq in Heq. subst k'. destruct Hk.
    apply list_elem_of_fmap. by exists p.
Qed.

Lemma isPlainObject_plain a :
  isPlainObject a = Plain →
  (∃ r proto ps, a = Object r proto ps) ∨ a = Host TheObjectPrototype.
Proof.
  destruct a as [| | | | | | r proto ps | [| |]]; try done; eauto.
Qed.

Lemma replaceEqualDeep_sharing b : Spec b.
Proof.
  assert (Hother : ∀ a v next,
             strictEq a v = false → isPlainObject v = NotPlain →
             match a, v with Array _ _, Array _ _ => False | _, _ => True end →
             sharing a v next).
  { intros a v next Hs Hv Hav. unfold sharing.
    rewrite replaceEqualDeep_other by done.
    destruct (isPlainObject a) eqn:Hp;
      try (split_and!; [apply content_leaf; auto | done | auto]);
      intros [Ha _]; apply decided_verdict in Ha as [|]; congruence. }
  assert (Hstrict : ∀ a v next, strictEq a v = true → sharing a v next).
  { intros a v next Hs. unfold sharing. rewrite replaceEqualDeep_strict by done.
    split_and!; [apply content_leaf; auto | done | auto]. }
  induction b as [| | x | n | s | r ys IH | r proto yps IH | h] using Value_induction;
    intros a next Hbelow Hjson.
  1-5: match goal with |- sharing _ ?v _ => destruct (strictEq a v) eqn:Hs end;
    [by apply Hstrict |]; apply Hother; [done | done | by destruct a].
  - destruct (strictEq a (Array r ys)) eqn:Hs; [by apply Hstrict |].
    inversion Hjson as [| | | | | r0 ys0 Hjs |]; subst.
    destruct a as [| | x | n | s | ra xs | ra pa xps | h];
      try (by apply Hother).
    unfold sharing. rewrite replaceEqualDeep_arrays by done.
    pose proof (replaceItems_content xs ys IH Hjs [] O (S next)) as Hloop.
    destruct (replaceItems xs ys [] O (S next)) as [[[copy n] next'] | |].
    2,3: intros [Ha Hb]; apply Hloop;
      [ intros j; apply (refsBelow_mono next); [lia | by apply (refsBelow_item _ ra)]
      | split; by eapply decided_array ].
    destruct Hloop as (Hle & (new & -> & Hall) & Hn & Hsame).
    { intros j. apply (refsBelow_mono next); [lia |]. by apply (refsBelow_item _ ra). }
    simpl in Hall, Hn, Hsame |- *.
    destruct (_ && _) eqn:Hret.
    + split_and!; [| lia | auto].
      apply andb_true_iff in Hret as [Hlen Hcount].
      apply Nat.eqb_eq in Hlen, Hcount.
      apply content_array. apply Forall2_same_length_lookup_2; [done |].
      intros j x y Hx Hy.
      assert (itemGet xs j = x) as <-
        by (unfold itemGet; by rewrite (nth_lookup_Some _ _ _ _ Hx)).
      apply (Hsame ltac:(lia) j y Hy).
    + split_and!; [by apply content_array | lia | auto].
  - destruct (strictEq a (Object r proto yps)) eqn:Hs; [by apply Hstrict |].
    inversion Hjson as [| | | | | | r0 p0 ps0 Hnd Hproto Hjs]; subst.
    unfold sharing. rewrite replaceEqualDeep_object by done.
    unfold bothPlain.
    destruct (isPlainObject a) eqn:Hpa.
    2: split_and!; [apply content_leaf; auto | done | auto].
    2,3: intros [Ha _]; apply decided_verdict in Ha as [|]; congruence.
    destruct (isPlainObject (Object r proto yps)) eqn:Hpb.
    2: split_and!; [apply content_leaf; auto | done | auto].
    2,3: intros [_ Hb]; apply decided_verdict in Hb as [|]; congruence.
    assert (Hjs' : Forall (λ p, p.1 ≠ "__proto__"%string ∧ p.2 ≠ Undefined ∧ json p.2) yps).
    { apply Forall_forall. intros p Hin. rewrite Forall_forall in Hjs.
      destruct (Hjs p Hin) as [? ?]. split_and!; try done.
      intros Heq. apply Hproto. rewrite <- Heq. apply list_elem_of_fmap. by exists p. }
    pose proof (replaceProps_content a yps Hpa IH Hjs' Hnd next [] O (S next)) as Hloop.
    destruct (replaceProps a yps next (ObjectPrototype, []) O (S next))
      as [[[copy n] next'] | |].
    2,3: intros [Ha Hb]; apply Hloop;
      [ intros key _; apply not_elem_of_nil
      | by apply (refsBelow_mono next); [lia |]
      | split; [done | by eapply decided_object] ].
    destruct Hloop as (Hle & (new & -> & Hkeys & Hall) & Hn & Hsame).
    { intros key _. apply not_elem_of_nil. }
    { apply (refsBelow_mono next); [lia | done]. }
    simpl in Hn, Hsame |- *.
    destruct (_ && _) eqn:Hret.
    + split_and!; [| lia | auto].
      apply andb_true_iff in Hret as [Hlen Hcount].
      apply Nat.eqb_eq in Hlen, Hcount.
      specialize (Hsame ltac:(lia)).
      destruct (isPlainObject_plain a Hpa) as [(ra & pa & xps & ->) | ->].
      * simpl in Hlen, Hsame. apply content_object.
        -- symmetry. apply submseteq_length_Permutation.
           ++ apply NoDup_submseteq; [done |].
              intros key Hin. apply list_elem_of_fmap in Hin as (p & -> & Hin).
              rewrite Forall_forall in Hsame. by apply Hsame.
           ++ rewrite !length_map. lia.
        -- eapply Forall_impl; [exact Hsame |]. intros p [Hc Hin].
           by rewrite <- (get_own ra pa xps p.1 Hin).
      * simpl in Hlen. destruct yps; [| done]. apply content_prototype.
    + split_and!; [| lia | auto].
      apply content_object; [by rewrite Hkeys |].
      by apply objGet_copy.
  - inversion Hjson.
Qed.

(** X22: structural sharing changes references, never contents.  For [b]
    a JSON value and [next] a reference that the old value [a] does not
    hold, whenever [replaceEqualDeep(a, b)] returns, the result has the
    content of [b]; and it returns when no object inside [a] and [b] has
    a property [constructor] of its own. *)
Theorem shared_data_has_the_content_of_the_new a b next :
  refsBelow next a → json b →
  (∀ c next', replaceEqualDeep a b next = Returned (c, next') → sameContent c b)
  ∧ (noConstructor a → noConstructor b →
     ∃ c next', replaceEqualDeep a b next = Returned (c, next') ∧ sameContent c b).
Proof.
  intros Hbelow Hjson.
  pose proof (replaceEqualDeep_sharing b a next Hbelow Hjson) as H.
  unfold sharing in H. split.
  - intros c next' Heq. rewrite Heq in H. by destruct H.
  - intros Ha Hb. apply noConstructor_decided in Ha, Hb.
    destruct (replaceEqualDeep a b next) as [[c next'] | |].
    + exists c, next'. split; [done | by destruct H].
    + by destruct H.
    + by destruct H.
Qed.

End Content.

End Refs.

(** Data with numbers in [Z]: a todo as it is cached, as it is fetched
    again and parsed into new objects, and as it is fetched after an
    edit. *)
Definition oldTodo : Value Z :=
  Object 1%nat ObjectPrototype
    [("id", Number 7%Z); ("tags", Array 2%nat [Str "home"; Str "urgent"])].

Definition refetchedTodo : Value Z :=
  Object 11%nat ObjectPrototype
    [("tags", Array 12%nat [Str "home"; Str "urgent"]); ("id", Number 7%Z)].

Definition changedTodo : Value Z :=
  Object 21%nat ObjectPrototype
    [("id", Number 7%Z); ("tags", Array 22%nat [Str "home"; Str "done"])].

Lemma refetchedTodo_deepEqual : deepEqual Z.eqb oldTodo refetchedTodo.
Proof.
  apply deepEqual_object; [| | apply Permutation_swap |].
  - apply (bool_decide_unpack _). vm_compute. exact I.
  - apply (bool_decide_unpack _). vm_compute. exact I.
  - apply Forall_cons_2; [| apply Forall_cons_2; [| apply Forall_nil_2]]; simpl.
    + apply deepEqual_array. repeat apply Forall2_cons_2; by try apply deepEqual_leaf.
    + by apply deepEqual_leaf.
Qed.

Lemma deeply_equal_data_keeps_its_reference_witness :
  ∃ next', replaceEqualDeep Z.eqb oldTodo refetchedTodo 30%nat
           = Returned (oldTodo, next').
Proof.
  apply (deeply_equal_data_keeps_its_reference Z.eqb (λ x y _, Z.eqb_refl x)).
  exact refetchedTodo_deepEqual.
Defined.

Lemma shared_data_has_the_content_of_the_new_witness :
  ∃ c next', replaceEqualDeep Z.eqb oldTodo changedTodo 30%nat = Returned (c, next')
             ∧ sameContent Z.eqb c changedTodo.
Proof.
  assert (refsBelow 30%nat oldTodo) as Hbelow by (repeat constructor).
  assert (json changedTodo) as Hjson.
  { apply json_object.
    - apply (bool_decide_unpack _). vm_compute. exact I.
    - apply (bool_decide_unpack _). vm_compute. exact I.
    - repeat constructor; done. }
  apply (shared_data_has_the_content_of_the_new Z.eqb Z.eqb_sym _ _ _ Hbelow Hjson).
  - simpl. split_and!; try done.
    apply (bool_decide_unpack _). vm_compute. exact I.
  - simpl. split_and!; try done.
    apply (bool_decide_unpack _). vm_compute. exact I.
Defined.

(** The edited todo shares the unchanged number and takes a new array. *)
Example changed_todo_is_copied :
  replaceEqualDeep Z.eqb oldTodo changedTodo 30%nat
  = Returned (Object 30%nat ObjectPrototype
                [("id", Number 7%Z); ("tags", Array 31%nat [Str "home"; Str "done"])],
              32%nat).
Proof. vm_compute. reflexivity. Qed.

(** A key [__proto__], as [JSON.parse] creates it, is not copied, and
    reading it from the copy yields [Object.prototype]: against an old
    value that has no such key of its own the item counts as equal and the
    old value is returned; against an equal old value it does not, and an
    empty object is returned. *)
Example proto_key_is_read_from_the_prototype :
  let parsed (r : Ref) : Value Z := Object r ObjectPrototype [("__proto__", Number 5%Z)] in
  replaceEqualDeep Z.eqb (Object 1%nat ObjectPrototype [("y", Number 1%Z)]) (parsed 2%nat) 30%nat
  = Returned (Object 1%nat ObjectPrototype [("y", Number 1%Z)], 31%nat)
  ∧ replaceEqualDeep Z.eqb (parsed 1%nat) (parsed 2%nat) 30%nat
    = Returned (Object 30%nat ObjectPrototype [], 31%nat).
Proof. split; vm_compute; reflexivity. Qed.

(** [isPlainObject] throws on an object whose [constructor] is [null],
    and [replaceEqualDeep] with it. *)
Example null_constructor_throws :
  replaceEqualDeep Z.eqb (Object 1%nat ObjectPrototype [("constructor", Null)])
                   (Object 2%nat ObjectPrototype []) 30%nat
  = Threw.
Proof. vm_compute. reflexivity. Qed.

End StructuralSharingFacts.

(** ** Matching queries with observers *)
Module ObservableQueriesFacts.
Import ObservableQueries.

Section WithTypes.
Context {Options : Type} `{!EqDecision Options}.
Variable queryHash : Options → string.

#[local] Abbreviation Match := (Match Options).
#[local] Abbreviation findMatchingObservers := (findMatchingObservers queryHash).
#[local] Abbreviation newOrReusedObsQueries := (newOrReusedObsQueries queryHash).
#[local] Abbreviation matchingObservers := (matchingObservers queryHash).

Implicit Types (obsQueries : list Observer) (defaulted : list Options)
         (ms : list Match) (d : Options) (h : string) (next : nat).

(** The previous observer a hash is looked up to: the last one that has
    it. *)
Definition observing obsQueries h : option Observer :=
  last (filter (λ o, observerHash o = h) obsQueries).

Lemma prevObserversMap_lookup obsQueries h :
  prevObserversMap obsQueries !! h = observing obsQueries h.
Proof.
  unfold prevObserversMap, observing.
  induction obsQueries as [| o l IH] using rev_ind; [done |].
  rewrite foldl_app, filter_app. simpl.
  destruct (decide (observerHash o = h)) as [<- | Hne].
  - rewrite lookup_insert_eq, filter_cons_True by done.
    by rewrite filter_nil, last_snoc.
  - rewrite lookup_insert_ne by done.
    rewrite filter_cons_False by done. by rewrite filter_nil, app_nil_r.
Qed.

Lemma observing_hash obsQueries h o :
  observing obsQueries h = Some o → observerHash o = h ∧ o ∈ obsQueries.
Proof.
  unfold observing. intros Hlast.
  assert (o ∈ filter (λ o, observerHash o = h) obsQueries) as Hin.
  { apply last_Some in Hlast as [l' ->]. apply elem_of_app. right. by left. }
  by apply list_elem_of_filter in Hin.
Qed.

Lemma find_observing obsQueries h :
  observing obsQueries h = None →
  List.find (λ o, String.eqb (observerHash o) h) obsQueries = None.
Proof.
  unfold observing. intros Hlast. apply last_None in Hlast.
  induction obsQueries as [| o l IH]; [done |]. simpl.
  destruct (String.eqb (observerHash o) h) eqn:Heq.
  - apply String.eqb_eq in Heq. by rewrite filter_cons_True in Hlast.
  - apply String.eqb_neq in Heq. rewrite filter_cons_False in Hlast by done. by apply IH.
Qed.

(** *** The options of the matches *)

Lemma matchingObservers_options (prevMap : gmap string Observer) defaulted :
  map defaultedQueryOptions (matchingObservers prevMap defaulted)
  = filter (λ d, is_Some (prevMap !! queryHash d)) defaulted.
Proof.
  induction defaulted as [| d l IH]; [done |]. simpl.
  rewrite map_app, IH.
  destruct (prevMap !! queryHash d) as [o |] eqn:Hlook; simpl.
  - by rewrite filter_cons_True by (by rewrite Hlook).
  - rewrite filter_cons_False; [done |]. rewrite Hlook. by intros [? ?].
Qed.

Lemma unmatched_options (prevMap : gmap string Observer) defaulted :
  filter (λ d, queryHash d
               ∉ map (λ m, queryHash (defaultedQueryOptions m))
                     (matchingObservers prevMap defaulted)) defaulted
  = filter (λ d, ¬ is_Some (prevMap !! queryHash d)) defaulted.
Proof.
  assert (∀ h, h ∈ map (λ m, queryHash (defaultedQueryOptions m))
                       (matchingObservers prevMap defaulted)
               → is_Some (prevMap !! h)) as Hsub.
  { intros h Hin. apply list_elem_of_fmap in Hin as (m & -> & Hm).
    assert (defaultedQueryOptions m
            ∈ map defaultedQueryOptions (matchingObservers prevMap defaulted)) as Hd
      by (apply list_elem_of_fmap; by exists m).
    rewrite matchingObservers_options in Hd.
    by apply list_elem_of_filter in Hd as [Hd _]. }
  assert (∀ d, d ∈ defaulted → is_Some (prevMap !! queryHash d) →
               queryHash d ∈ map (λ m, queryHash (defaultedQueryOptions m))
                                 (matchingObservers prevMap defaulted)) as Hsup.
  { intros d Hd Hsome.
    assert (d ∈ map defaultedQueryOptions (matchingObservers prevMap defaulted)) as Hin.
    { rewrite matchingObservers_options. by apply list_elem_of_filter. }
    apply list_elem_of_fmap in Hin as (m & -> & Hm).
    apply list_elem_of_fmap. by exists m. }
  revert Hsub Hsup.
  generalize (map (λ m, queryHash (defaultedQueryOptions m))
                  (matchingObservers prevMap defaulted)).
  intros hashes Hsub Hsup.
  induction defaulted as [| d l IH]; [done |].
  destruct (decide (is_Some (prevMap !! queryHash d))) as [Hs | Hs].
  - rewrite !filter_cons_False.
    + apply IH. intros d' Hd'. apply Hsup. by right.
    + by intros H; apply H.
    + intros H. apply H. apply Hsup; [by left | done].
  - rewrite !filter_cons_True; [| done | by intros H%Hsub].
    f_equal. apply IH. intros d' Hd'. apply Hsup. by right.
Qed.

Lemma newOrReusedObsQueries_options obsQueries (unmatched : list Options) next :
  map defaultedQueryOptions (newOrReusedObsQueries obsQueries unmatched next).1 = unmatched.
Proof.
  revert next. induction unmatched as [| d l IH]; intros next; [done |]. simpl.
  destruct (getObservableQuery queryHash obsQueries d next) as [o next1].
  specialize (IH next1).
  destruct (newOrReusedObsQueries obsQueries l next1) as [ms next2].
  simpl in *. by rewrite IH.
Qed.

(** *** The sort *)

Section Sort.
Variable key : Match → Z.

Definition byKey (a b : Match) : Prop := key a ≤ key b.

Lemma insertMatch_perm (m : Match) ms : insertMatch key m ms ≡ₚ m :: ms.
Proof.
  induction ms as [| x l IH]; [done |]. simpl.
  destruct (key m <=? key x); [done |].
  rewrite IH. apply Permutation_swap.
Qed.

Lemma sortMatches_perm ms : sortMatches key ms ≡ₚ ms.
Proof.
  induction ms as [| x l IH]; [done |]. simpl.
  by rewrite insertMatch_perm, IH.
Qed.

Lemma insertMatch_sorted (m : Match) ms :
  StronglySorted byKey ms → StronglySorted byKey (insertMatch key m ms).
Proof.
  induction 1 as [| x l Hl IH Hx]; simpl.
  - repeat constructor.
  - destruct (key m <=? key x) eqn:Hle.
    + apply Z.leb_le in Hle. constructor; [by constructor |].
      constructor; [done |].
      eapply Forall_impl; [exact Hx |]. unfold byKey. intros y Hy. lia.
    + apply Z.leb_gt in Hle. constructor; [done |].
      rewrite insertMatch_perm. constructor; [unfold byKey; lia | done].
Qed.

Lemma sortMatches_sorted ms : StronglySorted byKey (sortMatches key ms).
Proof.
  induction ms as [| x l IH]; simpl; [constructor | by apply insertMatch_sorted].
Qed.
End Sort.

(** *** [indexOf] *)

Lemma indexOf_lookup defaulted (i : nat) d :
  NoDup defaulted → defaulted !! i = Some d → indexOf defaulted d = Z.of_nat i.
Proof.
  intros Hnd Hi. unfold indexOf.
  assert (list_find (λ y, y = d) defaulted = Some (i, d)) as ->; [| done].
  apply list_find_Some. split_and!; [done | done |].
  intros j y Hj Hlt ->. pose proof (NoDup_lookup _ _ _ _ Hnd Hi Hj). lia.
Qed.

Lemma indexOf_inj defaulted d d' :
  d ∈ defaulted → indexOf defaulted d = indexOf defaulted d' → d = d'.
Proof.
  intros Hd. unfold indexOf.
  destruct (list_find_elem_of (λ y, y = d) defaulted d Hd eq_refl) as [[i x] Hfind].
  rewrite Hfind.
  apply list_find_Some in Hfind as (Hi & -> & _).
  destruct (list_find (λ y, y = d') defaulted) as [[j y] |] eqn:Hfind'; [| lia].
  apply list_find_Some in Hfind' as (Hj & -> & _).
  intros Heq. assert (i = j) as -> by lia. congruence.
Qed.

Lemma defaulted_sorted defaulted :
  NoDup defaulted →
  StronglySorted (λ a b, indexOf defaulted a ≤ indexOf defaulted b) defaulted.
Proof.
  intros Hnd.
  cut (∀ l1 l2, defaulted = l1 ++ l2 →
         StronglySorted (λ a b, indexOf defaulted a ≤ indexOf defaulted b) l2).
  { intros H. by apply (H []). }
  intros l1 l2. revert l1. induction l2 as [| x l2 IH]; intros l1 Heq; [constructor |].
  constructor.
  - apply (IH (l1 ++ [x])). by rewrite <- app_assoc.
  - apply Forall_forall. intros y Hy.
    apply list_elem_of_lookup in Hy as [j Hj].
    rewrite (indexOf_lookup defaulted (length l1) x Hnd).
    + rewrite (indexOf_lookup defaulted (length l1 + S j) y Hnd); [lia |].
      rewrite Heq, lookup_app_r by lia.
      by replace (length l1 + S j - length l1)%nat with (S j) by lia.
    + rewrite Heq, lookup_app_r by lia. by rewrite Nat.sub_diag.
Qed.

(** *** The matches *)

Lemma matches_options obsQueries defaulted next :
  map defaultedQueryOptions (findMatchingObservers obsQueries defaulted next).1
  ≡ₚ defaulted.
Proof.
  unfold findMatchingObservers. cbv zeta.
  rewrite unmatched_options.
  pose proof (newOrReusedObsQueries_options obsQueries
                (filter (λ d, ¬ is_Some (prevObserversMap obsQueries !! queryHash d))
                        defaulted) next) as Hnew.
  destruct (newOrReusedObsQueries obsQueries _ next) as [ms next'].
  simpl in *.
  change (map defaultedQueryOptions ?l) with (defaultedQueryOptions <$> l).
  rewrite sortMatches_perm, fmap_app.
  change (defaultedQueryOptions <$> ?l) with (map defaultedQueryOptions l).
  rewrite matchingObservers_options, Hnew.
  apply filter_app_complement.
Qed.

Lemma getObservableQuery_spec obsQueries d next :
  let out := getObservableQuery queryHash obsQueries d next in
  observerHash out.1 = queryHash d
  ∧ (next ≤ out.2)%nat
  ∧ (observing obsQueries (queryHash d) = None →
     observerRef out.1 = next ∧ out.2 = S next).
Proof.
  unfold getObservableQuery.
  destruct (List.find _ obsQueries) as [o |] eqn:Hfind; simpl.
  - pose proof (find_some _ _ Hfind) as [_ Heq]. apply String.eqb_eq in Heq.
    split_and!; [done | lia |].
    intros Hnone. apply find_observing in Hnone. congruence.
  - split_and!; [done | lia | done].
Qed.

Lemma newOrReusedObsQueries_spec obsQueries (unmatched : list Options) next :
  let out := newOrReusedObsQueries obsQueries unmatched next in
  (next ≤ out.2)%nat
  ∧ Forall (λ m, observerHash (observableQuery m) = queryHash (defaultedQueryOptions m)
                 ∧ (observing obsQueries (queryHash (defaultedQueryOptions m)) = None →
                    (next ≤ observerRef (observableQuery m) < out.2)%nat)) out.1.
Proof.
  revert next. induction unmatched as [| d l IH]; intros next; simpl.
  { split; [lia | constructor]. }
  destruct (getObservableQuery_spec obsQueries d next) as (Hhash & Hle & Hnew).
  destruct (getObservableQuery queryHash obsQueries d next) as [o next1].
  specialize (IH next1).
  destruct (newOrReusedObsQueries obsQueries l next1) as [ms next2].
  simpl in *. destruct IH as [Hle2 Hall]. split; [lia |].
  constructor; simpl.
  - split; [done |]. intros Hnone. destruct (Hnew Hnone) as [-> ->]. lia.
  - eapply Forall_impl; [exact Hall |]. intros m [H1 H2]. split; [done |].
    intros Hnone. specialize (H2 Hnone). lia.
Qed.

Lemma matchingObservers_spec obsQueries defaulted :
  Forall (λ m, observing obsQueries (queryHash (defaultedQueryOptions m))
               = Some (observableQuery m))
         (matchingObservers (prevObserversMap obsQueries) defaulted).
Proof.
  induction defaulted as [| d l IH]; simpl; [constructor |].
  apply Forall_app. split; [| done].
  destruct (prevObserversMap obsQueries !! queryHash d) as [o |] eqn:Hlook;
    constructor; [| constructor].
  simpl. by rewrite <- prevObserversMap_lookup.
Qed.

(** Every match pairs its query with an observer that has the hash of the
    query: the last of the previous observers that have it, or, when there
    is none, an observer created by this call. *)
Lemma matches_spec obsQueries defaulted next :
  let out := findMatchingObservers obsQueries defaulted next in
  Forall (λ m, observerHash (observableQuery m) = queryHash (defaultedQueryOptions m)
               ∧ match observing obsQueries (queryHash (defaultedQueryOptions m)) with
                 | Some o => observableQuery m = o
                 | None => (next ≤ observerRef (observableQuery m) < out.2)%nat
                 end) out.1.
Proof.
  unfold findMatchingObservers. cbv zeta.
  rewrite unmatched_options.
  set (unmatched := filter (λ d, ¬ is_Some (prevObserversMap obsQueries !! queryHash d))
                           defaulted).
  pose proof (newOrReusedObsQueries_spec obsQueries unmatched next) as Hnew.
  pose proof (newOrReusedObsQueries_options obsQueries unmatched next) as Hopts.
  destruct (newOrReusedObsQueries obsQueries unmatched next) as [ms next'].
  simpl in *. destruct Hnew as [Hle Hnew].
  rewrite sortMatches_perm. apply Forall_app. split.
  - eapply Forall_impl; [apply matchingObservers_spec |].
    intros m Hm. simpl in Hm. rewrite Hm. split; [| done].
    by apply observing_hash in Hm as [Hm _].
  - rewrite Forall_forall in Hnew. apply Forall_forall. intros m Hin.
    destruct (Hnew m Hin) as [H1 H2]. split; [done |].
    assert (defaultedQueryOptions m ∈ unmatched) as Hun.
    { rewrite <- Hopts. apply list_elem_of_fmap. by exists m. }
    apply list_elem_of_filter in Hun as [Hun _].
    rewrite prevObserversMap_lookup in Hun.
    destruct (observing obsQueries (queryHash (defaultedQueryOptions m))) as [o |];
      [| by apply H2].
    destruct Hun. by eexists.
Qed.

(** X25: [findMatchingObservers] answers with one match for each query, in the
    order of the queries, when the defaulted options are different
    objects; each match pairs its query with an observer that has the hash
    of the query. *)
Theorem matches_follow_the_queries obsQueries defaulted next :
  NoDup defaulted →
  Forall2 (λ d m, defaultedQueryOptions m = d
                  ∧ observerHash (observableQuery m) = queryHash d)
          defaulted (findMatchingObservers obsQueries defaulted next).1.
Proof.
  intros Hnd.
  assert (map defaultedQueryOptions (findMatchingObservers obsQueries defaulted next).1
          = defaulted) as Hopts.
  { apply (StronglySorted_unique_strong
             (λ a b, indexOf defaulted a ≤ indexOf defaulted b)).
    - intros x1 x2 _ Hx2 H1 H2. symmetry. apply (indexOf_inj defaulted); [done | lia].
    - unfold findMatchingObservers. cbv zeta.
      destruct (newOrReusedObsQueries obsQueries _ next) as [ms next']. simpl.
      apply (StronglySorted_fmap defaultedQueryOptions
               (byKey (λ m, indexOf defaulted (defaultedQueryOptions m)))); [done |].
      apply sortMatches_sorted.
    - by apply defaulted_sorted.
    - apply matches_options. }
  pose proof (matches_spec obsQueries defaulted next) as Hspec. simpl in Hspec.
  revert Hopts Hspec.
  generalize (findMatchingObservers obsQueries defaulted next).1. intros ms <- Hspec.
  apply Forall2_fmap_l, Forall_Forall2_diag.
  eapply Forall_impl; [exact Hspec |]. intros m [H _]. by split.
Qed.

(** X26: observers are kept by hash: a query whose hash a previous observer has
    is matched with that observer (the last one, if several have it), and
    a query whose hash no previous observer has is matched with an
    observer created by this call, whose reference is a new one. *)
Theorem observers_are_reused_by_hash obsQueries defaulted next :
  let out := findMatchingObservers obsQueries defaulted next in
  Forall (λ m, match observing obsQueries (queryHash (defaultedQueryOptions m)) with
               | Some o => observableQuery m = o ∧ o ∈ obsQueries
               | None => (next ≤ observerRef (observableQuery m) < out.2)%nat
               end) out.1.
Proof.
  intros out. eapply Forall_impl; [apply matches_spec |].
  intros m [_ H]. simpl in H. fold out in H.
  destruct (observing obsQueries (queryHash (defaultedQueryOptions m))) as [o |] eqn:Ho;
    [| done].
  split; [done |]. by apply observing_hash in Ho as [_ Ho].
Qed.

End WithTypes.

(** Three queries against the observers of two of them: the first and the
    third keep their observers, the second gets a new one. *)
Example setQueries_keeps_observers :
  let obsQueries := [mkObserver 1 "a"; mkObserver 2 "c"] in
  (findMatchingObservers id obsQueries ["a"; "b"; "c"]%string 3).1
  = [mkMatch "a"%string (mkObserver 1 "a");
     mkMatch "b"%string (mkObserver 3 "b");
     mkMatch "c"%string (mkObserver 2 "c")].
Proof. vm_compute. reflexivity. Qed.

Lemma matches_follow_the_queries_witness :
  NoDup ["a"; "b"; "c"]%string
  ∧ Forall2 (λ d m, defaultedQueryOptions m = d
                    ∧ observerHash (observableQuery m) = d)
            ["a"; "b"; "c"]%string
            (findMatchingObservers id [mkObserver 1 "a"; mkObserver 2 "c"]
                                   ["a"; "b"; "c"]%string 3).1.
Proof.
  assert (NoDup ["a"; "b"; "c"]%string) as Hnd
    by (apply (bool_decide_unpack _); vm_compute; exact I).
  split; [exact Hnd |].
  apply (matches_follow_the_queries id [mkObserver 1 "a"; mkObserver 2 "c"]
           ["a"; "b"; "c"]%string 3%nat Hnd).
Defined.

End ObservableQueriesFacts.

(** ** The registry and its notifications *)
Module QueryCacheFacts.
Import QueryCache.

Implicit Types (cache : QueryCache) (e q : Entry) (evs : list Event)
         (l : list (string * Entry)) (h : string).

(** The last notification about [e] said that it was added. *)
Definition announced evs e : bool :=
  foldl (λ acc ev,
           match ev with
           | Added x => if bool_decide (x = e) then true else acc
           | Removed x => if bool_decide (x = e) then false else acc
           | Destroyed _ => acc
           end) false evs.

Lemma announced_app evs evs' e :
  announced (evs ++ evs') e
  = foldl (λ acc ev,
             match ev with
             | Added x => if bool_decide (x = e) then true else acc
             | Removed x => if bool_decide (x = e) then false else acc
             | Destroyed _ => acc
             end) (announced evs e) evs'.
Proof. unfold announced. by rewrite foldl_app. Qed.

Lemma mapGet_None l h : mapGet l h = None ↔ h ∉ map fst l.
Proof.
  induction l as [| [k v] l IH]; simpl.
  - split; [intros _; apply not_elem_of_nil | done].
  - destruct (String.eqb k h) eqn:Hk.
    + apply String.eqb_eq in Hk. subst. split; [done |]. intros H. destruct H. by left.
    + apply String.eqb_neq in Hk. rewrite IH, not_elem_of_cons. naive_solver.
Qed.

Lemma mapGet_Some l h e :
  NoDup (map fst l) → mapGet l h = Some e ↔ (h, e) ∈ l.
Proof.
  induction l as [| [k v] l IH]; simpl; intros Hnd.
  - split; [done | intros H; by apply elem_of_nil in H].
  - apply NoDup_cons in Hnd as [Hk Hnd].
    destruct (String.eqb k h) eqn:Heq.
    + apply String.eqb_eq in Heq. subst. split.
      * intros [= ->]. by left.
      * intros [[= ->] | Hin]%elem_of_cons; [done |].
        destruct Hk. apply list_elem_of_fmap. by exists (h, e).
    + apply String.eqb_neq in Heq. rewrite (IH Hnd). split.
      * intros Hin. by right.
      * intros [[= -> ->] | Hin]%elem_of_cons; done.
Qed.

Lemma mapSet_absent l h e : mapGet l h = None → mapSet h e l = l ++ [(h, e)].
Proof.
  induction l as [| [k v] l IH]; simpl; [done |].
  destruct (String.eqb k h); [done |]. intros H. by rewrite IH.
Qed.

(** The store holds every entry under its own hash, each hash once, with
    identities below the next one; and it holds exactly the entries that
    the notifications announce. *)
Definition consistent (acc : QueryCache * list Event) : Prop :=
  NoDup (map fst (queries acc.1))
  ∧ (∀ h e, (h, e) ∈ queries acc.1 → queryHash e = h ∧ (entryRef e < nextRef acc.1)%nat)
  ∧ (∀ e, e ∈ getAll acc.1 ↔ announced acc.2 e = true).

Lemma getAll_elem cache e :
  e ∈ getAll cache ↔ ∃ h, (h, e) ∈ queries cache.
Proof.
  unfold getAll. split.
  - intros ([h e'] & -> & Hin)%list_elem_of_fmap. by exists h.
  - intros [h Hin]. apply list_elem_of_fmap. by exists (h, e).
Qed.

Lemma build_consistent cache evs h :
  consistent (cache, evs) →
  consistent ((build cache h).1.2, evs ++ (build cache h).2).
Proof.
  intros (Hnd & Hown & Hann). unfold build, get. simpl in *.
  destruct (mapGet (queries cache) h) as [e0 |] eqn:Hget; simpl.
  { rewrite app_nil_r. done. }
  rewrite (mapSet_absent _ _ _ Hget).
  split_and!; simpl.
  - rewrite map_app. simpl. apply NoDup_app. split_and!; [done | | apply NoDup_singleton].
    intros k Hk Hk'. apply list_elem_of_singleton in Hk'. subst k.
    by apply mapGet_None in Hget.
  - intros k e [Hin | Hin]%elem_of_app.
    + destruct (Hown k e Hin). split; [done | lia].
    + apply list_elem_of_singleton in Hin. injection Hin as -> ->. simpl. split; [done | lia].
  - intros e. unfold getAll. simpl. rewrite map_app, elem_of_app, announced_app. simpl.
    fold (getAll cache). rewrite list_elem_of_singleton.
    case_bool_decide as Heq.
    + subst e. naive_solver.
    + rewrite <- Hann. naive_solver.
Qed.

Lemma mapDelete_elem l h k e : (k, e) ∈ mapDelete h l ↔ k ≠ h ∧ (k, e) ∈ l.
Proof. unfold mapDelete. by rewrite list_elem_of_filter. Qed.

Lemma remove_consistent cache evs q :
  consistent (cache, evs) →
  consistent ((remove cache q).1, evs ++ (remove cache q).2).
Proof.
  intros (Hnd & Hown & Hann). unfold remove, get. simpl in *.
  destruct (mapGet (queries cache) (queryHash q)) as [e0 |] eqn:Hget; simpl.
  2: { rewrite app_nil_r. done. }
  apply (mapGet_Some _ _ _ Hnd) in Hget.
  assert (∀ e, announced (evs ++ [Destroyed e0; Removed q]) e
               = if bool_decide (q = e) then false else announced evs e) as Hlast.
  { intros e. by rewrite announced_app. }
  case_bool_decide as Heq; simpl.
  - subst e0. split_and!; simpl.
    + unfold mapDelete.
      change (map fst ?l) with (fst <$> l).
      apply NoDup_fmap_fst.
      * intros k e1 e2 [_ H1]%list_elem_of_filter [_ H2]%list_elem_of_filter.
        apply (mapGet_Some _ _ _ Hnd) in H1, H2. congruence.
      * apply NoDup_filter. eapply NoDup_fmap_1. exact Hnd.
    + intros k e [_ Hin]%mapDelete_elem. by apply Hown.
    + intros e. rewrite Hlast, getAll_elem. simpl.
      case_bool_decide as Hq.
      * subst e. split; [| done]. intros [k [Hk Hin]%mapDelete_elem].
        destruct (Hown k q Hin) as [Hh _]. congruence.
      * rewrite <- Hann, getAll_elem. split.
        -- intros [k [_ Hin]%mapDelete_elem]. by exists k.
        -- intros [k Hin]. exists k. apply mapDelete_elem. split; [| done].
           intros ->. apply (mapGet_Some _ _ _ Hnd) in Hin, Hget. congruence.
  - split_and!; simpl; [done | done |].
    intros e. rewrite Hlast. case_bool_decide as Hq; [| apply Hann].
    subst e. split; [| done]. intros [k Hin]%getAll_elem.
    destruct (Hown k q Hin) as [<- _].
    apply (mapGet_Some _ _ _ Hnd) in Hin, Hget. congruence.
Qed.

Lemma removes_consistent (qs : list Entry) acc :
  consistent acc →
  consistent (foldl (λ acc queryInfo,
                       let '(cache', events) := remove acc.1 queryInfo in
                       (cache', acc.2 ++ events)) acc qs).
Proof.
  revert acc. induction qs as [| q qs IH]; intros [cache evs] Hc; [done |].
  simpl. apply IH.
  pose proof (remove_consistent cache evs q Hc) as H.
  by destruct (remove cache q).
Qed.

Lemma calls_consistent (cs : list Call) acc :
  consistent acc → consistent (calls acc cs).
Proof.
  revert acc. induction cs as [| c cs IH]; intros [cache evs] Hc; [done |].
  simpl. apply IH. destruct c as [h | q |]; simpl.
  - apply (build_consistent cache evs h Hc).
  - pose proof (remove_consistent cache evs q Hc) as H. by destruct (remove cache q).
  - unfold clear.
    pose proof (removes_consistent (getAll cache) (cache, []) ) as H.
    assert (∀ (qs : list Entry) c0 evs0 evs1,
              foldl (λ acc queryInfo,
                       let '(cache', events) := remove acc.1 queryInfo in
                       (cache', acc.2 ++ events)) (c0, evs1 ++ evs0) qs
              = ((foldl (λ acc queryInfo,
                           let '(cache', events) := remove acc.1 queryInfo in
                           (cache', acc.2 ++ events)) (c0, evs0) qs).1,
                 evs1 ++ (foldl (λ acc queryInfo,
                                   let '(cache', events) := remove acc.1 queryInfo in
                                   (cache', acc.2 ++ events)) (c0, evs0) qs).2)) as Hshift.
    { clear. induction qs as [| q qs IH]; intros c0 evs0 evs1; [done |].
      simpl. destruct (remove c0 q) as [c1 evs2]. by rewrite <- app_assoc, IH. }
    pose proof (removes_consistent (getAll cache) (cache, evs) Hc) as Hall.
    rewrite <- (app_nil_r evs) in Hall at 1. rewrite Hshift in Hall.
    by destruct (foldl _ (cache, []) (getAll cache)).
Qed.

(** X27: the cache holds what it announced: whatever entries are built and
    removed, and whenever the cache is cleared, an entry is in the cache
    exactly when the last notification about it is [added]; and every entry
    in the cache is the one [get] finds under its hash. *)
Theorem cache_holds_what_it_announced (cs : list Call) :
  let out := calls (createQueryCache, []) cs in
  (∀ e, e ∈ getAll out.1 ↔ announced out.2 e = true)
  ∧ (∀ e, e ∈ getAll out.1 ↔ get out.1 (queryHash e) = Some e).
Proof.
  intros out.
  assert (consistent out) as (Hnd & Hown & Hann).
  { apply calls_consistent. split_and!; simpl.
    - apply NoDup_nil_2.
    - intros h e Hin. by apply elem_of_nil in Hin.
    - intros e. split; [intros Hin; by apply elem_of_nil in Hin | done]. }
  split; [done |].
  intros e. unfold get. rewrite (mapGet_Some _ _ _ Hnd), getAll_elem. split.
  - intros [h Hin]. by destruct (Hown h e Hin) as [-> _].
  - intros Hin. by eexists.
Qed.

Lemma clear_from l (n : nat) evs :
  NoDup (map fst l) → (∀ h e, (h, e) ∈ l → queryHash e = h) →
  foldl (λ acc queryInfo,
           let '(cache', events) := remove acc.1 queryInfo in (cache', acc.2 ++ events))
        (mkCache l n, evs) (map snd l)
  = (mkCache [] n, evs ++ flat_map (λ q, [Destroyed q; Removed q]) (map snd l)).
Proof.
  revert evs. induction l as [| [k v] l IH]; intros evs Hnd Hown.
  { simpl. by rewrite app_nil_r. }
  simpl in Hnd. apply NoDup_cons in Hnd as [Hk Hnd].
  assert (queryHash v = k) as Hv by (apply Hown; by left).
  cbn [map foldl snd flat_map fst].
  assert (remove (mkCache ((k, v) :: l) n) v = (mkCache l n, [Destroyed v; Removed v])) as ->.
  { unfold remove, get. simpl. rewrite Hv, String.eqb_refl.
    rewrite bool_decide_eq_true_2 by done. f_equal. f_equal.
    unfold mapDelete. rewrite filter_cons_False by (simpl; by intros H).
    clear -Hk. induction l as [| [k' v'] l IH]; [done |].
    apply not_elem_of_cons in Hk as [Hne Hk].
    rewrite filter_cons_True by (simpl; intros ->; by apply Hne). f_equal. by apply IH. }
  rewrite IH; [| done | intros h e Hin; apply Hown; by right].
  by rewrite <- app_assoc.
Qed.

(** X28: [clear] empties the cache, whatever was built and removed before:
    each entry is destroyed and announced as removed, in the order of
    insertion, and no entry is left. *)
Theorem clear_removes_every_entry (cs : list Call) :
  let before := (calls (createQueryCache, []) cs).1 in
  let out := clear before in
  getAll out.1 = []
  ∧ out.2 = flat_map (λ q, [Destroyed q; Removed q]) (getAll before).
Proof.
  intros before out.
  assert (consistent (calls (createQueryCache, []) cs)) as (Hnd & Hown & _).
  { apply calls_consistent. split_and!; simpl.
    - apply NoDup_nil_2.
    - intros h e Hin. by apply elem_of_nil in Hin.
    - intros e. split; [intros Hin; by apply elem_of_nil in Hin | done]. }
  fold before in Hnd, Hown.
  unfold out, clear, getAll.
  destruct before as [l n]. simpl in *.
  rewrite clear_from; [done | done |]. intros h e Hin. by apply Hown.
Qed.

(** An entry is built, removed, and built again under the same hash: the
    second entry is a new one, and removing the first once more destroys
    the second without taking it out of the cache. *)
Example stale_entry_removed_again :
  let first := mkEntry 0 "todos" in
  let second := mkEntry 1 "todos" in
  calls (createQueryCache, [])
        [Build "todos"; Remove first; Build "todos"; Remove first]
  = (mkCache [("todos"%string, second)] 2,
     [Added first; Destroyed first; Removed first; Added second;
      Destroyed second; Removed first]).
Proof. vm_compute. reflexivity. Qed.

End QueryCacheFacts.
